(** * next-typed-route-codegen: route patterns, scanner and generator

    A shallow embedding of [runtime/path-builder.ts], [codegen/scanner.ts]
    and [codegen/generator.ts], and the properties of the route-pattern
    compiler proved about it.

    Strings.  A JavaScript string is represented by the list of the bytes
    of its UTF-8 encoding ([list ascii]).  Every character the code
    inspects (brackets, slash, backslash, percent, the regex
    metacharacters) is ASCII, and a byte of a multi-byte sequence is never
    equal to one of them, so the regular expressions of the source find
    the same matches on the bytes as on the UTF-16 code units, with one
    exception: two capturing groups side by side divide a text between
    two code units, here between two bytes, and these are different
    places inside a character that is not ASCII.  What is stated of the
    texts a match captures is stated of patterns whose placeholders do
    not touch, or of paths of ASCII characters.  Strings with lone
    surrogates have no representation and are outside the model.

    Objects used as dictionaries ([Record<string, string>]) are finite
    maps of the properties of the object itself, the values being
    strings; they inherit from [Object.prototype], which is as Node
    provides it.

    Exceptions.  A function that may throw returns a [result].

    Regular expressions.  A global search is a scan of the string with
    the function that tries the expression at one position; the
    expressions [new RegExp] is given are compiled to items and matched by
    backtracking.

    File system.  The scanner reads a snapshot of the tree; the generator
    writes into a store of file contents. *)

From Stdlib Require Import Ascii String List NArith Lia Bool.
From stdpp Require Import gmap strings list.
Import ListNotations.

#[local] Open Scope char_scope.
#[local] Open Scope list_scope.

Abbreviation jsstring := (list ascii).

(** Literals: [lit "/user/[id]"]. *)
Definition lit (s : string) : jsstring := list_ascii_of_string s.

(** ** Thrown values and fallible computations *)

Inductive error : Type :=
  | Error (message : jsstring)   (* [new Error(message)] *)
  | URIError                     (* thrown by [decodeURIComponent] *)
  | SyntaxError                  (* [new RegExp] on an unsupported source *)
  | ENOTDIR.                     (* [fs.readdirSync] on something that is no directory *)

Inductive result (A : Type) : Type :=
  | Ok (a : A)
  | Throw (e : error).
Arguments Ok {A} a.
Arguments Throw {A} e.

Definition bind {A B} (r : result A) (k : A -> result B) : result B :=
  match r with
  | Ok a => k a
  | Throw e => Throw e
  end.

Notation "'let*' x ':=' r 'in' k" := (bind r (fun x => k))
  (at level 10, x name, r at level 100, k at level 200).

(** * The host language *)

Module JS.

(** ** Percent-encoding *)

Definition in_range (lo hi c : ascii) : bool :=
  (N_of_ascii lo <=? N_of_ascii c)%N && (N_of_ascii c <=? N_of_ascii hi)%N.

Definition is_alnum (c : ascii) : bool :=
  in_range "A" "Z" c || in_range "a" "z" c || in_range "0" "9" c.

(** The characters [encodeURIComponent] leaves alone:
    [A-Z a-z 0-9 - _ . ! ~ * ' ( )]. *)
Definition is_unreserved (c : ascii) : bool :=
  is_alnum c || existsb (Ascii.eqb c) ["-"; "_"; "."; "!"; "~"; "*"; "'"; "("; ")"].

Definition hex_digit (n : N) : ascii :=
  if (n <? 10)%N then ascii_of_N (48 + n) else ascii_of_N (55 + n).

Definition hex_value (c : ascii) : option N :=
  if in_range "0" "9" c then Some (N_of_ascii c - 48)%N
  else if in_range "A" "F" c then Some (N_of_ascii c - 55)%N
  else if in_range "a" "f" c then Some (N_of_ascii c - 87)%N
  else None.

Definition percent_encode (c : ascii) : jsstring :=
  ["%"; hex_digit (N_of_ascii c / 16); hex_digit (N_of_ascii c mod 16)].

(** [encodeURIComponent]: every byte of the UTF-8 encoding that is not an
    unreserved character becomes [%XX] (upper-case hexadecimal). *)
Definition encodeURIComponent (s : jsstring) : jsstring :=
  flat_map (fun c => if is_unreserved c then [c] else percent_encode c) s.

(** [decodeURIComponent], first pass: the escapes [%XX] are read as
    octets; a [%] not followed by two hexadecimal digits is a [URIError]. *)
Inductive unit_ : Type :=
  | Raw (c : ascii)      (* a character standing for itself *)
  | Octet (b : ascii).   (* an octet written [%XX] *)

Definition hex_octet (h1 h2 : ascii) : option ascii :=
  match hex_value h1, hex_value h2 with
  | Some a, Some b => Some (ascii_of_N (16 * a + b))
  | _, _ => None
  end.

Fixpoint unescape (s : jsstring) : result (list unit_) :=
  match s with
  | [] => Ok []
  | c :: s1 =>
      if (c =? "%")%char then
        match s1 with
        | h1 :: h2 :: s2 =>
            match hex_octet h1 h2 with
            | Some b => let* us := unescape s2 in Ok (Octet b :: us)
            | None => Throw URIError
            end
        | _ => Throw URIError
        end
      else let* us := unescape s1 in Ok (Raw c :: us)
  end.

Definition byte_in (lo hi : N) (b : ascii) : bool :=
  (lo <=? N_of_ascii b)%N && (N_of_ascii b <=? hi)%N.

(** Well-formed UTF-8 sequences of two, three and four octets (no overlong
    form, no surrogate, nothing above U+10FFFF). *)
Definition utf8_2 (b1 b2 : ascii) : bool :=
  byte_in 194 223 b1 && byte_in 128 191 b2.

Definition utf8_3 (b1 b2 b3 : ascii) : bool :=
  (byte_in 224 224 b1 && byte_in 160 191 b2
   || byte_in 225 236 b1 && byte_in 128 191 b2
   || byte_in 237 237 b1 && byte_in 128 159 b2
   || byte_in 238 239 b1 && byte_in 128 191 b2)
  && byte_in 128 191 b3.

Definition utf8_4 (b1 b2 b3 b4 : ascii) : bool :=
  (byte_in 240 240 b1 && byte_in 144 191 b2
   || byte_in 241 243 b1 && byte_in 128 191 b2
   || byte_in 244 244 b1 && byte_in 128 143 b2)
  && byte_in 128 191 b3 && byte_in 128 191 b4.

(** Second pass: an octet below 128 is a character; an octet from 192 on
    announces a sequence of two, three or four escaped octets, which has
    to be well-formed UTF-8; anything else is a [URIError]. *)
Fixpoint decode_units (us : list unit_) : result jsstring :=
  match us with
  | [] => Ok []
  | Raw c :: us1 => let* r := decode_units us1 in Ok (c :: r)
  | Octet b1 :: us1 =>
      if byte_in 0 127 b1 then let* r := decode_units us1 in Ok (b1 :: r)
      else if byte_in 192 223 b1 then
        match us1 with
        | Octet b2 :: us2 =>
            if utf8_2 b1 b2
            then let* r := decode_units us2 in Ok (b1 :: b2 :: r)
            else Throw URIError
        | _ => Throw URIError
        end
      else if byte_in 224 239 b1 then
        match us1 with
        | Octet b2 :: Octet b3 :: us3 =>
            if utf8_3 b1 b2 b3
            then let* r := decode_units us3 in Ok (b1 :: b2 :: b3 :: r)
            else Throw URIError
        | _ => Throw URIError
        end
      else if byte_in 240 247 b1 then
        match us1 with
        | Octet b2 :: Octet b3 :: Octet b4 :: us4 =>
            if utf8_4 b1 b2 b3 b4
            then let* r := decode_units us4 in Ok (b1 :: b2 :: b3 :: b4 :: r)
            else Throw URIError
        | _ => Throw URIError
        end
      else Throw URIError
  end.

Definition decodeURIComponent (s : jsstring) : result jsstring :=
  let* us := unescape s in decode_units us.

(** Well-formed text: the bytes are a UTF-8 encoding. *)
Fixpoint valid_utf8 (s : jsstring) : bool :=
  match s with
  | [] => true
  | b1 :: s1 =>
      if byte_in 0 127 b1 then valid_utf8 s1
      else
        match s1 with
        | b2 :: s2 =>
            if utf8_2 b1 b2 then valid_utf8 s2
            else
              match s2 with
              | b3 :: s3 =>
                  if utf8_3 b1 b2 b3 then valid_utf8 s3
                  else
                    match s3 with
                    | b4 :: s4 => utf8_4 b1 b2 b3 b4 && valid_utf8 s4
                    | [] => false
                    end
              | [] => false
              end
        | [] => false
        end
  end.

(** ** Global search with a regular expression

    [match_at s] is the attempt to match the expression at the start of
    [s]: the captured text and what follows the match.  A global search
    tries each position from the left; after a match it resumes behind
    it, otherwise it steps over one character.  The expressions of the
    code match one character at least, so the length of the string is
    fuel enough for the scan. *)

Inductive token (M : Type) : Type :=
  | Lit (c : ascii)     (* a character outside every match *)
  | Hit (m : M).        (* a match *)
Arguments Lit {M} c.
Arguments Hit {M} m.

Section Scan.
Context {M : Type} (match_at : jsstring -> option (M * jsstring)).

Fixpoint scan_fuel (fuel : nat) (s : jsstring) : list (token M) :=
  match fuel with
  | O => []
  | S n =>
      match s with
      | [] => []
      | c :: s' =>
          match match_at s with
          | Some (m, rest) => Hit m :: scan_fuel n rest
          | None => Lit c :: scan_fuel n s'
          end
      end
  end.

Definition scan (s : jsstring) : list (token M) :=
  scan_fuel (length s) s.

(** [s.replace(re, callback)]: the callback runs on the matches from
    left to right; the first exception it throws ends the replacement. *)
Fixpoint replace_with (callback : M -> result jsstring)
    (ts : list (token M)) : result jsstring :=
  match ts with
  | [] => Ok []
  | Lit c :: ts' => let* r := replace_with callback ts' in Ok (c :: r)
  | Hit m :: ts' =>
      let* v := callback m in let* r := replace_with callback ts' in Ok (v ++ r)
  end.

(** [s.replace(re, text)] with a replacement that never fails. *)
Fixpoint replace_by (text : M -> jsstring) (ts : list (token M)) : jsstring :=
  match ts with
  | [] => []
  | Lit c :: ts' => c :: replace_by text ts'
  | Hit m :: ts' => text m ++ replace_by text ts'
  end.

Fixpoint hits (ts : list (token M)) : list M :=
  match ts with
  | [] => []
  | Lit _ :: ts' => hits ts'
  | Hit m :: ts' => m :: hits ts'
  end.
End Scan.

(** [s.replace(/c/g, ...)] for an expression that matches one character
    of a class: every such character is replaced. *)
Definition replace_chars (class : ascii -> bool) (text : ascii -> jsstring)
    (s : jsstring) : jsstring :=
  flat_map (fun c => if class c then text c else [c]) s.

(** ** The regular expressions [new RegExp] is given

    The sources built by the code have the shape
    [^ (character | \character | ([^/]+))* $]; they are compiled to a list
    of items.  Any other source is refused ([SyntaxError] in the model). *)

Inductive ritem : Type :=
  | RChar (c : ascii)   (* a character, written plainly or escaped *)
  | RGroup.             (* the capturing group [([^/]+)] *)

Definition regexp := list ritem.

(** The characters with a meaning of their own in a pattern, which are
    the characters of the class [[.*+?^${}()|[\]\\]]. *)
Definition is_syntax_char (c : ascii) : bool :=
  existsb (Ascii.eqb c)
    ["."; "*"; "+"; "?"; "^"; "$"; "{"; "}"; "("; ")"; "|"; "["; "]"; "\"].

Definition group_source : jsstring := lit "([^/]+)".

Fixpoint parse_body (s : jsstring) : option regexp :=
  match s with
  | [] => None                       (* the closing [$] is missing *)
  | c :: s1 =>
      if (c =? "\")%char then
        match s1 with
        | e :: s2 =>
            if is_syntax_char e || (e =? "/")%char
            then option_map (cons (RChar e)) (parse_body s2)
            else None
        | [] => None
        end
      else if (c =? "$")%char then
        match s1 with [] => Some [] | _ => None end
      else if (c =? "(")%char then
        match s1 with
        | "[" :: "^" :: "/" :: "]" :: "+" :: ")" :: s7 =>
            option_map (cons RGroup) (parse_body s7)
        | _ => None
        end
      else if is_syntax_char c then None
      else option_map (cons (RChar c)) (parse_body s1)
  end.

Definition RegExp (source : jsstring) : result regexp :=
  match source with
  | "^" :: body =>
      match parse_body body with
      | Some r => Ok r
      | None => Throw SyntaxError
      end
  | _ => Throw SyntaxError
  end.

(** Matching is by backtracking: a group first takes as many characters
    other than [/] as it can and gives them back one by one until the
    rest of the expression matches.  The result is the list of captured
    texts, [match[1]], [match[2]], ... *)
Fixpoint exec_from (r : regexp) : jsstring -> option (list jsstring) :=
  match r with
  | [] => fun s => match s with [] => Some [] | _ => None end
  | RChar c :: r' =>
      fun s =>
        match s with
        | c' :: s' => if (c =? c')%char then exec_from r' s' else None
        | [] => None
        end
  | RGroup :: r' =>
      fix group (s : jsstring) : option (list jsstring) :=
        match s with
        | [] => None
        | c :: s' =>
            if (c =? "/")%char then None
            else
              match group s' with
              | Some (g :: gs) => Some ((c :: g) :: gs)
              | _ =>
                  match exec_from r' s' with
                  | Some gs => Some ([c] :: gs)
                  | None => None
                  end
              end
        end
  end.

(** [s.match(regex)] for an expression without the global flag: [None] is
    [null]. *)
Definition exec (regex : regexp) (s : jsstring) : option (list jsstring) :=
  exec_from regex s.

(** [m.slice(1, -1)] *)
Definition slice_1_m1 (m : jsstring) : jsstring := List.removelast (tl m).

(** [segments.join("/")] *)
Fixpoint join {A : Type} (sep : list A) (l : list (list A)) : list A :=
  match l with
  | [] => []
  | [x] => x
  | x :: l' => x ++ sep ++ join sep l'
  end.

(** [s.split("/")] *)
Fixpoint split_slash (s : jsstring) : list jsstring :=
  match s with
  | [] => [[]]
  | c :: s' =>
      if (c =? "/")%char then [] :: split_slash s'
      else
        match split_slash s' with
        | seg :: segs => (c :: seg) :: segs
        | [] => [[c]]
        end
  end.

(** ** [Object.prototype]

    The properties an object literal inherits, each with what [String]
    makes of its value: a function is printed as Node prints a built-in
    function, and [__proto__] reads the prototype itself, an object.
    [None]: there is no such property. *)
Definition Object_prototype (key : jsstring) : option jsstring :=
  if bool_decide (key = lit "__proto__") then Some (lit "[object Object]")
  else if bool_decide (key = lit "constructor")
  then Some (lit "function Object() { [native code] }")
  else if existsb (fun name => bool_decide (key = name))
            [ lit "__defineGetter__"; lit "__defineSetter__";
              lit "hasOwnProperty"; lit "__lookupGetter__";
              lit "__lookupSetter__"; lit "isPrototypeOf";
              lit "propertyIsEnumerable"; lit "toString"; lit "valueOf";
              lit "toLocaleString" ]
  then Some (lit "function " ++ key ++ lit "() { [native code] }")
  else None.

End JS.

(** * runtime/path-builder.ts *)

Module PathBuilder.
Import JS.

(** [[^\]]*\]] at the start of [s]: the characters before the first ["]"]
    and what follows it. *)
Fixpoint until_close (s : jsstring) : option (jsstring * jsstring) :=
  match s with
  | [] => None
  | c :: s' =>
      if (c =? "]")%char then Some ([], s')
      else
        match until_close s' with
        | Some (k, rest) => Some (c :: k, rest)
        | None => None
        end
  end.

(** [/\[([^\]]+)\]/] at the start of [s]: the captured key and what
    follows the match. *)
Definition placeholder_at (s : jsstring) : option (jsstring * jsstring) :=
  match s with
  | [] => None
  | c :: s' =>
      if (c =? "[")%char then
        match until_close s' with
        | Some (c1 :: k, rest) => Some (c1 :: k, rest)
        | _ => None
        end
      else None
  end.

(** The text of a match, [match[0]]. *)
Definition matched_text (key : jsstring) : jsstring := "[" :: key ++ ["]"].

Definition missing_param (key route : jsstring) : error :=
  Error (lit "Missing param: " ++ key ++ lit " for route: " ++ route).

(** [params[key]], as a text: the property of the object itself, or else
    the one it inherits, which [encodeURIComponent] turns into a string.
    [None] is [undefined]. *)
Definition get_param (params : gmap jsstring jsstring) (key : jsstring)
    : option jsstring :=
  match params !! key with
  | Some value => Some value
  | None => Object_prototype key
  end.

Definition buildPath (route : jsstring)
    (params : option (gmap jsstring jsstring)) : result jsstring :=
  match params with
  | None => Ok route
  | Some params =>
      replace_with
        (fun key =>
           match get_param params key with
           | None => Throw (missing_param key route)
           | Some value => Ok (encodeURIComponent value)
           end)
        (scan placeholder_at route)
  end.

Definition extractParamKeys (route : jsstring) : list jsstring :=
  match map matched_text (hits (scan placeholder_at route)) with
  | [] => []
  | matches => map slice_1_m1 matches
  end.

Definition isDynamicRoute (route : jsstring) : bool :=
  match hits (scan placeholder_at route) with
  | [] => false
  | _ => true
  end.

(** [/\\\[([^\]]+)\\\]/] at the start of [s].  After the backslash and the
    bracket the group takes the run of characters before the first ["]"];
    a backslash has to precede that ["]"], so the run ends in a backslash,
    which the group gives back, and at least one character is left to the
    group. *)
Definition escaped_placeholder_at (s : jsstring)
    : option (jsstring * jsstring) :=
  match s with
  | c1 :: c2 :: t =>
      if (c1 =? "\")%char && (c2 =? "[")%char then
        match until_close t with
        | Some (run, rest) =>
            if (2 <=? length run)%nat && (List.last run "x" =? "\")%char
            then Some (List.removelast run, rest)
            else None
        | None => None
        end
      else None
  | _ => None
  end.

(** [.replace(/[.*+?^${}()|[\]\\]/g, "\\$&")] *)
Definition escape_syntax_chars (route : jsstring) : jsstring :=
  replace_chars is_syntax_char (fun c => ["\"; c]) route.

Definition routeToRegex_source (route : jsstring) : jsstring :=
  let escaped :=
    replace_by (fun _ => group_source)
      (scan escaped_placeholder_at (escape_syntax_chars route)) in
  "^" :: escaped ++ ["$"].

Definition routeToRegex (route : jsstring) : result regexp :=
  RegExp (routeToRegex_source route).

(** [result[key] = value] on an object made by [{}], the value being a
    string.  [__proto__] is an accessor of [Object.prototype], whose
    setter does nothing with a string; under any other name the object
    gets a property of its own. *)
Definition set_param (key value : jsstring) (result : gmap jsstring jsstring)
    : gmap jsstring jsstring :=
  if bool_decide (key = lit "__proto__") then result
  else <[key := value]> result.

(** [keys.forEach((key, index) => { result[key] = decodeURIComponent(match[index + 1]) })];
    a group that does not exist reads as [undefined]. *)
Fixpoint assign_params (keys : list jsstring) (index : nat)
    (groups : list jsstring) (acc : gmap jsstring jsstring)
    : result (gmap jsstring jsstring) :=
  match keys with
  | [] => Ok acc
  | key :: keys' =>
      let* value :=
        decodeURIComponent
          (match groups !! index with
           | Some g => g
           | None => lit "undefined"
           end) in
      assign_params keys' (S index) groups (set_param key value acc)
  end.

(** [null] is [None]; the object returned is given by its own
    properties. *)
Definition matchRoute (pathname pattern : jsstring)
    : result (option (gmap jsstring jsstring)) :=
  let* regex := routeToRegex pattern in
  match exec regex pathname with
  | None => Ok None
  | Some groups =>
      let keys := extractParamKeys pattern in
      let* r := assign_params keys 0 groups ∅ in
      Ok (Some r)
  end.

End PathBuilder.


(** * codegen/scanner.ts *)

Module Scanner.
Import JS.

(** [ScannedRoute] of [types/config.ts]. *)
Record ScannedRoute : Type := {
  filePath : jsstring;
  routePath : jsstring;
  params : list jsstring;
  isStatic : bool
}.

(** The file system is read as a snapshot: a directory entry ([fs.Dirent])
    comes with the content of the file or with the entries of the
    directory it names.  Every file and directory of the snapshot is
    readable. *)
#[warnings="-register-all"]
Inductive dirent : Type :=
  | FileEnt (name : jsstring) (content : jsstring)
  | DirEnt (name : jsstring) (entries : list dirent).

(** What a path denotes. *)
Inductive inode : Type :=
  | IsFile (content : jsstring)
  | IsDir (entries : list dirent).

Definition filesystem := jsstring -> option inode.

Definition startsWith (prefix s : jsstring) : bool :=
  bool_decide (firstn (length prefix) s = prefix).

(** [\s]: the white space of ECMAScript, in UTF-8. *)
Definition is_space1 (c : ascii) : bool :=
  byte_in 9 13 c || byte_in 32 32 c.

Definition is_space2 (c1 c2 : ascii) : bool :=
  byte_in 194 194 c1 && byte_in 160 160 c2.                    (* U+00A0 *)

Definition is_space3 (c1 c2 c3 : ascii) : bool :=
  byte_in 225 225 c1 && byte_in 154 154 c2 && byte_in 128 128 c3   (* U+1680 *)
  || byte_in 226 226 c1 && byte_in 128 128 c2
     && (byte_in 128 138 c3                  (* U+2000 .. U+200A *)
         || byte_in 168 169 c3               (* U+2028, U+2029 *)
         || byte_in 175 175 c3)              (* U+202F *)
  || byte_in 226 226 c1 && byte_in 129 129 c2 && byte_in 159 159 c3   (* U+205F *)
  || byte_in 227 227 c1 && byte_in 128 128 c2 && byte_in 128 128 c3   (* U+3000 *)
  || byte_in 239 239 c1 && byte_in 187 187 c2 && byte_in 191 191 c3.  (* U+FEFF *)

(** [\s*\(] at the start of [s]. *)
Fixpoint spaces_then_paren (s : jsstring) : bool :=
  match s with
  | [] => false
  | c1 :: s1 =>
      if (c1 =? "(")%char then true
      else if is_space1 c1 then spaces_then_paren s1
      else
        match s1 with
        | c2 :: s2 =>
            if is_space2 c1 c2 then spaces_then_paren s2
            else
              match s2 with
              | c3 :: s3 =>
                  if is_space3 c1 c2 c3 then spaces_then_paren s3 else false
              | [] => false
              end
        | [] => false
        end
  end.

(** [(createRoute|createDynamicRoute)\s*\(] at the start of [s]. *)
Definition creator_call_at (s : jsstring) : bool :=
  let after name :=
    startsWith name s && spaces_then_paren (skipn (length name) s) in
  after (lit "createRoute") || after (lit "createDynamicRoute").

(** [\w] *)
Definition is_word_char (c : ascii) : bool :=
  is_alnum c || (c =? "_")%char.

(** [/\b(createRoute|createDynamicRoute)\s*\(/.test(content)]: the call
    starts at a word boundary, that is, at the start of the text or after
    a character that is no word character. *)
Fixpoint creator_call_from (after_word : bool) (s : jsstring) : bool :=
  match s with
  | [] => false
  | c :: s' =>
      negb after_word && creator_call_at s
      || creator_call_from (is_word_char c) s'
  end.

(** [content] is what [fs.readFileSync(filePath, "utf-8")] returns. *)
Definition usesRouteCreator (content : jsstring) : bool :=
  creator_call_from false content.

(** The scanner's own copy of [extractParamKeys]. *)
Definition extractParamKeys (routePath : jsstring) : list jsstring :=
  match map PathBuilder.matched_text
          (hits (scan PathBuilder.placeholder_at routePath)) with
  | [] => []
  | matches => map slice_1_m1 matches
  end.

Section Walk.
(** [path.join] of Node. *)
Variable path_join : jsstring -> jsstring -> jsstring.
Variable excludePath : option (jsstring -> bool).

Definition route_of (entryPath : jsstring) (segments : list jsstring)
    : ScannedRoute :=
  let routePath := "/" :: join ["/"] segments in
  let params := extractParamKeys routePath in
  {| filePath := entryPath;
     routePath := routePath;
     params := params;
     isStatic := Nat.eqb (length params) 0 |}.

(** One turn of the loop of [walk(dir, segments)] over the entries of
    [dir]; the routes are returned in the order they are pushed. *)
Fixpoint walk_entry (dir : jsstring) (segments : list jsstring)
    (entry : dirent) : list ScannedRoute :=
  match entry with
  | DirEnt name entries =>
      let entryPath := path_join dir name in
      if startsWith ["_"] name then []
      else
        let currentPath := "/" :: join ["/"] (segments ++ [name]) in
        if match excludePath with
           | Some exclude => exclude currentPath
           | None => false
           end
        then []
        else flat_map (walk_entry entryPath (segments ++ [name])) entries
  | FileEnt name content =>
      let entryPath := path_join dir name in
      if bool_decide (name = lit "page.tsx")
         || bool_decide (name = lit "page.ts")
      then
        if negb (usesRouteCreator content) then []
        else [route_of entryPath segments]
      else []
  end.

Definition walk (dir : jsstring) (segments : list jsstring)
    (entries : list dirent) : list ScannedRoute :=
  flat_map (walk_entry dir segments) entries.

(** A directory that does not exist gives no route; reading something
    that is no directory fails. *)
Definition scanRoutes (fs : filesystem) (appDir : jsstring)
    : result (list ScannedRoute) :=
  match fs appDir with
  | None => Ok []
  | Some (IsFile _) => Throw ENOTDIR
  | Some (IsDir entries) => Ok (walk appDir [] entries)
  end.
End Walk.

(** [.replace(/[.*+?^${}()|[\]\\]/g, "\\$&").replace(/\//g, "\\/").replace(/\\\[([^\]]+)\\\]/g, "([^/]+)")] *)
Definition routePathToRegexString (routePath : jsstring) : jsstring :=
  let escaped := replace_chars is_syntax_char (fun c => ["\"; c]) routePath in
  let slashes := replace_chars (Ascii.eqb "/") (fun _ => ["\"; "/"]) escaped in
  let groups :=
    replace_by (fun _ => group_source)
      (scan PathBuilder.escaped_placeholder_at slashes) in
  "^" :: groups ++ ["$"].

End Scanner.

(** * codegen/generator.ts *)

Module Generator.
Import JS Scanner.

Record RouteCodegenConfig : Type := {
  appDir : option jsstring;
  outputDir : option jsstring;
  excludePath : option (jsstring -> bool);
  sortRoutes : option (ScannedRoute -> ScannedRoute -> Z)
}.

(** What the routes template is given for a route. *)
Record RouteInfo : Type := {
  info_routePath : jsstring;
  info_importPath : jsstring;
  info_params : list jsstring;
  info_isStatic : bool
}.

Definition newline : ascii := "010".

Definition endsWith (suffix s : jsstring) : bool :=
  startsWith (rev suffix) (rev s).

(** [filePath.replace(/\.(tsx?|jsx?)$/, "")] *)
Definition strip_extension (filePath : jsstring) : jsstring :=
  let strip suffix := firstn (length filePath - length suffix) filePath in
  if endsWith (lit ".tsx") filePath then strip (lit ".tsx")
  else if endsWith (lit ".ts") filePath then strip (lit ".ts")
  else if endsWith (lit ".jsx") filePath then strip (lit ".jsx")
  else if endsWith (lit ".js") filePath then strip (lit ".js")
  else filePath.

Definition toImportPath (filePath : jsstring) : jsstring :=
  let withoutExt := strip_extension filePath in
  if startsWith (lit "src/") withoutExt
  then lit "@/" ++ skipn 4 withoutExt
  else lit "@/" ++ withoutExt.

(** A string in double quotes. *)
Definition quoted (s : jsstring) : jsstring := "034" :: s ++ ["034"].

Definition href_line (routePath : jsstring) : jsstring :=
  lit "  | " ++ quoted routePath.

Definition param_line (k : jsstring) : jsstring :=
  lit "    " ++ quoted k ++ lit ": string;".

Definition params_entry (r : ScannedRoute) : jsstring :=
  let params := join [newline] (map param_line (params r)) in
  lit "  " ++ quoted (routePath r) ++ lit ": {" ++ [newline] ++ params
    ++ [newline] ++ lit "  };".

Definition pattern_entry (r : ScannedRoute) : jsstring :=
  let regexStr := routePathToRegexString (routePath r) in
  lit "  { pattern: /" ++ regexStr ++ lit "/, href: " ++ quoted (routePath r)
    ++ lit " as const }".

Definition route_info (r : ScannedRoute) : RouteInfo :=
  {| info_routePath := routePath r;
     info_importPath := toImportPath (filePath r);
     info_params := params r;
     info_isStatic := isStatic r |}.

Section Generate.
(** [path.join] and [Array.prototype.sort] of the host, and the two
    templates of [codegen/templates.ts]. *)
Variable path_join : jsstring -> jsstring -> jsstring.
Variable array_sort :
  (ScannedRoute -> ScannedRoute -> Z) -> list ScannedRoute -> list ScannedRoute.
Variable typesTemplate : jsstring -> jsstring -> jsstring -> jsstring.
Variable routesTemplate :
  jsstring -> list RouteInfo -> list RouteInfo -> jsstring.

Definition generateTypesFile (staticRoutes dynamicRoutes : list ScannedRoute)
    : jsstring :=
  let staticHrefUnion :=
    join [newline] (map (fun r => href_line (routePath r)) staticRoutes) in
  let dynamicHrefUnion :=
    join [newline] (map (fun r => href_line (routePath r)) dynamicRoutes) in
  let paramsMap := join [newline] (map params_entry dynamicRoutes) in
  typesTemplate staticHrefUnion dynamicHrefUnion paramsMap.

Definition generateRoutesFile (staticRoutes dynamicRoutes : list ScannedRoute)
    (appDir : jsstring) : jsstring :=
  let dynamicPatterns :=
    join ("," :: [newline]) (map pattern_entry dynamicRoutes) in
  routesTemplate dynamicPatterns
    (map route_info staticRoutes) (map route_info dynamicRoutes).

(** A run of the generator.  The files written are kept in [out], a
    store from path to content: [fs.writeFileSync] sets the content at
    a path.  The directories [fs.mkdirSync] creates and the lines
    printed on the console are not part of the store. *)
Definition generate (config : RouteCodegenConfig) (fs : filesystem)
    (out : gmap jsstring jsstring) : result (gmap jsstring jsstring) :=
  let appDir := default (lit "src/app") (appDir config) in
  let outputDir :=
    default (lit ".generated/next-typed-codegen-route") (outputDir config) in
  let* scanned := scanRoutes path_join (excludePath config) fs appDir in
  let routes :=
    match sortRoutes config with
    | Some compare => array_sort compare scanned
    | None => scanned
    end in
  let staticRoutes := List.filter isStatic routes in
  let dynamicRoutes := List.filter (fun r => negb (isStatic r)) routes in
  let typesContent := generateTypesFile staticRoutes dynamicRoutes in
  let routesContent := generateRoutesFile staticRoutes dynamicRoutes appDir in
  Ok (<[path_join outputDir (lit "routes.ts") := routesContent]>
        (<[path_join outputDir (lit "types.ts") := typesContent]> out)).
End Generate.

End Generator.

(** * Route patterns of the data model

    A route pattern is a string of segments separated by slashes; a
    segment is a literal or a placeholder [[name]], and a segment with a
    placeholder holds nothing else.  What the round trip of a path needs
    of it is that every placeholder closes its segment. *)

Module RoutePattern.
Import JS PathBuilder.

(** Every placeholder is followed by a slash or is the last token. *)
Fixpoint placeholders_close (ts : list (token jsstring)) : bool :=
  match ts with
  | [] => true
  | Lit _ :: ts' => placeholders_close ts'
  | Hit _ :: ts' =>
      match ts' with
      | [] => true
      | Lit c :: _ => (c =? "/")%char
      | Hit _ :: _ => false
      end
      && placeholders_close ts'
  end.

(** Every placeholder of the pattern is followed by a slash or by the end
    of the pattern. *)
Definition placeholders_end_segments (pattern : jsstring) : bool :=
  placeholders_close (scan placeholder_at pattern).

(** No placeholder is directly followed by another one. *)
Fixpoint no_touching (ts : list (token jsstring)) : bool :=
  match ts with
  | [] => true
  | Lit _ :: ts' => no_touching ts'
  | Hit _ :: ts' =>
      match ts' with
      | Hit _ :: _ => false
      | _ => true
      end
      && no_touching ts'
  end.

Definition placeholders_apart (pattern : jsstring) : bool :=
  no_touching (scan placeholder_at pattern).

End RoutePattern.

(** * An application tree

    The tree of the README: a page at the root, [/about], [/user/[id]],
    [/user/[id]/post/[postId]], and a private directory with a page. *)

Module Example.
Import JS Scanner.

(** [path.join] on a directory path and a name. *)
Definition path_join (dir name : jsstring) : jsstring := dir ++ "/" :: name.

Definition page : dirent :=
  FileEnt (lit "page.tsx") (lit "export default createRoute({ component: Page });").

Definition app : list dirent :=
  [ page;
    DirEnt (lit "about") [page];
    DirEnt (lit "user")
      [ DirEnt (lit "[id]")
          [ page;
            DirEnt (lit "post") [DirEnt (lit "[postId]") [page]];
            DirEnt (lit "_private") [page] ] ] ].

Definition fs : filesystem :=
  fun path => if bool_decide (path = lit "src/app") then Some (IsDir app) else None.


(** A stable sort by insertion, for [Array.prototype.sort]. *)
Fixpoint insert_sorted (compare : ScannedRoute -> ScannedRoute -> Z)
    (r : ScannedRoute) (l : list ScannedRoute) : list ScannedRoute :=
  match l with
  | [] => [r]
  | x :: l' =>
      if (0 <? compare x r)%Z then r :: l
      else x :: insert_sorted compare r l'
  end.

Definition array_sort (compare : ScannedRoute -> ScannedRoute -> Z)
    (l : list ScannedRoute) : list ScannedRoute :=
  fold_left (fun sorted r => insert_sorted compare r sorted) l [].

Definition typesTemplate (staticHrefUnion dynamicHrefUnion paramsMap : jsstring)
    : jsstring :=
  staticHrefUnion ++ [Generator.newline] ++ dynamicHrefUnion
    ++ [Generator.newline] ++ paramsMap.

Definition routesTemplate (dynamicPatterns : jsstring)
    (staticRoutes dynamicRoutes : list Generator.RouteInfo) : jsstring :=
  dynamicPatterns.

Definition config : Generator.RouteCodegenConfig :=
  {| Generator.appDir := None;
     Generator.outputDir := None;
     Generator.excludePath := None;
     Generator.sortRoutes := None |}.

End Example.

(** * Notions used in the proofs *)

Module Notions.
Import JS PathBuilder RoutePattern Scanner.

(** A match is never empty. *)
Definition consuming {M : Type} (match_at : jsstring -> option (M * jsstring))
    : Prop :=
  forall s m rest, match_at s = Some (m, rest) -> length rest < length s.

(** The unit a byte of a value becomes once encoded and unescaped. *)
Definition unit_of (c : ascii) : unit_ :=
  if is_unreserved c then Raw c else Octet c.

(** What a token of the pattern becomes in the regular expression. *)
Definition item (t : token jsstring) : ritem :=
  match t with
  | Lit c => RChar c
  | Hit _ => RGroup
  end.

Definition pattern_items (pattern : jsstring) : regexp :=
  map item (scan placeholder_at pattern).

(** An escaping step: a backslash before each character of a class. *)
Definition escape_with (esc : ascii -> bool) (s : jsstring) : jsstring :=
  replace_chars esc (fun c => ["\"; c]) s.

(** What a token of the pattern becomes in the escaped pattern. *)
Definition lift (esc : ascii -> bool) (t : token jsstring)
    : list (token jsstring) :=
  match t with
  | Lit c => if esc c then [Lit "\"; Lit c] else [Lit c]
  | Hit k => [Hit (escape_with esc k)]
  end.

Definition is_syntax_or_slash (c : ascii) : bool :=
  is_syntax_char c || (c =? "/")%char.

(** What follows the items of a segment: the end, or a slash. *)
Definition ends_segment (r : regexp) : Prop :=
  r = [] \/ exists r', r = RChar "/" :: r'.

Definition at_boundary (rest : jsstring) : Prop :=
  rest = [] \/ exists rest', rest = "/" :: rest'.

(** The first of a list of segments, with one more element in front. *)
Definition cons_head {A : Type} (x : A) (l : list (list A)) : list (list A) :=
  match l with
  | hd :: tl => (x :: hd) :: tl
  | [] => [[x]]
  end.

(** The items of an expression, cut at the slashes. *)
Fixpoint item_segments (r : regexp) : list regexp :=
  match r with
  | [] => [[]]
  | RChar c :: r' =>
      if (c =? "/")%char then [] :: item_segments r'
      else cons_head (RChar c) (item_segments r')
  | RGroup :: r' => cons_head RGroup (item_segments r')
  end.

(** The value of a key that is present. *)
Definition value_in (m : gmap jsstring jsstring) (key : jsstring) : jsstring :=
  default [] (m !! key).

(** The text read under a name that is there, of the object itself or
    inherited. *)
Definition text_in (m : gmap jsstring jsstring) (key : jsstring) : jsstring :=
  default [] (get_param m key).

(** [file_at entries segments name content]: below the directory with
    these entries, the directories [segments] lead to a file [name] with
    this content. *)
Inductive file_at
    : list dirent -> list jsstring -> jsstring -> jsstring -> Prop :=
  | file_here entries name content :
      In (FileEnt name content) entries ->
      file_at entries [] name content
  | file_below entries d sub segments name content :
      In (DirEnt d sub) entries ->
      file_at sub segments name content ->
      file_at entries (d :: segments) name content.

(** The traversal does not enter the directory [d] of the directory
    reached by [base]. *)
Definition skipped (excludePath : option (jsstring -> bool))
    (base : list jsstring) (d : jsstring) : bool :=
  startsWith ["_"] d
  || match excludePath with
     | Some exclude => exclude ("/" :: join ["/"] (base ++ [d]))
     | None => false
     end.

(** The traversal goes down the directories [segments] from [base]. *)
Fixpoint descends (excludePath : option (jsstring -> bool))
    (base segments : list jsstring) : bool :=
  match segments with
  | [] => true
  | d :: segments' =>
      negb (skipped excludePath base d)
      && descends excludePath (base ++ [d]) segments'
  end.

Definition is_route_page (name content : jsstring) : bool :=
  (bool_decide (name = lit "page.tsx") || bool_decide (name = lit "page.ts"))
  && usesRouteCreator content.

(** A route of a route page the traversal reaches. *)
Definition found (path_join : jsstring -> jsstring -> jsstring)
    (excludePath : option (jsstring -> bool))
    (dir : jsstring) (base : list jsstring)
    (entries : list dirent) (r : ScannedRoute) : Prop :=
  exists segments name content,
    file_at entries segments name content /\
    descends excludePath base segments = true /\
    is_route_page name content = true /\
    r = route_of (path_join (fold_left path_join segments dir) name)
          (base ++ segments).

End Notions.

(** * runtime/create-route.ts *)

Module CreateRoute.

(** Objects live in a heap and are named by references; a property holds
    a reference or a value that is no object.  Properties found along the
    prototype chain, accessors and frozen objects are outside the model. *)
Abbreviation loc := positive.

Inductive value : Type :=
  | Ref (l : loc)     (* an object, a function included *)
  | Primitive.        (* a string, a number, [null], [undefined], ... *)

Abbreviation object := (gmap jsstring value).
Abbreviation heap := (gmap loc object).

(** [o.key] *)
Definition get (h : heap) (o : loc) (key : jsstring) : option value :=
  match h !! o with
  | Some properties => properties !! key
  | None => None
  end.

(** [const RouteComponent = options.component; RouteComponent._routeConfig = options; return RouteComponent].
    Setting a property of [undefined] or of a primitive is a [TypeError]
    in module code, here [None]. *)
Definition createRoute (options : loc) (h : heap) : option (loc * heap) :=
  match get h options (lit "component") with
  | Some (Ref RouteComponent) =>
      match h !! RouteComponent with
      | Some properties =>
          Some (RouteComponent,
                <[RouteComponent :=
                    <[lit "_routeConfig" := Ref options]> properties]> h)
      | None => None
      end
  | _ => None
  end.

Definition createDynamicRoute (options : loc) (h : heap)
    : option (loc * heap) :=
  match get h options (lit "component") with
  | Some (Ref RouteComponent) =>
      match h !! RouteComponent with
      | Some properties =>
          Some (RouteComponent,
                <[RouteComponent :=
                    <[lit "_routeConfig" := Ref options]> properties]> h)
      | None => None
      end
  | _ => None
  end.

End CreateRoute.

(** * bin/cli.ts *)

Module Cli.
Import JS Scanner Generator.

Definition CONFIG_FILE_NAMES : list jsstring :=
  [ lit "route-codegen.config.ts";
    lit "route-codegen.config.js";
    lit "route-codegen.config.mjs" ].

(** The configuration [{}]. *)
Definition empty_config : RouteCodegenConfig :=
  {| appDir := None; outputDir := None; excludePath := None; sortRoutes := None |}.

(** What [await import(configPath)] resolves to, as far as [loadConfig]
    reads it: the exports [default] and [codegenConfig] when they are
    there and truthy, and the module itself read as a configuration. *)
Record config_module : Type := {
  module_default : option RouteCodegenConfig;
  module_codegenConfig : option RouteCodegenConfig;
  module_itself : RouteCodegenConfig
}.

(** What a run of [main] comes to. *)
Inductive outcome : Type :=
  | Help                                   (* [printHelp()] *)
  | Version                                (* [printVersion()] *)
  | Init                                   (* [await initConfig()] *)
  | Watch (config : RouteCodegenConfig)    (* [await watch(config)] *)
  | Generate (config : RouteCodegenConfig) (* [await generate(config)] *)
  | UnknownCommand (command : jsstring).   (* the error message, the help text, [process.exit(1)] *)

(** [args.includes(x)] *)
Definition includes (x : jsstring) (args : list jsstring) : bool :=
  existsb (fun a => bool_decide (a = x)) args.

(** [args.indexOf(x)]; [None] is [-1]. *)
Fixpoint indexOf (x : jsstring) (args : list jsstring) : option nat :=
  match args with
  | [] => None
  | a :: args' =>
      if bool_decide (a = x) then Some 0 else option_map S (indexOf x args')
  end.

(** A string that is there and not empty. *)
Definition truthy (v : option jsstring) : bool :=
  match v with
  | Some (_ :: _) => true
  | _ => false
  end.

(** [if (index !== -1 && args[index + 1]) cliOptions.name = args[index + 1]] *)
Definition option_value (name : jsstring) (args : list jsstring)
    : option jsstring :=
  match indexOf name args with
  | Some index =>
      if truthy (args !! (index + 1)) then args !! (index + 1) else None
  | None => None
  end.

(** [{ ...fileConfig, ...cliOptions }], where [cliOptions] has the
    properties [appDir] and [outputDir] when they were given. *)
Definition merge (fileConfig : RouteCodegenConfig)
    (cli_appDir cli_outputDir : option jsstring) : RouteCodegenConfig :=
  {| appDir :=
       match cli_appDir with
       | Some v => Some v
       | None => appDir fileConfig
       end;
     outputDir :=
       match cli_outputDir with
       | Some v => Some v
       | None => outputDir fileConfig
       end;
     excludePath := excludePath fileConfig;
     sortRoutes := sortRoutes fileConfig |}.

Section Main.
(** [path.join], [process.cwd()], [fs.existsSync] and the dynamic
    [import] of a configuration file, which gives a module or fails. *)
Variable path_join : jsstring -> jsstring -> jsstring.
Variable cwd : jsstring.
Variable existsSync : jsstring -> bool.
Variable import_module : jsstring -> option config_module.

(** The loop of [loadConfig] over the names that are left.  A file that
    fails to load is reported and the next name is tried. *)
Fixpoint loadConfig_from (names : list jsstring) : RouteCodegenConfig :=
  match names with
  | [] => empty_config
  | configFile :: names' =>
      let configPath := path_join cwd configFile in
      if existsSync configPath then
        match import_module configPath with
        | Some m =>
            match module_default m with
            | Some config => config
            | None =>
                match module_codegenConfig m with
                | Some config => config
                | None => module_itself m
                end
            end
        | None => loadConfig_from names'
        end
      else loadConfig_from names'
  end.

Definition loadConfig : RouteCodegenConfig :=
  loadConfig_from CONFIG_FILE_NAMES.

(** [args] is [process.argv.slice(2)]. *)
Definition main (args : list jsstring) : outcome :=
  let command :=
    if truthy (args !! 0) then default [] (args !! 0) else lit "generate" in
  if bool_decide (command = lit "help")
     || includes (lit "--help") args || includes (lit "-h") args
  then Help
  else if includes (lit "--version") args || includes (lit "-v") args
  then Version
  else if bool_decide (command = lit "init") then Init
  else if bool_decide (command = lit "generate")
          || bool_decide (command = lit "watch")
          || negb (truthy (args !! 0))
  then
    let config :=
      merge loadConfig
        (option_value (lit "--app-dir") args)
        (option_value (lit "--output") args) in
    if bool_decide (command = lit "watch") then Watch config
    else Generate config
  else UnknownCommand command.
End Main.

(** [for (const file of files) fs.writeFileSync(path_of(file), file.content)],
    a file being a name and a content. *)
Definition write_files (path_of : jsstring * jsstring -> jsstring)
    (files : list (jsstring * jsstring)) (store : gmap jsstring jsstring)
    : gmap jsstring jsstring :=
  fold_left (fun store file => <[path_of file := snd file]> store) files store.

Section Init.
(** [path.join], [process.cwd()] and the texts of the six templates of
    [codegen/templates.ts]. *)
Variable path_join : jsstring -> jsstring -> jsstring.
Variable cwd : jsstring.
Variable routeMetaTemplate createRouteTemplate typesInitTemplate : jsstring.
Variable routesInitTemplate utilsStaticTemplate indexInitTemplate : jsstring.

(** The lines of a text, each closed by a line feed. *)
Definition text_of (lines : list jsstring) : jsstring :=
  flat_map (fun line => line ++ [newline]) lines.

(** The configuration file [initConfig] writes. *)
Definition configContent (outputDir : jsstring) : jsstring :=
  text_of
    [ lit "import { createRouteConfig } from " ++ quoted (lit "./" ++ outputDir)
        ++ lit ";";
      [];
      lit "export default createRouteConfig({";
      lit "  // App directory path to scan";
      lit "  appDir: " ++ quoted (lit "src/app") ++ lit ",";
      [];
      lit "  // Output directory for generated files";
      lit "  outputDir: " ++ quoted outputDir ++ lit ",";
      [];
      lit "  // Path exclusion filter";
      lit "  excludePath: (path) => {";
      lit "    // Exclude: parallel routes @modal, route groups (group)";
      lit "    return /[@(]/.test(path);";
      lit "  },";
      [];
      lit "  // Route sorting (alphabetical by routePath)";
      lit "  sortRoutes: (a, b) => a.routePath.localeCompare(b.routePath),";
      lit "});" ].

(** The files of the working directory are a store from path to content,
    as for the generator; a path exists when the store has a file there.
    The directories [fs.mkdirSync] creates and the lines printed are not
    part of the store. *)
Definition initConfig (store : gmap jsstring jsstring)
    : gmap jsstring jsstring :=
  let outputDir := lit ".generated/next-typed-codegen-route" in
  let outputPath := path_join cwd outputDir in
  let files :=
    [ (lit "route-meta.ts", routeMetaTemplate);
      (lit "create-route.ts", createRouteTemplate);
      (lit "types.ts", typesInitTemplate);
      (lit "routes.ts", routesInitTemplate);
      (lit "utils.ts", utilsStaticTemplate);
      (lit "index.ts", indexInitTemplate) ] in
  let written :=
    write_files (fun file => path_join outputPath (fst file)) files store in
  let configPath := path_join cwd (lit "route-codegen.config.ts") in
  if bool_decide (is_Some (written !! configPath)) then written
  else <[configPath := configContent outputDir]> written.
End Init.

End Cli.

(** * Shapes of texts, for the statements *)

Module Shapes.
Import JS PathBuilder Scanner.

(** The path written from the tokens of a pattern, with the texts
    [groups] in the places of the placeholders, from left to right. *)
Fixpoint fill (ts : list (token jsstring)) (groups : list jsstring)
    : jsstring :=
  match ts with
  | [] => []
  | Lit c :: ts' => c :: fill ts' groups
  | Hit _ :: ts' =>
      match groups with
      | g :: groups' => g ++ fill ts' groups'
      | [] => fill ts' []
      end
  end.

(** What a token of a pattern is written as in the source of a regular
    expression: the group for a placeholder, the character otherwise,
    behind a backslash when it is of the class [esc]. *)
Definition render (esc : ascii -> bool) (t : token jsstring) : jsstring :=
  match t with
  | Lit c => if esc c then ["\"; c] else [c]
  | Hit _ => group_source
  end.

(** A run of white-space characters, each of one, two or three bytes. *)
Inductive white_space : jsstring -> Prop :=
  | white_space_nil : white_space []
  | white_space_1 c s :
      is_space1 c = true -> white_space s -> white_space (c :: s)
  | white_space_2 c1 c2 s :
      is_space2 c1 c2 = true -> white_space s -> white_space (c1 :: c2 :: s)
  | white_space_3 c1 c2 c3 s :
      is_space3 c1 c2 c3 = true -> white_space s ->
      white_space (c1 :: c2 :: c3 :: s).

(** The text ends in a character that is no word character, or is empty:
    a word that follows starts at a word boundary. *)
Definition ends_at_boundary (before : jsstring) : Prop :=
  before = [] \/ exists b c, before = b ++ [c] /\ is_word_char c = false.

(** The text holds a call of a route creator: one of the two names, at a
    word boundary, white space if any, and an opening parenthesis. *)
Definition calls_route_creator (content : jsstring) : Prop :=
  exists before name spaces after,
    content = before ++ name ++ spaces ++ "(" :: after /\
    (name = lit "createRoute" \/ name = lit "createDynamicRoute") /\
    white_space spaces /\ ends_at_boundary before.

(** The verdict of the exclusion predicate, when there is one. *)
Definition excludes (excludePath : option (jsstring -> bool))
    (path : jsstring) : bool :=
  match excludePath with
  | Some exclude => exclude path
  | None => false
  end.

(** The directory names, each behind a slash. *)
Definition below (segments : list jsstring) : jsstring :=
  flat_map (fun d => "/" :: d) segments.

End Shapes.

(** * The examples of the documentation, computed *)

Module Checks.
Import JS PathBuilder Scanner.

Example buildPath_documented :
  buildPath (lit "/service/karavan/cluster/[cluster-name]/topic/[topic-name]")
    (Some (<[ lit "cluster-name" := lit "production" ]>
             {[ lit "topic-name" := lit "events" ]}))
  = Ok (lit "/service/karavan/cluster/production/topic/events").
Proof. reflexivity. Qed.

Example buildPath_two_params :
  buildPath (lit "/user/[userId]/post/[postId]")
    (Some (<[ lit "userId" := lit "123" ]> {[ lit "postId" := lit "456" ]}))
  = Ok (lit "/user/123/post/456").
Proof. reflexivity. Qed.

Example buildPath_missing :
  buildPath (lit "/user/[id]") (Some ∅)
  = Throw (Error (lit "Missing param: id for route: /user/[id]")).
Proof. reflexivity. Qed.

Example buildPath_encodes :
  buildPath (lit "/search/[term]") (Some {[ lit "term" := lit "a b/c" ]})
  = Ok (lit "/search/a%20b%2Fc").
Proof. reflexivity. Qed.

Example extractParamKeys_documented :
  extractParamKeys
    (lit "/service/karavan/cluster/[cluster-name]/topic/[topic-name]")
  = [lit "cluster-name"; lit "topic-name"].
Proof. reflexivity. Qed.

Example isDynamicRoute_documented :
  isDynamicRoute (lit "/service/karavan/cluster/[cluster-name]") = true /\
  isDynamicRoute (lit "/service/karavan/topic") = false.
Proof. split; reflexivity. Qed.

Example routeToRegex_documented :
  routeToRegex_source
    (lit "/service/karavan/cluster/[cluster-name]/topic/[topic-name]")
  = lit "^/service/karavan/cluster/([^/]+)/topic/([^/]+)$".
Proof. reflexivity. Qed.

Example routeToRegex_escapes :
  routeToRegex_source (lit "/v1.0/[id]/(x)") = lit "^/v1\.0/([^/]+)/\(x\)$".
Proof. reflexivity. Qed.

Example matchRoute_documented :
  matchRoute (lit "/service/karavan/cluster/prod/topic/events")
    (lit "/service/karavan/cluster/[cluster-name]/topic/[topic-name]")
  = Ok (Some (<[ lit "cluster-name" := lit "prod" ]>
                {[ lit "topic-name" := lit "events" ]})).
Proof. reflexivity. Qed.

Example matchRoute_decodes :
  matchRoute (lit "/search/a%20b%2Fc") (lit "/search/[term]")
  = Ok (Some {[ lit "term" := lit "a b/c" ]}).
Proof. reflexivity. Qed.

Example matchRoute_malformed_escape :
  matchRoute (lit "/user/%") (lit "/user/[id]") = Throw URIError.
Proof. reflexivity. Qed.

Example matchRoute_prefix_is_no_match :
  matchRoute (lit "/user/123/post/456") (lit "/user/[id]") = Ok None.
Proof. reflexivity. Qed.

Example greedy_groups :
  exec [RChar "/"; RGroup; RGroup] (lit "/abc") = Some [lit "ab"; lit "c"].
Proof. reflexivity. Qed.

Example routePathToRegexString_example :
  routePathToRegexString (lit "/user/[id]/post/[postId]")
  = lit "^\/user\/([^/]+)\/post\/([^/]+)$".
Proof. reflexivity. Qed.

Example usesRouteCreator_examples :
  usesRouteCreator (lit "export default createRoute({ component: Page });") = true /\
  usesRouteCreator (lit "export default createDynamicRoute  ({});") = true /\
  usesRouteCreator (lit "const x = recreateRoute(1);") = false /\
  usesRouteCreator (lit "import { createRoute } from 'x';") = false.
Proof. repeat split; reflexivity. Qed.

(** The scan of the application tree: four routes, the private one left
    out. *)
Example scanRoutes_example :
  scanRoutes Example.path_join None Example.fs (lit "src/app")
  = Ok [ {| filePath := lit "src/app/page.tsx"; routePath := lit "/";
            params := []; isStatic := true |};
         {| filePath := lit "src/app/about/page.tsx"; routePath := lit "/about";
            params := []; isStatic := true |};
         {| filePath := lit "src/app/user/[id]/page.tsx";
            routePath := lit "/user/[id]";
            params := [lit "id"]; isStatic := false |};
         {| filePath := lit "src/app/user/[id]/post/[postId]/page.tsx";
            routePath := lit "/user/[id]/post/[postId]";
            params := [lit "id"; lit "postId"]; isStatic := false |} ].
Proof. reflexivity. Qed.

Example toImportPath_example :
  Generator.toImportPath (lit "src/app/user/[id]/page.tsx")
  = lit "@/app/user/[id]/page".
Proof. reflexivity. Qed.

(** Names that every object inherits. *)
Example buildPath_inherited_name :
  buildPath (lit "/[constructor]") (Some ∅)
  = Ok (lit "/function%20Object()%20%7B%20%5Bnative%20code%5D%20%7D").
Proof. reflexivity. Qed.

Example buildPath_inherited_then_missing :
  buildPath (lit "/[toString]/[id]") (Some ∅)
  = Throw (missing_param (lit "id") (lit "/[toString]/[id]")).
Proof. reflexivity. Qed.

Example buildPath_own_before_inherited :
  buildPath (lit "/[constructor]") (Some {[ lit "constructor" := lit "x" ]})
  = Ok (lit "/x").
Proof. reflexivity. Qed.

Example matchRoute_proto_name :
  matchRoute (lit "/x") (lit "/[__proto__]") = Ok (Some ∅).
Proof. reflexivity. Qed.

Example matchRoute_inherited_name :
  matchRoute (lit "/x") (lit "/[constructor]")
  = Ok (Some {[ lit "constructor" := lit "x" ]}).
Proof. reflexivity. Qed.

Example matchRoute_touching_placeholders :
  matchRoute (lit "/xyz") (lit "/[a][b]")
  = Ok (Some (<[ lit "a" := lit "xy" ]> {[ lit "b" := lit "z" ]})).
Proof. reflexivity. Qed.

End Checks.

(** * The command line and route creation, computed *)

Module CliChecks.
Import JS Generator Cli CreateRoute.

Example main_without_argument :
  main Example.path_join (lit "/work") (fun _ => false) (fun _ => None) []
  = Generate empty_config.
Proof. reflexivity. Qed.

Example main_help_flag_wins :
  main Example.path_join (lit "/work") (fun _ => false) (fun _ => None)
    [lit "generate"; lit "--app-dir"; lit "--help"]
  = Help.
Proof. reflexivity. Qed.

Example main_with_options :
  main Example.path_join (lit "/work") (fun _ => false) (fun _ => None)
    [lit "generate"; lit "--app-dir"; lit "app";
     lit "--output"; lit "src/generated/routes"]
  = Generate {| appDir := Some (lit "app");
                outputDir := Some (lit "src/generated/routes");
                excludePath := None;
                sortRoutes := None |}.
Proof. reflexivity. Qed.

Example main_option_without_value :
  main Example.path_join (lit "/work") (fun _ => false) (fun _ => None)
    [lit "watch"; lit "--output"]
  = Watch empty_config.
Proof. reflexivity. Qed.

(** A configuration file that fails to load is passed over. *)
Example loadConfig_falls_through :
  loadConfig Example.path_join (lit "/work") (fun _ => true)
    (fun path =>
       if bool_decide (path = lit "/work/route-codegen.config.js")
       then Some {| module_default :=
                      Some {| appDir := Some (lit "app"); outputDir := None;
                              excludePath := None; sortRoutes := None |};
                    module_codegenConfig := None;
                    module_itself := empty_config |}
       else None)
  = {| appDir := Some (lit "app"); outputDir := None;
       excludePath := None; sortRoutes := None |}.
Proof. reflexivity. Qed.

Example initConfig_in_a_fresh_directory :
  initConfig Example.path_join (lit "/work") (lit "meta") (lit "create")
    (lit "types") (lit "routes") (lit "utils") (lit "index") ∅
  = <[ lit "/work/route-codegen.config.ts"
       := configContent (lit ".generated/next-typed-codegen-route") ]>
      (<[ lit "/work/.generated/next-typed-codegen-route/index.ts" := lit "index" ]>
      (<[ lit "/work/.generated/next-typed-codegen-route/utils.ts" := lit "utils" ]>
      (<[ lit "/work/.generated/next-typed-codegen-route/routes.ts" := lit "routes" ]>
      (<[ lit "/work/.generated/next-typed-codegen-route/types.ts" := lit "types" ]>
      (<[ lit "/work/.generated/next-typed-codegen-route/create-route.ts" := lit "create" ]>
      ({[ lit "/work/.generated/next-typed-codegen-route/route-meta.ts" := lit "meta" ]})))))).
Proof. reflexivity. Qed.

Example configContent_lines :
  length (List.filter (Ascii.eqb newline)
            (configContent (lit ".generated/next-typed-codegen-route")))
  = 18.
Proof. reflexivity. Qed.

(** An options object without a component: a [TypeError]. *)
Example createRoute_without_component :
  createRoute 1%positive ({[ 1%positive := ∅ ]} : heap) = None.
Proof. reflexivity. Qed.

End CliChecks.

(** * Properties of the host-language primitives *)

Module JSFacts.
Import JS Notions.

Section ScanFacts.
Context {M : Type} (match_at : jsstring -> option (M * jsstring)).

Hypothesis match_consumes : consuming match_at.

Lemma scan_fuel_irrelevant (n : nat) :
  forall n' s, length s <= n -> length s <= n' ->
  scan_fuel match_at n s = scan_fuel match_at n' s.
Proof.
  induction n as [|n IH]; intros n' s Hn Hn'.
  - destruct s; simpl in *; [destruct n'; reflexivity | lia].
  - destruct s as [|c s']; [destruct n'; reflexivity|].
    destruct n' as [|n']; simpl in Hn, Hn'; [lia|]. simpl.
    destruct (match_at (c :: s')) as [[m rest]|] eqn:Hm.
    + apply match_consumes in Hm. simpl in Hm.
      f_equal. apply IH; lia.
    + f_equal. apply IH; lia.
Qed.

Lemma scan_fuel_enough (n : nat) (s : jsstring) :
  length s <= n -> scan_fuel match_at n s = scan match_at s.
Proof. intros. apply scan_fuel_irrelevant; lia. Qed.

Lemma scan_cons (c : ascii) (s : jsstring) :
  scan match_at (c :: s) =
  match match_at (c :: s) with
  | Some (m, rest) => Hit m :: scan match_at rest
  | None => Lit c :: scan match_at s
  end.
Proof.
  unfold scan at 1. simpl.
  destruct (match_at (c :: s)) as [[m rest]|] eqn:Hm.
  - apply match_consumes in Hm. simpl in Hm.
    rewrite scan_fuel_enough by lia. reflexivity.
  - reflexivity.
Qed.
End ScanFacts.

Lemma replace_with_total {M : Type} (f : M -> result jsstring)
    (g : M -> jsstring) (ts : list (token M)) :
  (forall m, In m (hits ts) -> f m = Ok (g m)) ->
  replace_with f ts = Ok (replace_by g ts).
Proof.
  induction ts as [|[c|m] ts IH]; intros H; simpl.
  - reflexivity.
  - rewrite IH by exact H. reflexivity.
  - rewrite (H m) by (simpl; auto). simpl.
    rewrite IH by (intros; apply H; simpl; auto). reflexivity.
Qed.

Lemma replace_with_ok {M : Type} (f : M -> result jsstring)
    (ts : list (token M)) (r : jsstring) :
  replace_with f ts = Ok r -> forall m, In m (hits ts) -> exists v, f m = Ok v.
Proof.
  revert r. induction ts as [|[c|m] ts IH]; intros r; simpl.
  - intros _ m [].
  - destruct (replace_with f ts) as [r'|e]; [|discriminate]. eauto.
  - destruct (f m) as [v|e] eqn:Hm; [|discriminate]. simpl.
    destruct (replace_with f ts) as [r'|e]; [|discriminate].
    intros _ m' [<-|Hin]; eauto.
Qed.


(** ** Percent-encoding and decoding *)

(** A property of bytes that holds of each of the 256 holds of all. *)
Lemma byte_cases (P : ascii -> bool) :
  forallb P (map ascii_of_nat (seq 0 256)) = true -> forall b, P b = true.
Proof.
  intros H b. rewrite forallb_forall in H. apply H.
  rewrite <- (ascii_nat_embedding b). apply in_map, in_seq.
  pose proof (nat_ascii_bounded b). lia.
Qed.

Lemma byte_in_spec (lo hi : N) (b : ascii) :
  byte_in lo hi b = true <-> (lo <= N_of_ascii b <= hi)%N.
Proof.
  unfold byte_in. rewrite andb_true_iff, !N.leb_le. reflexivity.
Qed.

Lemma byte_in_false (lo hi : N) (b : ascii) :
  byte_in lo hi b = false <-> (N_of_ascii b < lo \/ hi < N_of_ascii b)%N.
Proof.
  unfold byte_in. rewrite andb_false_iff, !N.leb_gt. reflexivity.
Qed.

Lemma hex_octet_digits (b : ascii) :
  hex_octet (hex_digit (N_of_ascii b / 16)) (hex_digit (N_of_ascii b mod 16))
  = Some b.
Proof.
  pose proof (byte_cases
    (fun b => match hex_octet (hex_digit (N_of_ascii b / 16))
                              (hex_digit (N_of_ascii b mod 16)) with
              | Some b' => Ascii.eqb b' b
              | None => false
              end)) as H.
  specialize (H eq_refl b). cbv beta in H.
  destruct (hex_octet _ _); [|discriminate].
  apply Ascii.eqb_eq in H. congruence.
Qed.

Lemma unreserved_is_plain (b : ascii) :
  is_unreserved b = true ->
  byte_in 0 127 b = true /\ b <> "%" /\ b <> "/".
Proof.
  pose proof (byte_cases
    (fun b => implb (is_unreserved b)
                (byte_in 0 127 b && negb (b =? "%")%char && negb (b =? "/")%char))
    eq_refl b) as H.
  cbv beta in H. intros Hu. rewrite Hu in H. cbn [implb] in H.
  apply andb_true_iff in H as [H H3]. apply andb_true_iff in H as [H1 H2].
  apply negb_true_iff, Ascii.eqb_neq in H2, H3. auto.
Qed.

Lemma percent_encode_no_slash (b : ascii) : ~ In "/" (percent_encode b).
Proof.
  pose proof (byte_cases
    (fun b => negb (existsb (Ascii.eqb "/") (percent_encode b))) eq_refl b) as H.
  cbv beta in H. apply negb_true_iff in H. intros Hin.
  assert (existsb (Ascii.eqb "/") (percent_encode b) = true) as Hex.
  { apply existsb_exists. exists "/". split; [exact Hin | apply Ascii.eqb_refl]. }
  congruence.
Qed.

Lemma encode_no_slash (v : jsstring) : ~ In "/" (encodeURIComponent v).
Proof.
  unfold encodeURIComponent. rewrite in_flat_map. intros (c & _ & Hc).
  destruct (is_unreserved c) eqn:Hu.
  - destruct Hc as [Hc|[]]. apply unreserved_is_plain in Hu. tauto.
  - exact (percent_encode_no_slash c Hc).
Qed.

Lemma encode_nonempty (v : jsstring) : v <> [] -> encodeURIComponent v <> [].
Proof.
  destruct v as [|c v]; [congruence|]. intros _. unfold encodeURIComponent.
  simpl. destruct (is_unreserved c); discriminate.
Qed.

Lemma unescape_encode (v : jsstring) :
  unescape (encodeURIComponent v) = Ok (map unit_of v).
Proof.
  induction v as [|c v IH]; [reflexivity|].
  unfold encodeURIComponent, unit_of in *. simpl.
  destruct (is_unreserved c) eqn:Hu.
  - apply unreserved_is_plain in Hu as (_ & Hp & _).
    apply Ascii.eqb_neq in Hp. simpl. rewrite Hp, IH. reflexivity.
  - simpl. rewrite hex_octet_digits, IH. reflexivity.
Qed.

Lemma unit_of_high (c : ascii) :
  byte_in 0 127 c = false -> unit_of c = Octet c.
Proof.
  intros H. unfold unit_of. destruct (is_unreserved c) eqn:Hu; [|reflexivity].
  apply unreserved_is_plain in Hu as (Hu & _). congruence.
Qed.

Lemma decode_units_low (c : ascii) (us : list unit_) :
  byte_in 0 127 c = true ->
  decode_units (unit_of c :: us) = let* r := decode_units us in Ok (c :: r).
Proof.
  intros H. unfold unit_of. destruct (is_unreserved c); simpl; [reflexivity|].
  rewrite H. reflexivity.
Qed.

Lemma decode_units_valid (n : nat) :
  forall v, length v <= n -> valid_utf8 v = true ->
  decode_units (map unit_of v) = Ok v.
Proof.
  induction n as [|n IH]; intros v Hn Hv.
  { destruct v; [reflexivity | simpl in Hn; lia]. }
  destruct v as [|b1 s1]; [reflexivity|].
  simpl in Hn. cbn [valid_utf8] in Hv.
  destruct (byte_in 0 127 b1) eqn:H1.
  { cbn [map]. rewrite decode_units_low, IH by (auto; lia). reflexivity. }
  destruct s1 as [|b2 s2]; [discriminate|]. simpl in Hn.
  pose proof H1 as H1'. apply byte_in_false in H1'.
  cbn [map]. rewrite (unit_of_high b1 H1).
  destruct (utf8_2 b1 b2) eqn:H2.
  { pose proof H2 as H2'. unfold utf8_2 in H2'.
    rewrite andb_true_iff, !byte_in_spec in H2'.
    rewrite (unit_of_high b2) by (apply byte_in_false; lia).
    cbn [decode_units]. rewrite H1.
    replace (byte_in 192 223 b1) with true by (symmetry; apply byte_in_spec; lia).
    rewrite H2, IH by (auto; lia). reflexivity. }
  destruct s2 as [|b3 s3]; [discriminate|]. simpl in Hn.
  destruct (utf8_3 b1 b2 b3) eqn:H3.
  { pose proof H3 as H3'. unfold utf8_3 in H3'.
    rewrite !andb_true_iff, !orb_true_iff, !andb_true_iff, !byte_in_spec in H3'.
    cbn [map].
    rewrite (unit_of_high b2), (unit_of_high b3) by (apply byte_in_false; lia).
    cbn [decode_units]. rewrite H1.
    replace (byte_in 192 223 b1) with false by (symmetry; apply byte_in_false; lia).
    replace (byte_in 224 239 b1) with true by (symmetry; apply byte_in_spec; lia).
    rewrite H3, IH by (auto; lia). reflexivity. }
  destruct s3 as [|b4 s4]; [discriminate|]. simpl in Hn.
  apply andb_true_iff in Hv as [H4 Hv].
  pose proof H4 as H4'. unfold utf8_4 in H4'.
  rewrite !andb_true_iff, !orb_true_iff, !andb_true_iff, !byte_in_spec in H4'.
  cbn [map].
  rewrite (unit_of_high b2), (unit_of_high b3), (unit_of_high b4)
    by (apply byte_in_false; lia).
  cbn [decode_units]. rewrite H1.
  replace (byte_in 192 223 b1) with false by (symmetry; apply byte_in_false; lia).
  replace (byte_in 224 239 b1) with false by (symmetry; apply byte_in_false; lia).
  replace (byte_in 240 247 b1) with true by (symmetry; apply byte_in_spec; lia).
  rewrite H4, IH by (auto; lia). reflexivity.
Qed.

(** Decoding undoes encoding on well-formed text. *)
Lemma decode_encode (v : jsstring) :
  valid_utf8 v = true -> decodeURIComponent (encodeURIComponent v) = Ok v.
Proof.
  intros Hv. unfold decodeURIComponent. rewrite unescape_encode. simpl.
  apply (decode_units_valid (length v)); auto.
Qed.

End JSFacts.

(** * Properties of the route-pattern functions *)

Module PatternFacts.
Import JS PathBuilder Notions JSFacts.

(** ** Placeholders *)

Lemma until_close_some (s k rest : jsstring) :
  until_close s = Some (k, rest) -> s = k ++ "]" :: rest /\ ~ In "]" k.
Proof.
  revert k rest. induction s as [|c s IH]; intros k rest; simpl; [discriminate|].
  destruct (Ascii.eqb_spec c "]") as [->|Hc].
  - intros [= <- <-]. split; [reflexivity | intros []].
  - destruct (until_close s) as [[k' rest']|]; [|discriminate].
    intros [= <- <-]. destruct (IH k' rest' eq_refl) as [-> Hk].
    split; [reflexivity|]. intros [H|H]; [congruence | contradiction].
Qed.

Lemma until_close_app (k rest : jsstring) :
  ~ In "]" k -> until_close (k ++ "]" :: rest) = Some (k, rest).
Proof.
  induction k as [|c k IH]; intros Hk; simpl.
  - reflexivity.
  - destruct (Ascii.eqb_spec c "]") as [->|Hc]; [destruct Hk; simpl; auto|].
    rewrite IH; [reflexivity|]. intros H. apply Hk. simpl; auto.
Qed.

Lemma until_close_none (s : jsstring) :
  until_close s = None <-> ~ In "]" s.
Proof.
  induction s as [|c s IH]; simpl.
  - split; [intros _ [] | reflexivity].
  - destruct (Ascii.eqb_spec c "]") as [->|Hc].
    + split; [discriminate | intros H; destruct H; auto].
    + destruct (until_close s) as [[k rest]|].
      * split; [discriminate|]. intros H.
        assert (~ In "]" s) as Hs by tauto. apply IH in Hs. discriminate.
      * split; [|reflexivity]. intros _ [H|H]; [congruence|].
        apply IH in H; auto.
Qed.

Lemma placeholder_at_some (s k rest : jsstring) :
  placeholder_at s = Some (k, rest) <->
  s = "[" :: k ++ "]" :: rest /\ k <> [] /\ ~ In "]" k.
Proof.
  split.
  - destruct s as [|c s]; simpl; [discriminate|].
    destruct (Ascii.eqb_spec c "[") as [->|Hc]; [|discriminate].
    destruct (until_close s) as [[[|c1 k'] rest']|] eqn:Hu; try discriminate.
    intros [= <- <-]. apply until_close_some in Hu as [-> Hk].
    repeat split; [discriminate | exact Hk].
  - intros (-> & Hk & Hc). simpl. rewrite until_close_app by exact Hc.
    destruct k; [congruence | reflexivity].
Qed.

Lemma placeholder_at_consuming : consuming placeholder_at.
Proof.
  intros s k rest H. apply placeholder_at_some in H as (-> & _ & _).
  simpl. rewrite length_app. simpl. lia.
Qed.

Lemma placeholder_at_other (c : ascii) (s : jsstring) :
  c <> "[" -> placeholder_at (c :: s) = None.
Proof.
  intros Hc. simpl. destruct (Ascii.eqb_spec c "["); [contradiction | reflexivity].
Qed.

Lemma escaped_placeholder_at_consuming : consuming escaped_placeholder_at.
Proof.
  intros s k rest. unfold escaped_placeholder_at.
  destruct s as [|c1 [|c2 t]]; try discriminate.
  destruct ((c1 =? "\")%char && (c2 =? "[")%char); [|discriminate].
  destruct (until_close t) as [[run rest']|] eqn:Hu; [|discriminate].
  destruct ((2 <=? length run)%nat && (List.last run "x" =? "\")%char);
    [|discriminate].
  intros [= <- <-]. apply until_close_some in Hu as [-> _].
  simpl. rewrite length_app. simpl. lia.
Qed.

Lemma scan_placeholder_cons (c : ascii) (s : jsstring) :
  scan placeholder_at (c :: s) =
  match placeholder_at (c :: s) with
  | Some (k, rest) => Hit k :: scan placeholder_at rest
  | None => Lit c :: scan placeholder_at s
  end.
Proof. apply scan_cons, placeholder_at_consuming. Qed.

(** Characters other than ["["] are copied. *)
Lemma scan_literal (l s : jsstring) :
  ~ In "[" l ->
  scan placeholder_at (l ++ s) = map Lit l ++ scan placeholder_at s.
Proof.
  induction l as [|c l IH]; intros Hl; [reflexivity|].
  simpl app. rewrite scan_placeholder_cons, placeholder_at_other.
  - simpl. rewrite IH; [reflexivity|]. intros H. apply Hl; simpl; auto.
  - intros ->. apply Hl; simpl; auto.
Qed.

(** A bracketed, non-empty run of characters other than ["]"] is a match. *)
Lemma scan_placeholder (k s : jsstring) :
  k <> [] -> ~ In "]" k ->
  scan placeholder_at ("[" :: k ++ "]" :: s) = Hit k :: scan placeholder_at s.
Proof.
  intros Hk Hc. rewrite scan_placeholder_cons.
  assert (placeholder_at ("[" :: k ++ "]" :: s) = Some (k, s)) as ->.
  { apply placeholder_at_some. auto. }
  reflexivity.
Qed.

Lemma scan_no_close (s : jsstring) :
  ~ In "]" s -> scan placeholder_at s = map Lit s.
Proof.
  induction s as [|c s IH]; intros Hs; [reflexivity|].
  assert (~ In "]" s) as Hs' by (intros H; apply Hs; simpl; auto).
  rewrite scan_placeholder_cons.
  assert (placeholder_at (c :: s) = None) as ->.
  { simpl. destruct (c =? "[")%char; [|reflexivity].
    apply until_close_none in Hs'. rewrite Hs'. reflexivity. }
  rewrite IH by exact Hs'. reflexivity.
Qed.

Lemma scan_empty_brackets (s : jsstring) :
  scan placeholder_at ("[" :: "]" :: s)
  = Lit "[" :: Lit "]" :: scan placeholder_at s.
Proof.
  rewrite scan_placeholder_cons.
  change (placeholder_at ("[" :: "]" :: s)) with (@None (jsstring * jsstring)).
  rewrite scan_placeholder_cons, placeholder_at_other by discriminate.
  reflexivity.
Qed.

Lemma slice_matched_text (k : jsstring) : slice_1_m1 (matched_text k) = k.
Proof.
  unfold slice_1_m1, matched_text. simpl. apply removelast_last.
Qed.

Lemma extractParamKeys_hits (route : jsstring) :
  extractParamKeys route = hits (scan placeholder_at route).
Proof.
  unfold extractParamKeys.
  destruct (hits (scan placeholder_at route)) as [|k ks]; [reflexivity|].
  cbn [map]. rewrite slice_matched_text. f_equal.
  induction ks as [|k' ks IH]; [reflexivity|].
  cbn [map]. rewrite slice_matched_text, IH. reflexivity.
Qed.

(** The text is its tokens written back. *)
Lemma scan_placeholder_text (n : nat) :
  forall s, length s <= n ->
  replace_by matched_text (scan placeholder_at s) = s.
Proof.
  induction n as [|n IH]; intros s Hn.
  { destruct s; [reflexivity | simpl in Hn; lia]. }
  destruct s as [|c s]; [reflexivity|].
  rewrite scan_placeholder_cons.
  destruct (placeholder_at (c :: s)) as [[k rest]|] eqn:Hp.
  - pose proof (placeholder_at_consuming _ _ _ Hp) as Hlen.
    apply placeholder_at_some in Hp as (Hs & _ & _).
    simpl in *. rewrite IH by lia. rewrite Hs. unfold matched_text.
    simpl. rewrite <- app_assoc. reflexivity.
  - simpl in *. rewrite IH by lia. reflexivity.
Qed.

(** ** The regular expression of a pattern *)

Lemma parse_body_group (s : jsstring) :
  parse_body (group_source ++ s) = option_map (cons RGroup) (parse_body s).
Proof. reflexivity. Qed.

Section Escaping.
(** The characters an escaping step puts a backslash before: the syntax
    characters and possibly the slash. *)
Variable esc : ascii -> bool.
Hypothesis esc_syntax : forall c, is_syntax_char c = true -> esc c = true.
Hypothesis esc_only :
  forall c, esc c = true -> is_syntax_char c || (c =? "/")%char = true.

Lemma escape_with_cons (c : ascii) (s : jsstring) :
  escape_with esc (c :: s) =
  (if esc c then ["\"; c] else [c]) ++ escape_with esc s.
Proof. reflexivity. Qed.

Lemma escape_with_app (s t : jsstring) :
  escape_with esc (s ++ t) = escape_with esc s ++ escape_with esc t.
Proof. apply flat_map_app. Qed.

Lemma escape_with_no_close (s : jsstring) :
  ~ In "]" s -> ~ In "]" (escape_with esc s).
Proof.
  intros Hs H. apply in_flat_map in H as (c & Hc & H).
  destruct (esc c); simpl in H.
  - destruct H as [H|[H|[]]]; [discriminate | congruence].
  - destruct H as [H|[]]; congruence.
Qed.

Lemma escape_with_head (s t : jsstring) : escape_with esc s <> "[" :: t.
Proof.
  destruct s as [|c s]; [discriminate|]. rewrite escape_with_cons.
  destruct (esc c) eqn:Hc; simpl; [discriminate|].
  intros [= -> _]. rewrite esc_syntax in Hc by reflexivity. discriminate.
Qed.

Lemma escaped_placeholder_at_escaped (k rest : jsstring) :
  k <> [] -> ~ In "]" k ->
  escaped_placeholder_at (escape_with esc ("[" :: k ++ "]" :: rest))
  = Some (escape_with esc k, escape_with esc rest).
Proof.
  intros Hk Hc.
  rewrite escape_with_cons, escape_with_app, escape_with_cons.
  rewrite !esc_syntax by reflexivity. simpl app.
  unfold escaped_placeholder_at.
  replace (escape_with esc k ++ "\" :: "]" :: escape_with esc rest)
    with ((escape_with esc k ++ ["\"]) ++ "]" :: escape_with esc rest)
    by (rewrite <- app_assoc; reflexivity).
  cbn [Ascii.eqb Bool.eqb andb].
  rewrite until_close_app.
  - rewrite last_last, removelast_last, length_app. simpl length.
    assert (length (escape_with esc k) <> 0) as Hlen.
    { destruct k as [|c k]; [congruence|]. rewrite escape_with_cons.
      destruct (esc c); simpl; lia. }
    destruct (length (escape_with esc k)) as [|n]; [congruence|].
    replace (S n + 1) with (S (S n)) by lia. reflexivity.
  - intros H. apply in_app_or in H as [H|[H|[]]]; [|discriminate].
    exact (escape_with_no_close k Hc H).
Qed.

(** Where the pattern has no placeholder, the escaped bracket is none
    either. *)
Lemma escaped_placeholder_at_open (s : jsstring) :
  placeholder_at ("[" :: s) = None ->
  escaped_placeholder_at ("\" :: "[" :: escape_with esc s) = None.
Proof.
  intros Hp. unfold escaped_placeholder_at. cbn [Ascii.eqb Bool.eqb andb].
  simpl in Hp. destruct (until_close s) as [[[|c1 k] rest]|] eqn:Hu.
  - apply until_close_some in Hu as [-> _]. simpl app.
    rewrite escape_with_cons, esc_syntax by reflexivity. reflexivity.
  - discriminate.
  - apply until_close_none in Hu.
    apply escape_with_no_close, until_close_none in Hu. rewrite Hu.
    reflexivity.
Qed.

Lemma escaped_placeholder_at_plain (c : ascii) (s : jsstring) :
  c <> "\" -> escaped_placeholder_at (c :: s) = None.
Proof.
  intros Hc. unfold escaped_placeholder_at. destruct s; [reflexivity|].
  apply Ascii.eqb_neq in Hc. rewrite Hc. reflexivity.
Qed.

Lemma escaped_placeholder_at_second (c : ascii) (s : jsstring) :
  escaped_placeholder_at (c :: escape_with esc s) = None.
Proof.
  unfold escaped_placeholder_at.
  destruct (escape_with esc s) as [|d t] eqn:Hs; [reflexivity|].
  destruct (Ascii.eqb_spec d "[") as [->|Hd].
  - exfalso. exact (escape_with_head _ _ Hs).
  - rewrite andb_false_r. reflexivity.
Qed.

Lemma escaped_placeholder_at_other (c : ascii) (s : jsstring) :
  c <> "[" -> escaped_placeholder_at ("\" :: c :: s) = None.
Proof.
  intros Hc. unfold escaped_placeholder_at.
  apply Ascii.eqb_neq in Hc. rewrite Hc, andb_false_r. reflexivity.
Qed.

(** The placeholders found in the escaped pattern are those of the
    pattern, in the same places. *)
Lemma scan_escaped (n : nat) :
  forall s, length s <= n ->
  scan escaped_placeholder_at (escape_with esc s)
  = flat_map (lift esc) (scan placeholder_at s).
Proof.
  induction n as [|n IH]; intros s Hn.
  { destruct s; [reflexivity | simpl in Hn; lia]. }
  destruct s as [|c s]; [reflexivity|].
  rewrite scan_placeholder_cons.
  destruct (placeholder_at (c :: s)) as [[k rest]|] eqn:Hp.
  - pose proof (placeholder_at_consuming _ _ _ Hp) as Hlen.
    apply placeholder_at_some in Hp as (Hs & Hk & Hc). rewrite Hs.
    pose proof (escaped_placeholder_at_escaped k rest Hk Hc) as He.
    destruct (escape_with esc ("[" :: k ++ "]" :: rest)) as [|e es] eqn:Hes;
      [discriminate|].
    rewrite (scan_cons _ escaped_placeholder_at_consuming), He.
    simpl in *. rewrite IH by lia. reflexivity.
  - simpl in Hn. cbn [flat_map lift]. rewrite escape_with_cons.
    destruct (esc c) eqn:Hesc.
    + simpl app.
      rewrite (scan_cons _ escaped_placeholder_at_consuming).
      assert (escaped_placeholder_at ("\" :: c :: escape_with esc s) = None)
        as ->.
      { destruct (Ascii.eqb_spec c "[") as [->|Hc].
        - apply escaped_placeholder_at_open, Hp.
        - apply escaped_placeholder_at_other, Hc. }
      rewrite (scan_cons _ escaped_placeholder_at_consuming).
      rewrite escaped_placeholder_at_second, IH by lia. reflexivity.
    + simpl app.
      rewrite (scan_cons _ escaped_placeholder_at_consuming).
      rewrite escaped_placeholder_at_plain.
      * rewrite IH by lia. reflexivity.
      * intros ->. rewrite esc_syntax in Hesc by reflexivity. discriminate.
Qed.

(** The source built from the tokens compiles to their items. *)
Lemma parse_body_tokens (ts : list (token jsstring)) :
  parse_body (replace_by (fun _ => group_source) (flat_map (lift esc) ts) ++ ["$"])
  = Some (map item ts).
Proof.
  induction ts as [|[c|k] ts IH]; [reflexivity| |].
  - cbn [flat_map lift map item]. destruct (esc c) eqn:Hesc.
    + cbn [app replace_by parse_body Ascii.eqb Bool.eqb andb].
      rewrite (esc_only c Hesc), IH. reflexivity.
    + cbn [app replace_by parse_body].
      assert (is_syntax_char c = false) as Hs.
      { destruct (is_syntax_char c) eqn:Hs; [|reflexivity].
        rewrite esc_syntax in Hesc by exact Hs. discriminate. }
      assert ((c =? "\")%char = false) as ->.
      { apply Ascii.eqb_neq. intros ->. discriminate. }
      assert ((c =? "$")%char = false) as ->.
      { apply Ascii.eqb_neq. intros ->. discriminate. }
      assert ((c =? "(")%char = false) as ->.
      { apply Ascii.eqb_neq. intros ->. discriminate. }
      rewrite Hs, IH. reflexivity.
  - cbn [flat_map lift map item app replace_by].
    rewrite <- app_assoc, parse_body_group, IH. reflexivity.
Qed.

Lemma RegExp_escaped (pattern : jsstring) :
  RegExp ("^" :: replace_by (fun _ => group_source)
                   (scan escaped_placeholder_at (escape_with esc pattern))
              ++ ["$"])
  = Ok (pattern_items pattern).
Proof.
  unfold RegExp. rewrite (scan_escaped (length pattern)) by lia.
  rewrite parse_body_tokens. reflexivity.
Qed.
End Escaping.

(** The expression [routeToRegex] builds always compiles, to the items of
    the pattern. *)
Lemma routeToRegex_items (pattern : jsstring) :
  routeToRegex pattern = Ok (pattern_items pattern).
Proof.
  unfold routeToRegex, routeToRegex_source, escape_syntax_chars.
  apply (RegExp_escaped is_syntax_char).
  - auto.
  - intros c ->. reflexivity.
Qed.

Lemma escape_then_slashes (s : jsstring) :
  replace_chars (Ascii.eqb "/") (fun _ => ["\"; "/"])
    (replace_chars is_syntax_char (fun c => ["\"; c]) s)
  = escape_with is_syntax_or_slash s.
Proof.
  unfold escape_with, replace_chars, is_syntax_or_slash.
  induction s as [|c s IH]; [reflexivity|].
  cbn [flat_map]. rewrite flat_map_app, IH. f_equal.
  destruct (is_syntax_char c) eqn:Hs; cbn [orb flat_map app].
  - assert (("/" =? c)%char = false) as ->; [|reflexivity].
    apply Ascii.eqb_neq. intros <-. discriminate.
  - rewrite Ascii.eqb_sym. destruct (Ascii.eqb_spec c "/") as [->|]; reflexivity.
Qed.

(** So does the source [routePathToRegexString] builds. *)
Lemma routePathToRegexString_items (pattern : jsstring) :
  RegExp (Scanner.routePathToRegexString pattern) = Ok (pattern_items pattern).
Proof.
  unfold Scanner.routePathToRegexString. rewrite escape_then_slashes.
  apply (RegExp_escaped is_syntax_or_slash).
  - intros c H. unfold is_syntax_or_slash. rewrite H. reflexivity.
  - auto.
Qed.

End PatternFacts.

(** * Matching a path against a pattern *)

Module MatchFacts.
Import JS PathBuilder RoutePattern Notions JSFacts PatternFacts.

(** ** Segments *)

Lemma split_slash_nonempty (s : jsstring) : split_slash s <> [].
Proof.
  destruct s as [|c s]; simpl; [discriminate|].
  destruct (c =? "/")%char; [discriminate|].
  destruct (split_slash s); discriminate.
Qed.

(** ** A group before a segment boundary *)

Lemma exec_inside_segment (r : regexp) (c : ascii) (s : jsstring) :
  ends_segment r -> c <> "/" -> exec_from r (c :: s) = None.
Proof.
  intros [->|[r' ->]] Hc; [reflexivity|]. cbn [exec_from].
  destruct (Ascii.eqb_spec "/" c); [congruence | reflexivity].
Qed.

Lemma exec_group_cons (r : regexp) (c : ascii) (s : jsstring) :
  exec_from (RGroup :: r) (c :: s) =
  if (c =? "/")%char then None
  else
    match exec_from (RGroup :: r) s with
    | Some (g :: gs) => Some ((c :: g) :: gs)
    | _ =>
        match exec_from r s with
        | Some gs => Some ([c] :: gs)
        | None => None
        end
    end.
Proof. reflexivity. Qed.

(** A group before a segment boundary captures the whole segment. *)
Lemma exec_group (r : regexp) (seg rest : jsstring) :
  ends_segment r -> ~ In "/" seg -> at_boundary rest ->
  exec_from (RGroup :: r) (seg ++ rest) =
  match seg with
  | [] => None
  | _ => option_map (cons seg) (exec_from r rest)
  end.
Proof.
  intros Hr Hseg Hrest. induction seg as [|c seg IH].
  - destruct Hrest as [->|[rest' ->]]; reflexivity.
  - assert (c <> "/") as Hc by (intros ->; apply Hseg; simpl; auto).
    assert (~ In "/" seg) as Hseg' by (intros H; apply Hseg; simpl; auto).
    simpl app. rewrite exec_group_cons.
    apply Ascii.eqb_neq in Hc as Hc'. rewrite Hc'.
    rewrite IH by exact Hseg'. destruct seg as [|c' seg].
    + simpl app. destruct (exec_from r rest); reflexivity.
    + destruct (exec_from r rest) as [gs|]; [reflexivity|].
      cbn [option_map]. simpl app. rewrite exec_inside_segment; auto.
      intros ->. apply Hseg'. simpl; auto.
Qed.

(** ** What a match says about the segments, for any pattern *)

Lemma exec_group_some (r : regexp) (s : jsstring) (gs : list jsstring) :
  exec_from (RGroup :: r) s = Some gs ->
  exists g gs' rest,
    s = g ++ rest /\ g <> [] /\ ~ In "/" g /\
    exec_from r rest = Some gs' /\ gs = g :: gs'.
Proof.
  revert gs. induction s as [|c s IH]; intros gs; [discriminate|].
  rewrite exec_group_cons.
  destruct (Ascii.eqb_spec c "/") as [->|Hc]; [discriminate|].
  destruct (exec_from (RGroup :: r) s) as [[|g gs0]|] eqn:Hg.
  - destruct (IH [] eq_refl) as (g & gs' & rest & _ & _ & _ & _ & H).
    discriminate.
  - intros [= <-].
    destruct (IH (g :: gs0) eq_refl)
      as (g1 & gs1 & rest & -> & Hne & Hsl & Hr & [= -> ->]).
    exists (c :: g1), gs1, rest.
    split; [reflexivity|]. split; [discriminate|]. split; [|auto].
    intros [H|H]; [congruence | contradiction].
  - destruct (exec_from r s) as [gs0|] eqn:Hr; [|discriminate].
    intros [= <-]. exists [c], gs0, s.
    split; [reflexivity|]. split; [discriminate|]. split; [|auto].
    intros [H|[]]. congruence.
Qed.

Lemma split_slash_cons (c : ascii) (s : jsstring) :
  c <> "/" -> split_slash (c :: s) = cons_head c (split_slash s).
Proof.
  intros Hc. simpl. destruct (Ascii.eqb_spec c "/"); [contradiction|].
  reflexivity.
Qed.

Lemma split_slash_prepend (w s : jsstring) :
  ~ In "/" w ->
  split_slash (w ++ s) = fold_right cons_head (split_slash s) w.
Proof.
  induction w as [|c w IH]; intros Hw; [reflexivity|].
  simpl app. rewrite split_slash_cons by (intros ->; apply Hw; simpl; auto).
  rewrite IH by (intros H; apply Hw; simpl; auto). reflexivity.
Qed.

Lemma item_segments_nonempty (r : regexp) : item_segments r <> [].
Proof.
  induction r as [|[c|] r IH]; simpl; try discriminate.
  - destruct (c =? "/")%char; [discriminate|].
    destruct (item_segments r); discriminate.
  - destruct (item_segments r); discriminate.
Qed.

(** Text without a slash in front of a string goes to its first segment. *)
Lemma split_slash_prepend_head (w s : jsstring) :
  ~ In "/" w ->
  exists hd tl, split_slash s = hd :: tl /\
                split_slash (w ++ s) = (w ++ hd) :: tl.
Proof.
  intros Hw. destruct (split_slash s) as [|hd tl] eqn:Hs;
    [exfalso; exact (split_slash_nonempty _ Hs)|].
  exists hd, tl. split; [reflexivity|].
  rewrite split_slash_prepend, Hs by exact Hw. clear Hw Hs.
  induction w as [|c w IH]; [reflexivity|]. simpl. rewrite IH. reflexivity.
Qed.

(** A path that matches has the segments of the expression: as many, and
    equal to those made of characters only. *)
Lemma exec_segments_sound (r : regexp) :
  forall s gs, exec_from r s = Some gs ->
  length (split_slash s) = length (item_segments r) /\
  forall i l, item_segments r !! i = Some (map RChar l) ->
              split_slash s !! i = Some l.
Proof.
  induction r as [|[c|] r IH]; intros s gs Hexec.
  - destruct s; [|discriminate]. split; [reflexivity|].
    intros [|i] l H; simpl in H; [|discriminate].
    injection H as H. destruct l; [reflexivity | discriminate].
  - cbn [exec_from] in Hexec. destruct s as [|c' s]; [discriminate|].
    destruct (Ascii.eqb_spec c c') as [<-|]; [|discriminate].
    destruct (IH s gs Hexec) as [Hlen Hseg]. cbn [item_segments].
    destruct (Ascii.eqb_spec c "/") as [->|Hc].
    + simpl. split; [congruence|].
      intros [|i] l H; simpl in H |- *.
      * injection H as H. destruct l; [reflexivity | discriminate].
      * auto.
    + rewrite split_slash_cons by exact Hc.
      destruct (item_segments r) as [|rhd rtl] eqn:Hr;
        [exfalso; exact (item_segments_nonempty _ Hr)|].
      destruct (split_slash s) as [|hd tl] eqn:Hs;
        [exfalso; exact (split_slash_nonempty _ Hs)|].
      simpl in *. split; [exact Hlen|].
      intros [|i] l H; simpl in H |- *.
      * injection H as H. destruct l as [|a l]; [discriminate|].
        injection H as <- H. specialize (Hseg 0 l). simpl in Hseg.
        rewrite H in Hseg. specialize (Hseg eq_refl). congruence.
      * apply (Hseg (S i)). exact H.
  - apply exec_group_some in Hexec
      as (g & gs' & rest & -> & Hne & Hsl & Hexec & _).
    destruct (IH rest gs' Hexec) as [Hlen Hseg]. cbn [item_segments].
    destruct (split_slash_prepend_head g rest Hsl) as (hd & tl & Hs & ->).
    rewrite Hs in Hlen, Hseg.
    destruct (item_segments r) as [|rhd rtl] eqn:Hr;
      [exfalso; exact (item_segments_nonempty _ Hr)|].
    simpl in *. split; [exact Hlen|].
    intros [|i] l H; simpl in H |- *.
    + injection H as H. destruct l; discriminate.
    + apply (Hseg (S i)). exact H.
Qed.

(** The placeholders a scan finds are well-formed. *)
Lemma scan_hits_well_formed (n : nat) :
  forall s k, length s <= n -> In k (hits (scan placeholder_at s)) ->
  k <> [] /\ ~ In "]" k.
Proof.
  induction n as [|n IH]; intros s k Hn.
  { destruct s; [intros [] | simpl in Hn; lia]. }
  destruct s as [|c s]; [intros []|].
  rewrite scan_placeholder_cons.
  destruct (placeholder_at (c :: s)) as [[k' rest]|] eqn:Hp.
  - pose proof (placeholder_at_consuming _ _ _ Hp) as Hlen.
    apply placeholder_at_some in Hp as (_ & Hk1 & Hk2).
    simpl in Hn, Hlen. intros [<-|Hin]; [auto|].
    apply (IH rest); [lia | exact Hin].
  - simpl in Hn. simpl. apply IH. lia.
Qed.

Lemma no_keys_cons (c : ascii) (s : jsstring) :
  extractParamKeys (c :: s) = [] ->
  extractParamKeys s = [] /\ scan placeholder_at (c :: s) = Lit c :: scan placeholder_at s.
Proof.
  rewrite !extractParamKeys_hits, scan_placeholder_cons.
  destruct (placeholder_at (c :: s)) as [[k rest]|]; [discriminate|].
  auto.
Qed.

(** The segments of the expression of a pattern are the segments of the
    pattern, when no placeholder holds a slash. *)
Lemma pattern_item_segments (ts : list (token jsstring)) :
  (forall k, In k (hits ts) -> k <> [] /\ ~ In "]" k /\ ~ In "/" k) ->
  length (item_segments (map item ts))
  = length (split_slash (replace_by matched_text ts)) /\
  forall i seg,
    split_slash (replace_by matched_text ts) !! i = Some seg ->
    extractParamKeys seg = [] ->
    item_segments (map item ts) !! i = Some (map RChar seg).
Proof.
  induction ts as [|[c|k] ts IH]; intros Hk.
  - split; [reflexivity|]. intros [|i] seg H _; simpl in H; [|discriminate].
    injection H as <-. reflexivity.
  - destruct (IH Hk) as [Hlen Hseg]. cbn [map item replace_by item_segments].
    destruct (Ascii.eqb_spec c "/") as [->|Hc].
    + cbn [split_slash Ascii.eqb Bool.eqb andb]. simpl length.
      split; [congruence|].
      intros [|i] seg H Hkeys; simpl in H |- *.
      * injection H as <-. reflexivity.
      * auto.
    + rewrite split_slash_cons by exact Hc.
      destruct (item_segments (map item ts)) as [|rhd rtl] eqn:Hr;
        [exfalso; exact (item_segments_nonempty _ Hr)|].
      destruct (split_slash (replace_by matched_text ts)) as [|hd tl] eqn:Hs;
        [exfalso; exact (split_slash_nonempty _ Hs)|].
      simpl in *. split; [exact Hlen|].
      intros [|i] seg H Hkeys; simpl in H |- *.
      * injection H as <-. apply no_keys_cons in Hkeys as [Hkeys _].
        specialize (Hseg 0 hd eq_refl Hkeys). simpl in Hseg.
        injection Hseg as ->. reflexivity.
      * apply (Hseg (S i)); assumption.
  - assert (forall k', In k' (hits ts) ->
              k' <> [] /\ ~ In "]" k' /\ ~ In "/" k') as Hk'
      by (intros; apply Hk; simpl; auto).
    destruct (Hk k) as (Hk1 & Hk2 & Hk3); [simpl; auto|].
    destruct (IH Hk') as [Hlen Hseg].
    cbn [map item replace_by item_segments].
    assert (~ In "/" (matched_text k)) as Hw.
    { unfold matched_text. intros [H|H]; [discriminate|].
      apply in_app_or in H as [H|[H|[]]]; [contradiction | discriminate]. }
    destruct (split_slash_prepend_head (matched_text k)
                (replace_by matched_text ts) Hw) as (hd & tl & Hs & ->).
    rewrite Hs in Hlen, Hseg.
    destruct (item_segments (map item ts)) as [|rhd rtl] eqn:Hr;
      [exfalso; exact (item_segments_nonempty _ Hr)|].
    simpl in *. split; [exact Hlen|].
    intros [|i] seg H Hkeys; simpl in H |- *.
    + injection H as <-. exfalso.
      rewrite extractParamKeys_hits in Hkeys.
      unfold matched_text in Hkeys. simpl app in Hkeys.
      rewrite <- app_assoc in Hkeys. simpl app in Hkeys.
      rewrite scan_placeholder in Hkeys by assumption. discriminate.
    + apply (Hseg (S i)); assumption.
Qed.

(** No match, no exception. *)
Lemma matchRoute_null (pathname pattern : jsstring) :
  exec_from (pattern_items pattern) pathname = None ->
  matchRoute pathname pattern = Ok None.
Proof.
  intros H. unfold matchRoute. rewrite routeToRegex_items. cbn [bind].
  unfold exec. rewrite H. reflexivity.
Qed.

(** ** Matching a built path *)

Lemma hits_app {M : Type} (a b : list (token M)) :
  hits (a ++ b) = hits a ++ hits b.
Proof.
  induction a as [|[c|m] a IH]; simpl; congruence.
Qed.

Lemma hits_map_Lit (l : jsstring) : hits (map (@Lit jsstring) l) = [].
Proof. induction l; simpl; auto. Qed.

(** When every placeholder closes its segment, the path written from the
    tokens with texts that hold no slash matches, and each group captures
    the text of its placeholder. *)
Lemma exec_rendered (text : jsstring -> jsstring)
    (ts : list (token jsstring)) :
  placeholders_close ts = true ->
  (forall k, In k (hits ts) -> text k <> [] /\ ~ In "/" (text k)) ->
  exec_from (map item ts) (replace_by text ts) = Some (map text (hits ts)).
Proof.
  induction ts as [|[c|k] ts IH]; intros Hclose Htext.
  - reflexivity.
  - cbn [map item replace_by exec_from hits]. rewrite Ascii.eqb_refl.
    apply IH; assumption.
  - cbn [placeholders_close] in Hclose.
    apply andb_true_iff in Hclose as [Hnext Hclose].
    destruct (Htext k) as [Hne Hsl]; [simpl; auto|].
    cbn [map item replace_by hits]. rewrite exec_group.
    + rewrite IH by (auto; intros; apply Htext; simpl; auto).
      destruct (text k); [congruence | reflexivity].
    + destruct ts as [|[c|k'] ts']; [left; reflexivity | | discriminate].
      apply Ascii.eqb_eq in Hnext as ->. right. eexists. reflexivity.
    + exact Hsl.
    + destruct ts as [|[c|k'] ts']; [left; reflexivity | | discriminate].
      apply Ascii.eqb_eq in Hnext as ->. right. eexists. reflexivity.
Qed.

(** ** Reading the groups back *)

Lemma assign_params_encoded (value : jsstring -> jsstring)
    (keys : list jsstring) :
  (forall k, In k keys -> valid_utf8 (value k) = true) ->
  forall (pre : list jsstring) (acc : gmap jsstring jsstring),
  assign_params keys (length pre)
    (pre ++ map (fun k => encodeURIComponent (value k)) keys) acc
  = Ok (fold_left (fun acc k => set_param k (value k) acc) keys acc).
Proof.
  induction keys as [|key keys IH]; intros Hv pre acc; [reflexivity|].
  cbn [assign_params map fold_left].
  rewrite list_lookup_middle by reflexivity.
  rewrite decode_encode by (apply Hv; simpl; auto). cbn [bind].
  assert (forall k, In k keys -> valid_utf8 (value k) = true) as Hv'
    by (intros; apply Hv; simpl; auto).
  specialize (IH Hv' (pre ++ [encodeURIComponent (value key)])
                (set_param key (value key) acc)).
  rewrite length_app, <- app_assoc in IH. cbn [length app] in IH.
  replace (length pre + 1) with (S (length pre)) in IH by lia.
  exact IH.
Qed.

Lemma set_param_other (key value : jsstring) (acc : gmap jsstring jsstring) :
  key <> lit "__proto__" -> set_param key value acc = <[key := value]> acc.
Proof.
  intros H. unfold set_param. rewrite bool_decide_eq_false_2 by exact H.
  reflexivity.
Qed.

Lemma set_param_lookup_ne (key value j : jsstring)
    (acc : gmap jsstring jsstring) :
  key <> j -> set_param key value acc !! j = acc !! j.
Proof.
  intros H. unfold set_param. destruct (bool_decide _); [reflexivity|].
  apply lookup_insert_ne, H.
Qed.

Lemma set_param_proto (value : jsstring) (acc : gmap jsstring jsstring) :
  set_param (lit "__proto__") value acc = acc.
Proof. reflexivity. Qed.

Lemma lookup_fold_insert (value : jsstring -> jsstring)
    (keys : list jsstring) (j : jsstring) :
  ~ In (lit "__proto__") keys ->
  forall acc : gmap jsstring jsstring,
  (In j keys ->
   fold_left (fun acc k => set_param k (value k) acc) keys acc !! j
   = Some (value j)) /\
  (~ In j keys ->
   fold_left (fun acc k => set_param k (value k) acc) keys acc !! j = acc !! j).
Proof.
  induction keys as [|key keys IH]; intros Hproto acc.
  { split; [intros [] | reflexivity]. }
  assert (key <> lit "__proto__") as Hkey
    by (intros ->; apply Hproto; simpl; auto).
  assert (~ In (lit "__proto__") keys) as Hproto'
    by (intros H; apply Hproto; simpl; auto).
  cbn [fold_left]. rewrite set_param_other by exact Hkey.
  destruct (IH Hproto' (<[key := value key]> acc)) as [IH1 IH2].
  destruct (in_dec (fun a b : jsstring => decide (a = b)) j keys)
    as [Hin|Hnin].
  - split; [auto | intros H; destruct H; simpl; auto].
  - rewrite IH2 by exact Hnin. split.
    + intros [->|H]; [apply lookup_insert_eq | contradiction].
    + intros H. apply lookup_insert_ne. intros ->. apply H. simpl; auto.
Qed.

End MatchFacts.

(** * The directory scanner *)

Module WalkFacts.
Import JS Scanner Notions.

(** Induction on a directory entry, with the property at hand for the
    entries of a directory. *)
Lemma dirent_induction (P : dirent -> Prop)
    (Hfile : forall name content, P (FileEnt name content))
    (Hdir : forall name entries, Forall P entries -> P (DirEnt name entries)) :
  forall e, P e.
Proof.
  fix IH 1. intros [name content|name entries].
  - apply Hfile.
  - apply Hdir. induction entries as [|e es IHes].
    + constructor.
    + constructor; [apply IH | exact IHes].
Qed.

Lemma file_at_cons (e : dirent) (es : list dirent) (segments : list jsstring)
    (name content : jsstring) :
  file_at (e :: es) segments name content <->
  file_at [e] segments name content \/ file_at es segments name content.
Proof.
  split.
  - intros H. inversion H as [? ? ? Hin|? ? ? ? ? ? Hin Hsub]; subst;
      destruct Hin as [->|Hin].
    + left. constructor. simpl; auto.
    + right. constructor. exact Hin.
    + left. econstructor; [simpl; eauto | exact Hsub].
    + right. econstructor; eauto.
  - intros [H|H]; inversion H as [? ? ? Hin|? ? ? ? ? ? Hin Hsub]; subst.
    + destruct Hin as [->|[]]. constructor. simpl; auto.
    + destruct Hin as [->|[]]. econstructor; [simpl; eauto | exact Hsub].
    + constructor. simpl; auto.
    + econstructor; [simpl; eauto | exact Hsub].
Qed.

Lemma file_at_nil (segments : list jsstring) (name content : jsstring) :
  ~ file_at [] segments name content.
Proof. intros H. inversion H; subst; contradiction. Qed.

Section Walk.
Variable path_join : jsstring -> jsstring -> jsstring.
Variable excludePath : option (jsstring -> bool).

Lemma walk_cons (dir : jsstring) (base : list jsstring) (e : dirent)
    (es : list dirent) :
  walk path_join excludePath dir base (e :: es)
  = walk_entry path_join excludePath dir base e
    ++ walk path_join excludePath dir base es.
Proof. reflexivity. Qed.

Lemma walk_entry_dir (dir : jsstring) (base : list jsstring)
    (d : jsstring) (sub : list dirent) :
  walk_entry path_join excludePath dir base (DirEnt d sub)
  = if skipped excludePath base d then []
    else walk path_join excludePath (path_join dir d) (base ++ [d]) sub.
Proof.
  cbn [walk_entry]. unfold skipped, walk.
  destruct (startsWith ["_"] d); [reflexivity|].
  destruct excludePath as [exclude|]; reflexivity.
Qed.

Lemma walk_entry_file (dir : jsstring) (base : list jsstring)
    (name content : jsstring) :
  walk_entry path_join excludePath dir base (FileEnt name content)
  = if is_route_page name content
    then [route_of (path_join dir name) base] else [].
Proof.
  cbn [walk_entry]. unfold is_route_page.
  destruct (bool_decide (name = lit "page.tsx")
            || bool_decide (name = lit "page.ts")); [|reflexivity].
  destruct (usesRouteCreator content); reflexivity.
Qed.

Lemma found_cons dir base e es r :
  found path_join excludePath dir base (e :: es) r <->
  found path_join excludePath dir base [e] r
  \/ found path_join excludePath dir base es r.
Proof.
  unfold found. split.
  - intros (segs & name & content & Hat & H).
    apply file_at_cons in Hat as [Hat|Hat]; [left|right]; eauto 6.
  - intros [(segs & name & content & Hat & H)|(segs & name & content & Hat & H)];
      exists segs, name, content; (split; [|exact H]);
      apply file_at_cons; auto.
Qed.

Lemma walk_found_list (entries : list dirent) :
  Forall (fun e => forall dir base r,
            In r (walk_entry path_join excludePath dir base e)
            <-> found path_join excludePath dir base [e] r) entries ->
  forall dir base r,
  In r (walk path_join excludePath dir base entries)
  <-> found path_join excludePath dir base entries r.
Proof.
  induction 1 as [|e es He _ IH]; intros dir base r.
  - split; [intros [] |]. intros (segs & name & content & Hat & _).
    exact (file_at_nil _ _ _ Hat).
  - rewrite walk_cons, in_app_iff, found_cons, He, IH. reflexivity.
Qed.

(** The routes of a walk are those of the route pages the traversal
    reaches. *)
Lemma walk_entry_found (e : dirent) :
  forall dir base r,
  In r (walk_entry path_join excludePath dir base e)
  <-> found path_join excludePath dir base [e] r.
Proof.
  induction e as [name content|d sub IH] using dirent_induction;
    intros dir base r.
  - rewrite walk_entry_file. unfold found. split.
    + destruct (is_route_page name content) eqn:Hp; [|intros []].
      intros [<-|[]]. exists [], name, content.
      rewrite app_nil_r. repeat split; auto.
      constructor. simpl; auto.
    + intros (segs & n & c & Hat & _ & Hp & ->).
      inversion Hat as [? ? ? Hin|? ? ? ? ? ? Hin _]; subst;
        destruct Hin as [Hin|[]]; [|discriminate].
      injection Hin as <- <-. rewrite Hp, app_nil_r. simpl; auto.
  - rewrite walk_entry_dir. pose proof (walk_found_list sub IH) as Hsub.
    unfold found. split.
    + destruct (skipped excludePath base d) eqn:Hs; [intros []|].
      intros H. apply Hsub in H as (segs & n & c & Hat & Hd & Hp & ->).
      exists (d :: segs), n, c. repeat split; auto.
      * econstructor; [simpl; eauto | exact Hat].
      * cbn [descends]. rewrite Hs, Hd. reflexivity.
      * rewrite <- app_assoc. reflexivity.
    + intros (segs & n & c & Hat & Hd & Hp & ->).
      inversion Hat as [? ? ? Hin|? ? ? ? ? ? Hin Hbelow]; subst;
        destruct Hin as [Hin|[]]; [discriminate|].
      injection Hin as <- <-. cbn [descends] in Hd.
      apply andb_true_iff in Hd as [Hs Hd].
      apply negb_true_iff in Hs. rewrite Hs. apply Hsub.
      exists segments, n, c. repeat split; auto.
      rewrite <- app_assoc. reflexivity.
Qed.

Lemma walk_found (entries : list dirent) (dir : jsstring)
    (base : list jsstring) (r : ScannedRoute) :
  In r (walk path_join excludePath dir base entries)
  <-> found path_join excludePath dir base entries r.
Proof.
  apply walk_found_list, Forall_forall. intros e _. apply walk_entry_found.
Qed.

(** Going down from the root: no directory on the way is skipped. *)
Lemma descends_spec (segments base : list jsstring) :
  descends excludePath base segments = true <->
  forall i d, segments !! i = Some d ->
              skipped excludePath (base ++ take i segments) d = false.
Proof.
  revert base. induction segments as [|d segs IH]; intros base.
  - split; [intros _ i d H; destruct i; discriminate | reflexivity].
  - cbn [descends]. rewrite andb_true_iff, negb_true_iff, IH. split.
    + intros [Hd Hrest] [|i] d' Hi; simpl in Hi.
      * injection Hi as <-. simpl. rewrite app_nil_r. exact Hd.
      * specialize (Hrest i d' Hi). simpl.
        rewrite <- app_assoc in Hrest. exact Hrest.
    + intros H. split.
      * specialize (H 0 d eq_refl). simpl in H.
        rewrite app_nil_r in H. exact H.
      * intros i d' Hi. specialize (H (S i) d' Hi). simpl in H.
        rewrite <- app_assoc. exact H.
Qed.

Lemma skipped_false (base : list jsstring) (d : jsstring) :
  skipped excludePath base d = false <->
  startsWith ["_"] d = false /\
  forall exclude, excludePath = Some exclude ->
                  exclude ("/" :: join ["/"] (base ++ [d])) = false.
Proof.
  unfold skipped. rewrite orb_false_iff.
  destruct excludePath as [exclude|].
  - split; intros [H1 H2]; split; auto.
    intros exclude' [= <-]. exact H2.
  - split; intros [H1 H2]; split; auto. discriminate.
Qed.

(** In the terms of the names on the way and of the cumulative paths. *)
Lemma descends_root (segments : list jsstring) :
  descends excludePath [] segments = true <->
  forall i d, segments !! i = Some d ->
    startsWith ["_"] d = false /\
    forall exclude, excludePath = Some exclude ->
      exclude ("/" :: join ["/"] (take (S i) segments)) = false.
Proof.
  rewrite descends_spec. split; intros H i d Hi.
  - specialize (H i d Hi). apply skipped_false in H.
    rewrite (take_S_r _ _ _ Hi). exact H.
  - apply skipped_false. cbn [app]. rewrite <- (take_S_r _ _ _ Hi). auto.
Qed.
End Walk.

End WalkFacts.

(** * The claims about the pattern matcher *)

Import JS PathBuilder RoutePattern Notions JSFacts PatternFacts MatchFacts.

(** C1 (as amended).  For a route pattern in which every placeholder is
    followed by a slash or ends the pattern and no parameter is named
    [__proto__], and a value map that binds exactly the parameter names
    of the pattern to non-empty, well-formed texts, the path built from
    the pattern matches the pattern and the match gives back the map. *)
Theorem build_then_match_roundtrip (pattern : jsstring)
    (values : gmap jsstring jsstring) :
  placeholders_end_segments pattern = true ->
  ~ In (lit "__proto__") (extractParamKeys pattern) ->
  (forall k, In k (extractParamKeys pattern) <-> is_Some (values !! k)) ->
  (forall k v, values !! k = Some v -> v <> [] /\ valid_utf8 v = true) ->
  exists path,
    buildPath pattern (Some values) = Ok path /\
    matchRoute path pattern = Ok (Some values).
Proof.
  intros Hclose Hproto Hdom Hvalues.
  set (text := fun k => encodeURIComponent (value_in values k)).
  assert (forall k, In k (extractParamKeys pattern) ->
            exists v, values !! k = Some v /\ value_in values k = v) as Hval.
  { intros k Hk. apply Hdom in Hk as [v Hv]. exists v.
    unfold value_in. rewrite Hv. auto. }
  exists (replace_by text (scan placeholder_at pattern)). split.
  { unfold buildPath. apply replace_with_total. intros k Hk.
    rewrite <- extractParamKeys_hits in Hk.
    destruct (Hval k Hk) as (v & Hv & <-).
    unfold get_param. rewrite Hv. reflexivity. }
  unfold matchRoute. rewrite routeToRegex_items. cbn [bind].
  unfold exec, pattern_items. rewrite exec_rendered.
  - rewrite <- extractParamKeys_hits.
    assert (forall k, In k (extractParamKeys pattern) ->
              valid_utf8 (value_in values k) = true) as Hvalid.
    { intros k Hk. destruct (Hval k Hk) as (v & Hv & ->).
      apply (Hvalues k v Hv). }
    pose proof (assign_params_encoded (value_in values)
                  (extractParamKeys pattern) Hvalid [] ∅) as Ha.
    cbn [length app] in Ha. fold text in Ha. rewrite Ha.
    cbn [bind]. f_equal. f_equal. apply map_eq. intros j.
    destruct (lookup_fold_insert (value_in values)
                (extractParamKeys pattern) j Hproto ∅) as [Hin Hout].
    destruct (values !! j) as [v|] eqn:Hj.
    + rewrite Hin by (apply Hdom; eauto).
      unfold value_in. rewrite Hj. reflexivity.
    + rewrite Hout; [apply lookup_empty|].
      intros H. apply Hdom in H as [v Hv]. congruence.
  - exact Hclose.
  - intros k Hk. rewrite <- extractParamKeys_hits in Hk.
    destruct (Hval k Hk) as (v & Hv & Hk'). unfold text. rewrite Hk'. split.
    + apply encode_nonempty, (Hvalues k v Hv).
    + apply encode_no_slash.
Qed.

(** C1, an instance: [/user/[id]] and [{id: "42"}]. *)
Lemma build_then_match_roundtrip_witness :
  exists path,
    buildPath (lit "/user/[id]") (Some {[ lit "id" := lit "42" ]}) = Ok path /\
    matchRoute path (lit "/user/[id]") = Ok (Some {[ lit "id" := lit "42" ]}).
Proof.
  apply build_then_match_roundtrip.
  - reflexivity.
  - intros [H|[]]. vm_compute in H. discriminate H.
  - intros k. change (extractParamKeys (lit "/user/[id]")) with [lit "id"].
    rewrite lookup_singleton_is_Some. simpl. intuition congruence.
  - intros k v H. apply lookup_singleton_Some in H as [_ <-].
    split; [discriminate | reflexivity].
Defined.

(** C1 as stated fails for an empty value: [buildPath] accepts it, and the
    path built is not matched by the pattern. *)
Lemma roundtrip_fails_on_empty_value :
  placeholders_end_segments (lit "/user/[id]") = true /\
  extractParamKeys (lit "/user/[id]") = [lit "id"] /\
  ~ In "/" (@nil ascii) /\ valid_utf8 [] = true /\
  buildPath (lit "/user/[id]") (Some {[ lit "id" := [] ]}) = Ok (lit "/user/") /\
  matchRoute (lit "/user/") (lit "/user/[id]") = Ok None /\
  matchRoute (lit "/user/") (lit "/user/[id]") <> Ok (Some {[ lit "id" := [] ]}).
Proof.
  repeat split; try reflexivity; [intros [] | discriminate].
Qed.

(** The two conditions on the pattern are needed as well.  A placeholder
    followed by other text than a slash shares its segment, and the match
    divides the segment otherwise than the values did; and a value under
    the name [__proto__] is not given back. *)
Example roundtrip_needs_closed_segments :
  buildPath (lit "/[a]-[b]")
    (Some (<[ lit "a" := lit "x" ]> {[ lit "b" := lit "y-z" ]}))
  = Ok (lit "/x-y-z") /\
  matchRoute (lit "/x-y-z") (lit "/[a]-[b]")
  = Ok (Some (<[ lit "a" := lit "x-y" ]> {[ lit "b" := lit "z" ]})).
Proof. split; reflexivity. Qed.

Example roundtrip_needs_other_names :
  buildPath (lit "/[__proto__]") (Some {[ lit "__proto__" := lit "x" ]})
  = Ok (lit "/x") /\
  matchRoute (lit "/x") (lit "/[__proto__]") = Ok (Some ∅).
Proof. split; reflexivity. Qed.




(** C3 (as amended).  For a pattern none of whose placeholders holds a
    slash, a path with another number of segments, or with a segment
    that differs from the segment of the pattern in its place where that
    one holds no placeholder, is answered with [null]; the answer is a
    value, not an exception. *)
Theorem no_match_returns_null (pattern pathname : jsstring) :
  (forall k, In k (extractParamKeys pattern) -> ~ In "/" k) ->
  (length (split_slash pathname) <> length (split_slash pattern) \/
   exists i l s,
     split_slash pattern !! i = Some l /\ extractParamKeys l = [] /\
     split_slash pathname !! i = Some s /\ s <> l) ->
  matchRoute pathname pattern = Ok None.
Proof.
  intros Hkeys Hdiff. apply matchRoute_null.
  destruct (exec_from (pattern_items pattern) pathname) as [gs|] eqn:Hexec;
    [exfalso|reflexivity].
  apply exec_segments_sound in Hexec as [Hlen Hseg].
  destruct (pattern_item_segments (scan placeholder_at pattern))
    as [Hlen' Hseg'].
  { intros k Hk.
    destruct (scan_hits_well_formed (length pattern) pattern k) as [H1 H2];
      [lia | exact Hk |].
    repeat split; auto. apply Hkeys. rewrite extractParamKeys_hits. exact Hk. }
  rewrite (scan_placeholder_text (length pattern)) in Hlen', Hseg' by lia.
  fold (pattern_items pattern) in Hlen', Hseg'.
  destruct Hdiff as [Hdiff|(i & l & s & Hl & Hlit & Hs & Hne)].
  - congruence.
  - apply Hne. specialize (Hseg i l (Hseg' i l Hl Hlit)). congruence.
Qed.

(** C3, an instance: a path of four segments against a pattern of three. *)
Lemma no_match_returns_null_witness :
  matchRoute (lit "/user/123/post") (lit "/user/[id]") = Ok None.
Proof.
  apply no_match_returns_null.
  - intros k [<-|[]] [H|[H|[]]]; discriminate.
  - left. vm_compute. lia.
Defined.

(** C3 as stated fails where a placeholder holds a slash: the pattern has
    three segments, the path two, and the path matches. *)
Lemma match_despite_segment_count :
  length (split_slash (lit "/[a/b]")) = 3 /\
  length (split_slash (lit "/x")) = 2 /\
  matchRoute (lit "/x") (lit "/[a/b]") = Ok (Some {[ lit "a/b" := lit "x" ]}) /\
  matchRoute (lit "/x") (lit "/[a/b]") <> Ok None.
Proof.
  repeat split; try reflexivity. discriminate.
Qed.

(** C4 (as amended).  After literal text without an opening bracket:
    empty brackets are literal text; an opening bracket with no closing
    bracket after it is literal text; an opening bracket, a non-empty run
    of characters other than the closing bracket (slashes allowed) and a
    closing bracket are one placeholder, named by the run and turned into
    one capturing group. *)
Theorem placeholder_recognition (text name rest : jsstring) :
  ~ In "[" text ->
  (extractParamKeys (text ++ "[" :: "]" :: rest) = extractParamKeys rest /\
   routeToRegex (text ++ "[" :: "]" :: rest)
   = let* r := routeToRegex rest in Ok (map RChar (text ++ ["["; "]"]) ++ r))
  /\ (~ In "]" rest ->
      extractParamKeys (text ++ "[" :: rest) = [] /\
      routeToRegex (text ++ "[" :: rest) = Ok (map RChar (text ++ "[" :: rest)))
  /\ (name <> [] -> ~ In "]" name ->
      extractParamKeys (text ++ "[" :: name ++ "]" :: rest)
      = name :: extractParamKeys rest /\
      routeToRegex (text ++ "[" :: name ++ "]" :: rest)
      = let* r := routeToRegex rest in Ok (map RChar text ++ RGroup :: r)).
Proof.
  intros Htext. rewrite !extractParamKeys_hits, !routeToRegex_items.
  unfold pattern_items. cbn [bind]. repeat split.
  - rewrite scan_literal, scan_empty_brackets by exact Htext.
    rewrite hits_app, hits_map_Lit. reflexivity.
  - rewrite scan_literal, scan_empty_brackets by exact Htext.
    rewrite !map_app, map_map, <- app_assoc. reflexivity.
  - rewrite scan_literal by exact Htext.
    rewrite scan_placeholder_cons.
    assert (placeholder_at ("[" :: rest) = None) as ->.
    { simpl. apply until_close_none in H. rewrite H. reflexivity. }
    rewrite scan_no_close by exact H.
    rewrite hits_app, hits_map_Lit. apply (hits_map_Lit ("[" :: rest)).
  - rewrite scan_literal by exact Htext.
    rewrite scan_placeholder_cons.
    assert (placeholder_at ("[" :: rest) = None) as ->.
    { simpl. apply until_close_none in H. rewrite H. reflexivity. }
    rewrite scan_no_close by exact H.
    rewrite !map_app, map_map. cbn [map item]. rewrite map_map. reflexivity.
  - rewrite scan_literal by exact Htext.
    rewrite scan_placeholder by assumption.
    rewrite hits_app, hits_map_Lit. reflexivity.
  - rewrite scan_literal by exact Htext.
    rewrite scan_placeholder by assumption.
    rewrite map_app, map_map. reflexivity.
Qed.

(** C4, an instance: the brackets of [/[a/b]] hold a slash. *)
Lemma placeholder_recognition_witness :
  extractParamKeys (lit "/[a/b]") = [lit "a/b"] /\
  routeToRegex (lit "/[a/b]") = Ok [RChar "/"; RGroup].
Proof.
  assert (~ In "[" (lit "/")) as Htext by (intros [H|[]]; discriminate).
  destruct (placeholder_recognition (lit "/") (lit "a/b") [] Htext)
    as (_ & _ & H).
  apply H; [discriminate|].
  intros [H1|[H1|[H1|[]]]]; discriminate.
Defined.

(** C4 as stated fails: brackets whose contents span a slash are a
    placeholder, with a name that holds the slash and a capturing group
    of its own. *)
Lemma bracket_spanning_slash_is_placeholder :
  In "/" (lit "a/b") /\
  extractParamKeys (lit "/[a/b]") = [lit "a/b"] /\
  isDynamicRoute (lit "/[a/b]") = true /\
  routeToRegex (lit "/[a/b]") = Ok [RChar "/"; RGroup].
Proof.
  repeat split; try reflexivity. simpl. auto.
Qed.

(** C8.  The source [routePathToRegexString] generates and the expression
    [routeToRegex] builds at run time compile to expressions that match
    the same paths with the same groups. *)
Theorem generated_pattern_agrees_with_runtime (pattern : jsstring) :
  exists generated runtime,
    RegExp (Scanner.routePathToRegexString pattern) = Ok generated /\
    routeToRegex pattern = Ok runtime /\
    forall path, exec generated path = exec runtime path.
Proof.
  exists (pattern_items pattern), (pattern_items pattern).
  split; [apply routePathToRegexString_items|].
  split; [apply routeToRegex_items | reflexivity].
Qed.

(** C10.  Without a value map [buildPath] returns the pattern as it is,
    placeholders included, and raises nothing. *)
Theorem buildPath_without_params (route : jsstring) :
  buildPath route None = Ok route.
Proof. reflexivity. Qed.

(** * The claims about the scanner and the generator *)

Import Scanner WalkFacts.

(** C5.  Every route the scanner returns comes from a file that is
    reached from the root through directories none of which has a name
    that starts with an underscore and none of which the exclusion
    predicate rejects on its cumulative path; and a directory that is
    skipped for one of the two reasons gives no route, whatever lies
    below it. *)
Theorem scan_skips_private_and_excluded
    (path_join : jsstring -> jsstring -> jsstring)
    (excludePath : option (jsstring -> bool))
    (fs : filesystem) (appDir : jsstring) (routes : list ScannedRoute) :
  scanRoutes path_join excludePath fs appDir = Ok routes ->
  (forall r, In r routes ->
     exists entries segments name content,
       fs appDir = Some (IsDir entries) /\
       file_at entries segments name content /\
       filePath r = path_join (fold_left path_join segments appDir) name /\
       routePath r = "/" :: join ["/"] segments /\
       forall i d, segments !! i = Some d ->
         startsWith ["_"] d = false /\
         forall exclude, excludePath = Some exclude ->
           exclude ("/" :: join ["/"] (take (S i) segments)) = false)
  /\ (forall dir segments name entries,
        (startsWith ["_"] name = true \/
         exists exclude, excludePath = Some exclude /\
           exclude ("/" :: join ["/"] (segments ++ [name])) = true) ->
        walk path_join excludePath dir segments [DirEnt name entries] = []).
Proof.
  intros Hscan. split.
  - intros r Hr. unfold scanRoutes in Hscan.
    destruct (fs appDir) as [[content|entries]|]; try discriminate.
    + injection Hscan as <-. apply walk_found in Hr.
      destruct Hr as (segments & name & content & Hat & Hd & _ & ->).
      exists entries, segments, name, content.
      pose proof (proj1 (descends_root excludePath segments) Hd) as Hd'.
      repeat split; auto; eapply Hd'; eauto.
    + injection Hscan as <-. destruct Hr.
  - intros dir segments name entries Hskip.
    unfold walk. cbn [flat_map]. rewrite walk_entry_dir, app_nil_r.
    assert (skipped excludePath segments name = true) as ->; [|reflexivity].
    unfold skipped. destruct Hskip as [->|(exclude & -> & ->)];
      [reflexivity | apply orb_true_r].
Qed.

(** C5, an instance: the application tree, with its private directory. *)
Lemma scan_skips_private_and_excluded_witness :
  walk Example.path_join None (lit "src/app")
    [lit "user"; lit "[id]"] [DirEnt (lit "_private") [Example.page]] = [].
Proof.
  apply (scan_skips_private_and_excluded Example.path_join None Example.fs
           (lit "src/app") _ eq_refl).
  left. reflexivity.
Defined.

(** C7.  When the root directory does not exist the scanner returns the
    empty sequence, and raises nothing. *)
Theorem missing_root_gives_no_routes
    (path_join : jsstring -> jsstring -> jsstring)
    (excludePath : option (jsstring -> bool))
    (fs : filesystem) (appDir : jsstring) :
  fs appDir = None ->
  scanRoutes path_join excludePath fs appDir = Ok [].
Proof. intros H. unfold scanRoutes. rewrite H. reflexivity. Qed.

(** C7, an instance: the application tree has no [src/pages]. *)
Lemma missing_root_gives_no_routes_witness :
  scanRoutes Example.path_join None Example.fs (lit "src/pages") = Ok [].
Proof. apply missing_root_gives_no_routes. reflexivity. Defined.




(** * Further properties of the path builder *)

Module BuilderFacts.
Import JS PathBuilder RoutePattern Notions Shapes JSFacts PatternFacts MatchFacts.

(** ** Where the placeholders are *)

Lemma scan_hit_occurs (n : nat) :
  forall s k, length s <= n -> In k (hits (scan placeholder_at s)) ->
  exists text rest, s = text ++ "[" :: k ++ "]" :: rest.
Proof.
  induction n as [|n IH]; intros s k Hn.
  { destruct s; [intros [] | simpl in Hn; lia]. }
  destruct s as [|c s]; [intros []|].
  rewrite scan_placeholder_cons.
  destruct (placeholder_at (c :: s)) as [[k' rest]|] eqn:Hp.
  - pose proof (placeholder_at_consuming _ _ _ Hp) as Hlen.
    apply placeholder_at_some in Hp as (Hs & _ & _).
    simpl in Hn, Hlen. intros [<-|Hin].
    + exists [], rest. exact Hs.
    + destruct (IH rest k) as (text & rest' & ->); [lia | exact Hin |].
      exists ("[" :: k' ++ "]" :: text), rest'.
      rewrite Hs. simpl. rewrite <- app_assoc. reflexivity.
  - simpl in Hn. simpl. intros Hin.
    destruct (IH s k) as (text & rest' & ->); [lia | exact Hin |].
    exists (c :: text), rest'. reflexivity.
Qed.

Lemma scan_finds_placeholder (text key rest : jsstring) :
  key <> [] -> ~ In "]" key ->
  hits (scan placeholder_at (text ++ "[" :: key ++ "]" :: rest)) <> [].
Proof.
  intros Hk Hc. induction text as [|c text IH].
  - simpl app. rewrite scan_placeholder by assumption. discriminate.
  - simpl app. rewrite scan_placeholder_cons.
    destruct (placeholder_at _) as [[k' rest']|]; [discriminate | exact IH].
Qed.

Lemma scan_no_hits (s : jsstring) :
  hits (scan placeholder_at s) = [] -> scan placeholder_at s = map Lit s.
Proof.
  induction s as [|c s IH]; [reflexivity|].
  rewrite scan_placeholder_cons.
  destruct (placeholder_at (c :: s)) as [[k rest]|]; [discriminate|].
  simpl. intros H. rewrite IH by exact H. reflexivity.
Qed.

(** ** Replacements *)

Lemma replace_with_literal {M : Type} (f : M -> result jsstring)
    (s : jsstring) :
  replace_with f (map Lit s) = Ok s.
Proof.
  induction s as [|c s IH]; [reflexivity|]. simpl. rewrite IH. reflexivity.
Qed.

Lemma replace_by_literal {M : Type} (text : M -> jsstring) (s : jsstring) :
  replace_by text (map Lit s) = s.
Proof.
  induction s as [|c s IH]; [reflexivity|]. simpl. rewrite IH. reflexivity.
Qed.

Lemma replace_with_ext {M : Type} (f g : M -> result jsstring)
    (ts : list (token M)) :
  (forall m, In m (hits ts) -> f m = g m) ->
  replace_with f ts = replace_with g ts.
Proof.
  induction ts as [|[c|m] ts IH]; intros H; simpl.
  - reflexivity.
  - rewrite IH by exact H. reflexivity.
  - rewrite (H m) by (simpl; auto).
    rewrite IH by (intros; apply H; simpl; auto). reflexivity.
Qed.

Lemma buildPath_no_keys (route : jsstring)
    (params : option (gmap jsstring jsstring)) :
  hits (scan placeholder_at route) = [] -> buildPath route params = Ok route.
Proof.
  intros H. destruct params as [params|]; [|reflexivity].
  unfold buildPath. rewrite scan_no_hits by exact H.
  apply replace_with_literal.
Qed.

(** What [buildPath] returns when it returns. *)
Lemma buildPath_ok (route path : jsstring) (params : gmap jsstring jsstring) :
  buildPath route (Some params) = Ok path ->
  path = replace_by (fun key => encodeURIComponent (text_in params key))
           (scan placeholder_at route).
Proof.
  intros Hb. unfold buildPath in Hb.
  pose proof (replace_with_ok _ _ _ Hb) as Hok.
  rewrite (replace_with_total _
             (fun key => encodeURIComponent (text_in params key))) in Hb.
  - congruence.
  - intros key Hin. destruct (Hok key Hin) as [v Hv]. cbv beta in Hv.
    unfold text_in. destruct (get_param params key); [reflexivity | discriminate].
Qed.

(** ** An encoded value holds no bracket *)

Lemma percent_encode_no_bracket (b : ascii) :
  ~ In "[" (percent_encode b) /\ ~ In "]" (percent_encode b).
Proof.
  pose proof (byte_cases
    (fun b => negb (existsb (Ascii.eqb "[") (percent_encode b))
              && negb (existsb (Ascii.eqb "]") (percent_encode b)))
    eq_refl b) as H.
  cbv beta in H. apply andb_true_iff in H as [H1 H2].
  apply negb_true_iff in H1, H2.
  split; intros Hin.
  - assert (existsb (Ascii.eqb "[") (percent_encode b) = true) as Hex.
    { apply existsb_exists. exists "[". split; [exact Hin | apply Ascii.eqb_refl]. }
    congruence.
  - assert (existsb (Ascii.eqb "]") (percent_encode b) = true) as Hex.
    { apply existsb_exists. exists "]". split; [exact Hin | apply Ascii.eqb_refl]. }
    congruence.
Qed.

Lemma unreserved_no_bracket (b : ascii) :
  is_unreserved b = true -> b <> "[" /\ b <> "]".
Proof.
  intros Hu. split; intros ->; discriminate.
Qed.

Lemma encode_no_bracket (v : jsstring) :
  ~ In "[" (encodeURIComponent v) /\ ~ In "]" (encodeURIComponent v).
Proof.
  unfold encodeURIComponent. rewrite !in_flat_map.
  split; intros (c & _ & Hc); destruct (is_unreserved c) eqn:Hu.
  - destruct Hc as [Hc|[]]. apply unreserved_no_bracket in Hu. tauto.
  - exact (proj1 (percent_encode_no_bracket c) Hc).
  - destruct Hc as [Hc|[]]. apply unreserved_no_bracket in Hu. tauto.
  - exact (proj2 (percent_encode_no_bracket c) Hc).
Qed.

(** The pattern with texts that hold no bracket in the places of its
    placeholders has no placeholder. *)
Lemma scan_filled (text : jsstring -> jsstring) (n : nat) :
  (forall k, ~ In "[" (text k) /\ ~ In "]" (text k)) ->
  forall s, length s <= n ->
  scan placeholder_at (replace_by text (scan placeholder_at s))
  = map Lit (replace_by text (scan placeholder_at s)).
Proof.
  intros Htext. induction n as [|n IH]; intros s Hn.
  { destruct s; [reflexivity | simpl in Hn; lia]. }
  destruct s as [|c s]; [reflexivity|].
  rewrite scan_placeholder_cons.
  destruct (placeholder_at (c :: s)) as [[k rest]|] eqn:Hp.
  - pose proof (placeholder_at_consuming _ _ _ Hp) as Hlen.
    simpl in Hn, Hlen. cbn [replace_by].
    rewrite scan_literal by apply Htext.
    rewrite IH by lia. rewrite map_app. reflexivity.
  - simpl in Hn. cbn [replace_by].
    destruct (Ascii.eqb_spec c "[") as [->|Hc].
    + simpl in Hp. destruct (until_close s) as [[[|c1 k] rest]|] eqn:Hu.
      * apply until_close_some in Hu as [-> _]. simpl app.
        rewrite (scan_placeholder_cons "]"), placeholder_at_other by discriminate.
        cbn [replace_by]. rewrite scan_empty_brackets.
        simpl in Hn. rewrite IH by lia. reflexivity.
      * discriminate.
      * apply until_close_none in Hu.
        rewrite (scan_no_close s Hu), replace_by_literal.
        apply scan_no_close. intros [H|H]; [discriminate | contradiction].
    + rewrite scan_placeholder_cons, placeholder_at_other by exact Hc.
      rewrite IH by lia. reflexivity.
Qed.

Lemma isDynamicRoute_keys (route : jsstring) :
  isDynamicRoute route = true <-> PathBuilder.extractParamKeys route <> [].
Proof.
  rewrite extractParamKeys_hits. unfold isDynamicRoute.
  destruct (hits (scan placeholder_at route)); split;
    congruence || discriminate.
Qed.

(** ** The characters of a built path *)

Lemma replace_by_chars (text : jsstring -> jsstring)
    (ts : list (token jsstring)) (c : ascii) :
  In c (replace_by text ts) ->
  In (Lit c) ts \/ exists k, In k (hits ts) /\ In c (text k).
Proof.
  induction ts as [|[c'|k] ts IH]; simpl; [intros []| |].
  - intros [->|H]; [auto|]. destruct (IH H) as [H'|(k & Hk & Hc)]; eauto.
  - intros H. apply in_app_or in H as [H|H]; [eauto|].
    destruct (IH H) as [H'|(k' & Hk & Hc)]; eauto.
Qed.

Lemma literal_in_text (ts : list (token jsstring)) (c : ascii) :
  In (Lit c) ts -> In c (replace_by matched_text ts).
Proof.
  induction ts as [|[c'|k] ts IH]; simpl; [intros []| |].
  - intros [[= ->]|H]; auto.
  - intros [H|H]; [discriminate|]. right.
    apply in_or_app. right. auto.
Qed.

Lemma percent_encode_chars (b c : ascii) :
  In c (percent_encode b) -> is_unreserved c = true \/ c = "%".
Proof.
  pose proof (byte_cases
    (fun b => forallb (fun c => is_unreserved c || (c =? "%")%char)
                (percent_encode b)) eq_refl b) as H.
  cbv beta in H. rewrite forallb_forall in H. intros Hc.
  specialize (H c Hc). apply orb_true_iff in H as [H|H]; [auto|].
  apply Ascii.eqb_eq in H. auto.
Qed.

Lemma encode_chars (v : jsstring) (c : ascii) :
  In c (encodeURIComponent v) -> is_unreserved c = true \/ c = "%".
Proof.
  unfold encodeURIComponent. rewrite in_flat_map. intros (b & _ & Hc).
  destruct (is_unreserved b) eqn:Hb.
  - destruct Hc as [<-|[]]. auto.
  - exact (percent_encode_chars b c Hc).
Qed.

(** ** Segments *)

(** The number of segments of a text written from tokens does not depend
    on the texts in the places of the placeholders, when these hold no
    slash. *)
Lemma segments_count (text : jsstring -> jsstring)
    (ts : list (token jsstring)) :
  (forall k, In k (hits ts) -> ~ In "/" (text k)) ->
  length (split_slash (replace_by text ts))
  = length (split_slash (replace_by (fun _ => []) ts)).
Proof.
  induction ts as [|[c|k] ts IH]; intros Htext; [reflexivity| |].
  - cbn [replace_by]. specialize (IH Htext).
    destruct (Ascii.eqb_spec c "/") as [->|Hc].
    + simpl. congruence.
    + assert (~ In "/" [c]) as Hw by (intros [H|[]]; congruence).
      destruct (split_slash_prepend_head [c] (replace_by text ts) Hw)
        as (hd & tl & Hs & H).
      destruct (split_slash_prepend_head [c] (replace_by (fun _ => []) ts) Hw)
        as (hd' & tl' & Hs' & H').
      simpl app in H, H'. rewrite H, H'. rewrite Hs, Hs' in IH. exact IH.
  - cbn [replace_by]. simpl app.
    assert (forall k', In k' (hits ts) -> ~ In "/" (text k')) as Htext'
      by (intros; apply Htext; simpl; auto).
    specialize (IH Htext').
    destruct (split_slash_prepend_head (text k) (replace_by text ts))
      as (hd & tl & Hs & H); [apply Htext; simpl; auto|].
    rewrite H. rewrite Hs in IH. exact IH.
Qed.

End BuilderFacts.

(** * The path builder, further *)

Import PathBuilder BuilderFacts Shapes.

(** X1.  A route is dynamic exactly when it holds an opening bracket, a
    non-empty run of characters other than the closing bracket, and a
    closing bracket; these are the routes with a parameter name. *)
Theorem isDynamicRoute_iff_placeholder (route : jsstring) :
  (isDynamicRoute route = true <->
   exists text key rest,
     route = text ++ "[" :: key ++ "]" :: rest /\ key <> [] /\ ~ In "]" key)
  /\ (isDynamicRoute route = true <-> PathBuilder.extractParamKeys route <> []).
Proof.
  split.
  - unfold isDynamicRoute. split.
    + destruct (hits (scan placeholder_at route)) as [|k ks] eqn:Hh;
        [discriminate|]. intros _.
      assert (In k (hits (scan placeholder_at route))) as Hin
        by (rewrite Hh; simpl; auto).
      destruct (scan_hit_occurs (length route) route k) as (text & rest & Hr);
        [lia | exact Hin |].
      destruct (scan_hits_well_formed (length route) route k) as [Hk Hc];
        [lia | exact Hin |].
      exists text, k, rest. auto.
    + intros (text & key & rest & -> & Hk & Hc).
      pose proof (scan_finds_placeholder text key rest Hk Hc) as H.
      destruct (hits _); [congruence | reflexivity].
  - apply isDynamicRoute_keys.
Qed.

(** X2.  Every parameter name [extractParamKeys] returns is not empty,
    holds no closing bracket, and stands in the route between an opening
    and a closing bracket. *)
Theorem extractParamKeys_occur (route key : jsstring) :
  In key (PathBuilder.extractParamKeys route) ->
  key <> [] /\ ~ In "]" key /\
  exists text rest, route = text ++ "[" :: key ++ "]" :: rest.
Proof.
  rewrite PatternFacts.extractParamKeys_hits. intros Hin.
  destruct (scan_hits_well_formed (length route) route key) as [Hk Hc];
    [lia | exact Hin |].
  repeat split; auto.
  apply (scan_hit_occurs (length route)); [lia | exact Hin].
Qed.

(** X2, an instance: the second name of a route with two. *)
Lemma extractParamKeys_occur_witness :
  lit "postId" <> [] /\ ~ In "]" (lit "postId") /\
  exists text rest,
    lit "/user/[id]/post/[postId]" = text ++ "[" :: lit "postId" ++ "]" :: rest.
Proof.
  apply (extractParamKeys_occur (lit "/user/[id]/post/[postId]") (lit "postId")).
  right. left. reflexivity.
Defined.

(** X3.  A route without a placeholder is returned as it is, whatever
    the value map holds. *)
Theorem buildPath_static_route (route : jsstring)
    (params : option (gmap jsstring jsstring)) :
  isDynamicRoute route = false -> buildPath route params = Ok route.
Proof.
  intros H. apply buildPath_no_keys. unfold isDynamicRoute in H.
  destruct (hits (scan placeholder_at route)); [reflexivity | discriminate].
Qed.

(** X3, an instance: a static route and a map with a key of no use. *)
Lemma buildPath_static_route_witness :
  buildPath (lit "/about") (Some {[ lit "id" := lit "1" ]}) = Ok (lit "/about").
Proof.
  apply buildPath_static_route. reflexivity.
Defined.

(** X4.  [buildPath] reads the value map at the parameter names of the
    route only: two maps that agree on these names give the same path,
    or the same error. *)
Theorem buildPath_reads_only_its_keys (route : jsstring)
    (params1 params2 : gmap jsstring jsstring) :
  (forall key, In key (PathBuilder.extractParamKeys route) ->
               params1 !! key = params2 !! key) ->
  buildPath route (Some params1) = buildPath route (Some params2).
Proof.
  intros H. unfold buildPath. apply replace_with_ext. intros key Hin.
  rewrite <- PatternFacts.extractParamKeys_hits in Hin.
  unfold get_param. rewrite (H key Hin). reflexivity.
Qed.

(** X4, an instance: a key the route does not name changes nothing. *)
Lemma buildPath_reads_only_its_keys_witness :
  buildPath (lit "/user/[id]") (Some {[ lit "id" := lit "7" ]})
  = buildPath (lit "/user/[id]")
      (Some (<[ lit "tab" := lit "x" ]> {[ lit "id" := lit "7" ]})).
Proof.
  apply buildPath_reads_only_its_keys.
  intros key [<-|[]]. reflexivity.
Defined.

(** X5.  The path [buildPath] returns for a value map holds no
    placeholder: it has no parameter name, and building from it again,
    with any value map or none, returns it unchanged. *)
Theorem buildPath_leaves_no_placeholder (route path : jsstring)
    (params : gmap jsstring jsstring) :
  buildPath route (Some params) = Ok path ->
  PathBuilder.extractParamKeys path = [] /\
  isDynamicRoute path = false /\
  forall params', buildPath path params' = Ok path.
Proof.
  intros Hb. apply buildPath_ok in Hb.
  assert (hits (scan placeholder_at path) = []) as Hh.
  { rewrite Hb. rewrite (scan_filled _ (length route)).
    - apply hits_map_Lit.
    - intros k. apply encode_no_bracket.
    - lia. }
  repeat split.
  - rewrite PatternFacts.extractParamKeys_hits. exact Hh.
  - unfold isDynamicRoute. rewrite Hh. reflexivity.
  - intros params'. apply buildPath_no_keys, Hh.
Qed.

(** X5, an instance: a value with brackets of its own. *)
Lemma buildPath_leaves_no_placeholder_witness :
  PathBuilder.extractParamKeys (lit "/tag/%5Bx%5D") = [] /\
  isDynamicRoute (lit "/tag/%5Bx%5D") = false /\
  forall params', buildPath (lit "/tag/%5Bx%5D") params' = Ok (lit "/tag/%5Bx%5D").
Proof.
  apply (buildPath_leaves_no_placeholder (lit "/tag/[name]") _
           {[ lit "name" := lit "[x]" ]}).
  reflexivity.
Defined.

(** * Further properties of the matcher *)

Module MatcherFacts.
Import JS PathBuilder RoutePattern Notions Shapes JSFacts PatternFacts MatchFacts.
Import BuilderFacts.

(** ** Decoding *)

Lemma bind_ok_throw {A B : Type} (r : result A) (f : A -> B) (e : error) :
  (let* a := r in Ok (f a)) = Throw e -> r = Throw e.
Proof. destruct r; simpl; congruence. Qed.

Lemma unescape_throws (n : nat) :
  forall s e, length s <= n -> unescape s = Throw e -> e = URIError.
Proof.
  induction n as [|n IH]; intros s e Hn H.
  { destruct s; [discriminate | simpl in Hn; lia]. }
  destruct s as [|c s1]; [discriminate|]. simpl in Hn.
  cbn [unescape] in H. destruct (c =? "%")%char.
  - destruct s1 as [|h1 [|h2 s2]]; try congruence.
    destruct (hex_octet h1 h2); [|congruence].
    apply bind_ok_throw in H. apply (IH s2); [simpl in Hn; lia | exact H].
  - apply bind_ok_throw in H. apply (IH s1); [lia | exact H].
Qed.

Lemma decode_units_throws (n : nat) :
  forall us e, length us <= n -> decode_units us = Throw e -> e = URIError.
Proof.
  induction n as [|n IH]; intros us e Hn H.
  { destruct us; [discriminate | simpl in Hn; lia]. }
  destruct us as [|[c|b1] us1]; [discriminate| |]; simpl in Hn;
    cbn [decode_units] in H.
  - apply bind_ok_throw in H. apply (IH us1); [lia | exact H].
  - destruct (byte_in 0 127 b1).
    { apply bind_ok_throw in H. apply (IH us1); [lia | exact H]. }
    destruct (byte_in 192 223 b1).
    { destruct us1 as [|[c2|b2] us2]; try congruence.
      destruct (utf8_2 b1 b2); [|congruence].
      apply bind_ok_throw in H. apply (IH us2); [simpl in Hn; lia | exact H]. }
    destruct (byte_in 224 239 b1).
    { destruct us1 as [|[c2|b2] [|[c3|b3] us3]]; try congruence.
      destruct (utf8_3 b1 b2 b3); [|congruence].
      apply bind_ok_throw in H. apply (IH us3); [simpl in Hn; lia | exact H]. }
    destruct (byte_in 240 247 b1); [|congruence].
    destruct us1 as [|[c2|b2] [|[c3|b3] [|[c4|b4] us4]]]; try congruence.
    destruct (utf8_4 b1 b2 b3 b4); [|congruence].
    apply bind_ok_throw in H. apply (IH us4); [simpl in Hn; lia | exact H].
Qed.

(** [decodeURIComponent] throws nothing but a [URIError]. *)
Lemma decode_throws (g : jsstring) (e : error) :
  decodeURIComponent g = Throw e -> e = URIError.
Proof.
  unfold decodeURIComponent. destruct (unescape g) as [us|e'] eqn:Hu; simpl.
  - apply (decode_units_throws (length us)). lia.
  - intros [= <-]. apply (unescape_throws (length g) g); [lia | exact Hu].
Qed.

Lemma unescape_plain (s : jsstring) :
  ~ In "%" s -> unescape s = Ok (map Raw s).
Proof.
  induction s as [|c s IH]; intros Hs; [reflexivity|].
  cbn [unescape]. destruct (Ascii.eqb_spec c "%") as [->|Hc].
  - destruct Hs. simpl; auto.
  - rewrite IH by (intros H; apply Hs; simpl; auto). reflexivity.
Qed.

Lemma decode_units_raw (s : jsstring) : decode_units (map Raw s) = Ok s.
Proof.
  induction s as [|c s IH]; [reflexivity|]. simpl. rewrite IH. reflexivity.
Qed.

(** A text without a percent sign is decoded to itself. *)
Lemma decode_plain (g : jsstring) :
  ~ In "%" g -> decodeURIComponent g = Ok g.
Proof.
  intros Hg. unfold decodeURIComponent. rewrite unescape_plain by exact Hg.
  apply decode_units_raw.
Qed.

Lemma decode_throws_percent (g : jsstring) (e : error) :
  decodeURIComponent g = Throw e -> In "%" g.
Proof.
  intros H. destruct (in_dec ascii_dec "%" g) as [Hin|Hnin]; [exact Hin|].
  rewrite decode_plain in H by exact Hnin. discriminate.
Qed.

(** A text of unreserved characters is encoded to itself. *)
Lemma encode_unreserved (g : jsstring) :
  (forall c, In c g -> is_unreserved c = true) -> encodeURIComponent g = g.
Proof.
  unfold encodeURIComponent. induction g as [|c g IH]; intros Hg; [reflexivity|].
  simpl. rewrite (Hg c) by (simpl; auto). simpl.
  rewrite IH by (intros; apply Hg; simpl; auto). reflexivity.
Qed.

(** ** Matching *)

Lemma exec_chars (p s : jsstring) :
  exec_from (map RChar p) s = if bool_decide (s = p) then Some [] else None.
Proof.
  revert s. induction p as [|c p IH]; intros s.
  - destruct s; reflexivity.
  - cbn [map exec_from]. destruct s as [|c' s].
    + reflexivity.
    + destruct (Ascii.eqb_spec c c') as [<-|Hc].
      * rewrite IH. destruct (decide (s = p)) as [->|Hs].
        -- rewrite !bool_decide_eq_true_2; reflexivity.
        -- rewrite !bool_decide_eq_false_2; congruence.
      * rewrite bool_decide_eq_false_2; congruence.
Qed.

(** A path that matches is the pattern with the captured texts in the
    places of the placeholders. *)
Lemma exec_fill (ts : list (token jsstring)) :
  forall s gs, exec_from (map item ts) s = Some gs ->
  s = fill ts gs /\ length gs = length (hits ts) /\
  Forall (fun g => g <> [] /\ ~ In "/" g /\ forall c, In c g -> In c s) gs.
Proof.
  induction ts as [|[c|k] ts IH]; intros s gs Hexec.
  - destruct s; [|discriminate]. injection Hexec as <-.
    repeat split. constructor.
  - cbn [map item exec_from] in Hexec. destruct s as [|c' s]; [discriminate|].
    destruct (Ascii.eqb_spec c c') as [<-|]; [|discriminate].
    destruct (IH s gs Hexec) as (Hs & Hlen & Hgs).
    cbn [fill hits]. repeat split; [congruence | exact Hlen |].
    eapply Forall_impl; [exact Hgs|]. cbv beta.
    intros g (H1 & H2 & H3). repeat split; auto. intros; simpl; auto.
  - cbn [map item] in Hexec.
    apply exec_group_some in Hexec
      as (g & gs' & rest & -> & Hne & Hsl & Hexec & ->).
    destruct (IH rest gs' Hexec) as (Hs & Hlen & Hgs).
    cbn [fill hits length]. repeat split; [congruence | congruence |].
    constructor.
    + repeat split; auto. intros; apply in_or_app; auto.
    + eapply Forall_impl; [exact Hgs|]. cbv beta.
      intros g' (H1 & H2 & H3). repeat split; auto.
      intros; apply in_or_app; auto.
Qed.

Lemma replace_by_fill (text : jsstring -> jsstring)
    (ts : list (token jsstring)) :
  replace_by text ts = fill ts (map text (hits ts)).
Proof.
  induction ts as [|[c|k] ts IH]; simpl; congruence.
Qed.

(** ** Reading the groups *)

(** The group [match[index + 1]] as the code reads it. *)
Lemma assign_params_throws (keys : list jsstring) :
  forall index groups acc e,
  assign_params keys index groups acc = Throw e ->
  e = URIError /\ keys <> [] /\ exists g, In g groups /\ In "%" g.
Proof.
  induction keys as [|key keys IH]; intros index groups acc e H;
    [discriminate|].
  cbn [assign_params] in H.
  destruct (decodeURIComponent _) as [v|e'] eqn:Hd; simpl in H.
  - destruct (IH _ _ _ _ H) as (He & _ & Hg).
    split; [exact He|]. split; [discriminate | exact Hg].
  - injection H as <-. split; [exact (decode_throws _ _ Hd)|].
    split; [discriminate|]. apply decode_throws_percent in Hd.
    destruct (groups !! index) as [g|] eqn:Hg.
    + exists g. split; [|exact Hd].
      apply list_elem_of_In. eapply list_elem_of_lookup_2. exact Hg.
    + exfalso. vm_compute in Hd. intuition discriminate.
Qed.

Lemma assign_params_dom (keys : list jsstring) :
  forall index groups acc m,
  assign_params keys index groups acc = Ok m ->
  forall key,
    is_Some (m !! key)
    <-> (In key keys /\ key <> lit "__proto__") \/ is_Some (acc !! key).
Proof.
  induction keys as [|k keys IH]; intros index groups acc m H key.
  - injection H as <-. simpl. tauto.
  - cbn [assign_params] in H.
    destruct (decodeURIComponent _) as [v|e'] eqn:Hd; cbn [bind] in H;
      [|discriminate].
    rewrite (IH _ _ _ _ H key). cbn [In].
    destruct (decide (k = lit "__proto__")) as [->|Hproto].
    + rewrite set_param_proto. intuition congruence.
    + rewrite set_param_other by exact Hproto.
      destruct (decide (k = key)) as [->|Hk].
      * rewrite lookup_insert_eq. split; [auto|]. intros _. right. eauto.
      * rewrite lookup_insert_ne by exact Hk. tauto.
Qed.

Lemma assign_params_frame (keys : list jsstring) :
  forall index groups acc m,
  assign_params keys index groups acc = Ok m ->
  forall key, ~ In key keys -> m !! key = acc !! key.
Proof.
  induction keys as [|k keys IH]; intros index groups acc m H key Hkey.
  - injection H as <-. reflexivity.
  - cbn [assign_params] in H.
    destruct (decodeURIComponent _) as [v|e'] eqn:Hd; cbn [bind] in H;
      [|discriminate].
    rewrite (IH _ _ _ _ H key) by (intros Hin; apply Hkey; simpl; auto).
    apply set_param_lookup_ne. intros ->. apply Hkey. simpl; auto.
Qed.

(** The value of a name other than [__proto__] is the decoded text of
    the group of its last placeholder. *)
Lemma assign_params_values (keys : list jsstring) :
  forall index groups acc m,
  assign_params keys index groups acc = Ok m ->
  forall i key g,
    keys !! i = Some key -> groups !! (index + i) = Some g ->
    ~ In key (drop (S i) keys) ->
    key <> lit "__proto__" ->
    exists v, decodeURIComponent g = Ok v /\ m !! key = Some v.
Proof.
  induction keys as [|k keys IH];
    intros index groups acc m H i key g Hi Hg Hlast Hproto;
    [destruct i; discriminate|].
  cbn [assign_params] in H.
  destruct (decodeURIComponent _) as [v|e'] eqn:Hd; cbn [bind] in H;
    [|discriminate].
  destruct i as [|i]; simpl in Hi.
  - injection Hi as ->. rewrite Nat.add_0_r in Hg. rewrite Hg in Hd.
    exists v. split; [exact Hd|]. simpl in Hlast. rewrite drop_0 in Hlast.
    rewrite (assign_params_frame _ _ _ _ _ H key Hlast).
    rewrite set_param_other by exact Hproto.
    apply lookup_insert_eq.
  - apply (IH _ _ _ _ H i key g Hi).
    + replace (S index + i) with (index + S i) by lia. exact Hg.
    + exact Hlast.
    + exact Hproto.
Qed.

(** What [matchRoute] does, in three cases. *)
Lemma matchRoute_cases (pathname pattern : jsstring) :
  matchRoute pathname pattern =
  match exec_from (pattern_items pattern) pathname with
  | None => Ok None
  | Some groups =>
      let* r := assign_params (PathBuilder.extractParamKeys pattern) 0 groups ∅ in
      Ok (Some r)
  end.
Proof.
  unfold matchRoute. rewrite routeToRegex_items. reflexivity.
Qed.

Lemma matchRoute_some (pathname pattern : jsstring)
    (m : gmap jsstring jsstring) :
  matchRoute pathname pattern = Ok (Some m) ->
  exists groups,
    exec_from (pattern_items pattern) pathname = Some groups /\
    assign_params (PathBuilder.extractParamKeys pattern) 0 groups ∅ = Ok m.
Proof.
  rewrite matchRoute_cases.
  destruct (exec_from (pattern_items pattern) pathname) as [groups|];
    [|discriminate].
  destruct (assign_params _ 0 groups ∅) as [r|e] eqn:Ha; simpl;
    [|discriminate].
  intros [= <-]. eauto.
Qed.

(** After a match every name of the pattern but [__proto__] has a
    value. *)
Lemma matchRoute_binds (pathname pattern : jsstring)
    (m : gmap jsstring jsstring) :
  matchRoute pathname pattern = Ok (Some m) ->
  forall key,
    is_Some (m !! key)
    <-> In key (PathBuilder.extractParamKeys pattern) /\ key <> lit "__proto__".
Proof.
  intros H key. apply matchRoute_some in H as (groups & _ & Ha).
  rewrite (assign_params_dom _ _ _ _ _ Ha key), lookup_empty.
  split; [intros [H|[v Hv]]; [exact H | discriminate] | auto].
Qed.


(** A name met once is not met again further on. *)
Lemma NoDup_later (keys : list jsstring) :
  List.NoDup keys ->
  forall i key, keys !! i = Some key -> ~ In key (drop (S i) keys).
Proof.
  induction 1 as [|k keys Hk _ IH]; intros i key Hi; [destruct i; discriminate|].
  destruct i as [|i]; simpl in Hi.
  - injection Hi as <-. simpl. rewrite drop_0. exact Hk.
  - simpl. apply IH. exact Hi.
Qed.

Lemma map_eq_groups (text : jsstring -> jsstring) (keys : list jsstring) :
  forall groups,
  length groups = length keys ->
  (forall i key g, keys !! i = Some key -> groups !! i = Some g -> text key = g) ->
  map text keys = groups.
Proof.
  induction keys as [|k keys IH]; intros [|g groups] Hlen H;
    try discriminate; [reflexivity|].
  simpl. f_equal.
  - apply (H 0); reflexivity.
  - apply IH; [simpl in Hlen; lia|]. intros i key g' Hk Hg.
    apply (H (S i)); assumption.
Qed.

(** A text of unreserved characters is decoded to itself. *)
Lemma decode_unreserved (g : jsstring) :
  (forall c, In c g -> is_unreserved c = true) -> decodeURIComponent g = Ok g.
Proof.
  intros Hg. apply decode_plain. intros H.
  apply Hg, unreserved_is_plain in H. tauto.
Qed.

(** ** Matching a path written from the pattern *)

(** When every placeholder closes its segment, the path written from the
    tokens with texts that are not empty and hold no slash matches, and
    the groups capture these texts. *)
Lemma exec_filled (ts : list (token jsstring)) :
  forall groups,
  placeholders_close ts = true ->
  length groups = length (hits ts) ->
  Forall (fun g => g <> [] /\ ~ In "/" g) groups ->
  exec_from (map item ts) (fill ts groups) = Some groups.
Proof.
  induction ts as [|[c|k] ts IH]; intros groups Hclose Hlen Hgs.
  - destruct groups; [reflexivity | discriminate].
  - cbn [map item fill exec_from]. rewrite Ascii.eqb_refl.
    apply IH; assumption.
  - cbn [placeholders_close] in Hclose.
    apply andb_true_iff in Hclose as [Hnext Hclose].
    destruct groups as [|g groups]; [discriminate|].
    inversion Hgs as [|? ? [Hne Hsl] Hgs']; subst.
    simpl in Hlen. cbn [map item fill]. rewrite exec_group.
    + rewrite IH by (auto; lia). destruct g; [congruence | reflexivity].
    + destruct ts as [|[c|k'] ts']; [left; reflexivity | | discriminate].
      apply Ascii.eqb_eq in Hnext as ->. right. eexists. reflexivity.
    + exact Hsl.
    + destruct ts as [|[c|k'] ts']; [left; reflexivity | | discriminate].
      apply Ascii.eqb_eq in Hnext as ->. right. eexists. reflexivity.
Qed.

(** Groups without a percent sign are read without an exception. *)
Lemma assign_params_plain (keys : list jsstring) :
  forall index groups acc,
  (forall g, In g groups -> ~ In "%" g) ->
  exists m, assign_params keys index groups acc = Ok m.
Proof.
  induction keys as [|key keys IH]; intros index groups acc Hgs.
  - eexists. reflexivity.
  - cbn [assign_params]. rewrite decode_plain.
    + cbn [bind]. apply IH, Hgs.
    + destruct (groups !! index) as [g|] eqn:Hg.
      * apply Hgs, list_elem_of_In. eapply list_elem_of_lookup_2. exact Hg.
      * vm_compute. intuition discriminate.
Qed.

End MatcherFacts.

(** * The matcher, further *)

Import MatcherFacts.

(** X6.  [matchRoute] throws nothing but the [URIError] of
    [decodeURIComponent], and this only for a pattern with a placeholder
    and a path that matches it with, in a captured text, a percent sign. *)
Theorem matchRoute_throws_only_URIError (pathname pattern : jsstring)
    (e : error) :
  matchRoute pathname pattern = Throw e ->
  e = URIError /\ isDynamicRoute pattern = true /\ In "%" pathname.
Proof.
  rewrite matchRoute_cases.
  destruct (exec_from (pattern_items pattern) pathname) as [groups|] eqn:Hexec;
    [|discriminate].
  destruct (assign_params _ 0 groups ∅) as [r|e'] eqn:Ha; simpl;
    [discriminate|].
  intros [= <-].
  apply assign_params_throws in Ha as (He & Hkeys & g & Hg & Hpercent).
  split; [exact He|]. split.
  - apply isDynamicRoute_keys. exact Hkeys.
  - apply exec_fill in Hexec as (_ & _ & Hgs).
    rewrite List.Forall_forall in Hgs. apply (Hgs g Hg). exact Hpercent.
Qed.

(** X6, an instance: a percent sign that starts no escape. *)
Lemma matchRoute_throws_only_URIError_witness :
  URIError = URIError /\ isDynamicRoute (lit "/user/[id]") = true /\
  In "%" (lit "/user/%").
Proof.
  apply (matchRoute_throws_only_URIError (lit "/user/%") (lit "/user/[id]")).
  reflexivity.
Defined.

(** X7.  Against a pattern without a placeholder a path matches exactly
    when it is the pattern, character for character; the match has no
    parameter.  The characters with a meaning in regular expressions
    stand for themselves. *)
Theorem matchRoute_static_pattern (pathname pattern : jsstring) :
  isDynamicRoute pattern = false ->
  matchRoute pathname pattern
  = Ok (if bool_decide (pathname = pattern) then Some ∅ else None).
Proof.
  intros H. rewrite matchRoute_cases. unfold pattern_items.
  assert (hits (scan placeholder_at pattern) = []) as Hh.
  { unfold isDynamicRoute in H.
    destruct (hits (scan placeholder_at pattern)); [reflexivity | discriminate]. }
  rewrite PatternFacts.extractParamKeys_hits, Hh.
  rewrite scan_no_hits by exact Hh. rewrite map_map.
  change (map (fun x => item (Lit x)) pattern) with (map RChar pattern).
  rewrite exec_chars. destruct (bool_decide (pathname = pattern)); reflexivity.
Qed.

(** X7, an instance: the dot of the pattern is a dot, not any character. *)
Lemma matchRoute_static_pattern_witness :
  matchRoute (lit "/v1x0/docs") (lit "/v1.0/docs") = Ok None.
Proof.
  exact (matchRoute_static_pattern (lit "/v1x0/docs") (lit "/v1.0/docs") eq_refl).
Defined.

(** X8.  The parameter map of a match has as its keys the parameter
    names of the pattern other than [__proto__], all of them and no
    other name. *)
Theorem matchRoute_result_keys (pathname pattern : jsstring)
    (m : gmap jsstring jsstring) :
  matchRoute pathname pattern = Ok (Some m) ->
  forall key,
    is_Some (m !! key)
    <-> In key (PathBuilder.extractParamKeys pattern) /\ key <> lit "__proto__".
Proof.
  intros H key. apply matchRoute_some in H as (groups & _ & Ha).
  rewrite (assign_params_dom _ _ _ _ _ Ha key), lookup_empty.
  split; [intros [H|[v Hv]]; [exact H | discriminate] | auto].
Qed.

(** X8, an instance: a pattern with the name [__proto__], at this
    name. *)
Lemma matchRoute_result_keys_witness :
  is_Some (({[ lit "id" := lit "7" ]} : gmap jsstring jsstring)
           !! lit "__proto__")
  <-> In (lit "__proto__")
        (PathBuilder.extractParamKeys (lit "/[__proto__]/[id]")) /\
      lit "__proto__" <> lit "__proto__".
Proof.
  apply (matchRoute_result_keys (lit "/x/7")).
  reflexivity.
Defined.

(** X9.  For a pattern in which no placeholder is directly followed by
    another one, a path that matches is the pattern with, in the place of
    each placeholder, a text that is not empty and holds no slash; and
    the parameter map gives each name other than [__proto__] the decoded
    text in the place of its placeholder, the last one when the name
    comes more than once. *)
Theorem matchRoute_sound (pathname pattern : jsstring)
    (m : gmap jsstring jsstring) :
  placeholders_apart pattern = true ->
  matchRoute pathname pattern = Ok (Some m) ->
  exists groups,
    pathname = fill (scan placeholder_at pattern) groups /\
    length groups = length (PathBuilder.extractParamKeys pattern) /\
    Forall (fun g => g <> [] /\ ~ In "/" g) groups /\
    forall i key g,
      PathBuilder.extractParamKeys pattern !! i = Some key ->
      groups !! i = Some g ->
      ~ In key (drop (S i) (PathBuilder.extractParamKeys pattern)) ->
      key <> lit "__proto__" ->
      exists v, decodeURIComponent g = Ok v /\ m !! key = Some v.
Proof.
  intros _ H. apply matchRoute_some in H as (groups & Hexec & Ha).
  apply exec_fill in Hexec as (Hs & Hlen & Hgs).
  exists groups. rewrite PatternFacts.extractParamKeys_hits in *.
  repeat split; auto.
  - eapply Forall_impl; [exact Hgs|]. cbv beta. tauto.
  - intros i key g Hi Hg Hlast Hproto.
    exact (assign_params_values _ _ _ _ _ Ha i key g Hi Hg Hlast Hproto).
Qed.

(** X9, an instance: a path with an escape. *)
Lemma matchRoute_sound_witness :
  exists groups,
    lit "/user/a%20b" = fill (scan placeholder_at (lit "/user/[id]")) groups /\
    length groups = length (PathBuilder.extractParamKeys (lit "/user/[id]")) /\
    Forall (fun g => g <> [] /\ ~ In "/" g) groups /\
    forall i key g,
      PathBuilder.extractParamKeys (lit "/user/[id]") !! i = Some key ->
      groups !! i = Some g ->
      ~ In key (drop (S i) (PathBuilder.extractParamKeys (lit "/user/[id]"))) ->
      key <> lit "__proto__" ->
      exists v, decodeURIComponent g = Ok v /\
                ({[ lit "id" := lit "a b" ]} : gmap jsstring jsstring) !! key
                = Some v.
Proof.
  apply (matchRoute_sound (lit "/user/a%20b") (lit "/user/[id]"));
    reflexivity.
Defined.



(** X11.  For a pattern whose parameter names differ from one another,
    none of them [__proto__], and a path of unreserved characters and
    slashes, building the path from the parameter map of its match gives
    the path back. *)
Theorem match_then_build_identity (pathname pattern : jsstring)
    (m : gmap jsstring jsstring) :
  matchRoute pathname pattern = Ok (Some m) ->
  List.NoDup (PathBuilder.extractParamKeys pattern) ->
  ~ In (lit "__proto__") (PathBuilder.extractParamKeys pattern) ->
  (forall c, In c pathname -> is_unreserved c = true \/ c = "/") ->
  buildPath pattern (Some m) = Ok pathname.
Proof.
  intros H Hdup Hproto Hchars.
  pose proof (matchRoute_binds _ _ _ H) as Hbinds.
  apply matchRoute_some in H as (groups & Hexec & Ha).
  apply exec_fill in Hexec as (Hs & Hlen & Hgs).
  rewrite PatternFacts.extractParamKeys_hits in *.
  assert (forall key, In key (hits (scan placeholder_at pattern)) ->
            key <> lit "__proto__") as Hother
    by (intros key Hin ->; contradiction).
  unfold buildPath.
  rewrite (replace_with_total _
             (fun key => encodeURIComponent (value_in m key))).
  - f_equal. rewrite replace_by_fill, Hs. f_equal.
    apply map_eq_groups; [congruence|]. intros i key g Hi Hg.
    assert (In key (hits (scan placeholder_at pattern))) as Hin'
      by (apply list_elem_of_In; eapply list_elem_of_lookup_2; exact Hi).
    destruct (assign_params_values _ _ _ _ _ Ha i key g Hi Hg)
      as (v & Hv & Hm); [apply NoDup_later; assumption | auto |].
    rewrite List.Forall_forall in Hgs.
    destruct (Hgs g) as (_ & Hslash & Hin).
    { apply list_elem_of_In. eapply list_elem_of_lookup_2. exact Hg. }
    assert (forall c, In c g -> is_unreserved c = true) as Hg'.
    { intros c Hc. destruct (Hchars c) as [Hu| ->]; [|exact Hu|].
      - apply Hin, Hc.
      - contradiction. }
    rewrite decode_unreserved in Hv by exact Hg'. injection Hv as <-.
    unfold value_in. rewrite Hm. apply encode_unreserved, Hg'.
  - intros key Hin.
    assert (is_Some (m !! key)) as [v Hv] by (apply Hbinds; auto).
    unfold get_param, value_in. rewrite Hv. reflexivity.
Qed.

(** X11, an instance: the path of the documentation. *)
Lemma match_then_build_identity_witness :
  buildPath (lit "/user/[userId]/post/[postId]")
    (Some (<[ lit "userId" := lit "123" ]> {[ lit "postId" := lit "456" ]}))
  = Ok (lit "/user/123/post/456").
Proof.
  apply match_then_build_identity.
  - reflexivity.
  - change (PathBuilder.extractParamKeys (lit "/user/[userId]/post/[postId]"))
      with [lit "userId"; lit "postId"].
    constructor; [intros [H|[]]; vm_compute in H; discriminate H|].
    constructor; [intros []|]. constructor.
  - change (PathBuilder.extractParamKeys (lit "/user/[userId]/post/[postId]"))
      with [lit "userId"; lit "postId"].
    intros [H|[H|[]]]; vm_compute in H; discriminate H.
  - intros c Hc. cbv in Hc.
    repeat (destruct Hc as [<-|Hc];
            [first [left; reflexivity | right; reflexivity]|]).
    destruct Hc.
Defined.

(** * Further properties of the scanner *)

Module ScannerFacts.
Import JS PathBuilder Scanner Notions Shapes JSFacts PatternFacts WalkFacts.
Import BuilderFacts.

(** ** The call of a route creator *)

Lemma space1_byte (c : ascii) : is_space1 c = true -> c <> "(".
Proof. intros H ->. discriminate. Qed.

Lemma space2_byte (c1 c2 : ascii) :
  is_space2 c1 c2 = true -> c1 <> "(" /\ is_space1 c1 = false.
Proof.
  unfold is_space2, is_space1. rewrite andb_true_iff, !byte_in_spec.
  intros [H1 _]. split.
  - intros ->. vm_compute in H1. destruct H1 as [H1 _]. apply H1. reflexivity.
  - apply orb_false_iff. split; apply byte_in_false; lia.
Qed.

Lemma space3_first (c1 c2 c3 : ascii) :
  is_space3 c1 c2 c3 = true -> (225 <= N_of_ascii c1 <= 239)%N.
Proof.
  unfold is_space3.
  rewrite !orb_true_iff, !andb_true_iff, !orb_true_iff, !byte_in_spec.
  lia.
Qed.

Lemma space3_byte (c1 c2 c3 : ascii) :
  is_space3 c1 c2 c3 = true ->
  c1 <> "(" /\ is_space1 c1 = false /\ forall c, is_space2 c1 c = false.
Proof.
  intros H. apply space3_first in H. repeat split.
  - intros ->. vm_compute in H. destruct H as [H _]. apply H. reflexivity.
  - unfold is_space1. apply orb_false_iff. split; apply byte_in_false; lia.
  - intros c. unfold is_space2. apply andb_false_iff. left.
    apply byte_in_false. lia.
Qed.

Lemma spaces_then_paren_white (spaces after : jsstring) :
  white_space spaces -> spaces_then_paren (spaces ++ "(" :: after) = true.
Proof.
  induction 1 as [|c s Hc _ IH|c1 c2 s Hc _ IH|c1 c2 c3 s Hc _ IH];
    simpl app; cbn [spaces_then_paren].
  - reflexivity.
  - pose proof (space1_byte _ Hc) as Hp. apply Ascii.eqb_neq in Hp.
    rewrite Hp, Hc. exact IH.
  - destruct (space2_byte _ _ Hc) as [Hp H1].
    apply Ascii.eqb_neq in Hp. rewrite Hp, H1, Hc. exact IH.
  - destruct (space3_byte _ _ _ Hc) as (Hp & H1 & H2).
    apply Ascii.eqb_neq in Hp. rewrite Hp, H1, H2, Hc. exact IH.
Qed.

Lemma spaces_then_paren_shape (n : nat) :
  forall s, length s <= n -> spaces_then_paren s = true ->
  exists spaces after, s = spaces ++ "(" :: after /\ white_space spaces.
Proof.
  induction n as [|n IH]; intros s Hn H.
  { destruct s; [discriminate | simpl in Hn; lia]. }
  destruct s as [|c1 s1]; [discriminate|]. simpl in Hn.
  cbn [spaces_then_paren] in H.
  destruct (Ascii.eqb_spec c1 "(") as [->|Hp].
  { exists [], s1. split; [reflexivity | constructor]. }
  destruct (is_space1 c1) eqn:H1.
  { destruct (IH s1) as (sp & after & -> & Hsp); [lia | exact H |].
    exists (c1 :: sp), after. split; [reflexivity|].
    apply white_space_1; assumption. }
  destruct s1 as [|c2 s2]; [discriminate|]. simpl in Hn.
  destruct (is_space2 c1 c2) eqn:H2.
  { destruct (IH s2) as (sp & after & -> & Hsp); [lia | exact H |].
    exists (c1 :: c2 :: sp), after. split; [reflexivity|].
    apply white_space_2; assumption. }
  destruct s2 as [|c3 s3]; [discriminate|]. simpl in Hn.
  destruct (is_space3 c1 c2 c3) eqn:H3; [|discriminate].
  destruct (IH s3) as (sp & after & -> & Hsp); [lia | exact H |].
  exists (c1 :: c2 :: c3 :: sp), after. split; [reflexivity|].
  apply white_space_3; assumption.
Qed.

Lemma firstn_prefix (name rest : jsstring) :
  firstn (length name) (name ++ rest) = name.
Proof.
  induction name as [|c name IH]; [reflexivity|]. simpl. rewrite IH.
  reflexivity.
Qed.

Lemma skipn_prefix (name rest : jsstring) :
  skipn (length name) (name ++ rest) = rest.
Proof.
  induction name as [|c name IH]; [reflexivity|]. exact IH.
Qed.

Lemma startsWith_app (name s : jsstring) :
  startsWith name s = true <-> exists rest, s = name ++ rest.
Proof.
  unfold startsWith. rewrite bool_decide_eq_true. split.
  - intros H. exists (skipn (length name) s).
    rewrite <- H at 1. symmetry. apply firstn_skipn.
  - intros [rest ->]. apply firstn_prefix.
Qed.

Lemma creator_call_at_shape (s : jsstring) :
  creator_call_at s = true <->
  exists name spaces after,
    s = name ++ spaces ++ "(" :: after /\
    (name = lit "createRoute" \/ name = lit "createDynamicRoute") /\
    white_space spaces.
Proof.
  unfold creator_call_at. rewrite orb_true_iff, !andb_true_iff. split.
  - intros [[Hs Hp]|[Hs Hp]]; apply startsWith_app in Hs as [rest ->];
      rewrite skipn_prefix in Hp;
      apply (spaces_then_paren_shape (length rest)) in Hp
        as (sp & after & -> & Hsp); try lia.
    + exists (lit "createRoute"), sp, after. auto.
    + exists (lit "createDynamicRoute"), sp, after. auto.
  - intros (name & sp & after & -> & [->| ->] & Hsp); [left|right];
      (split; [apply startsWith_app; eauto|]);
      rewrite skipn_prefix; apply spaces_then_paren_white, Hsp.
Qed.

(** The shape of a text with a call, seen from a place in it. *)
Lemma creator_call_from_shape (s : jsstring) :
  forall after_word,
  creator_call_from after_word s = true <->
  exists before name spaces after,
    s = before ++ name ++ spaces ++ "(" :: after /\
    (name = lit "createRoute" \/ name = lit "createDynamicRoute") /\
    white_space spaces /\
    (before = [] /\ after_word = false \/
     exists b c, before = b ++ [c] /\ is_word_char c = false).
Proof.
  induction s as [|c s IH]; intros aw.
  - split; [discriminate|].
    intros (before & name & sp & after & Hs & [->| ->] & _);
      destruct before; discriminate.
  - cbn [creator_call_from].
    rewrite orb_true_iff, andb_true_iff, negb_true_iff, IH,
      creator_call_at_shape.
    split.
    + intros [[Haw (name & sp & after & Hs & Hn & Hsp)]
             |(before & name & sp & after & -> & Hn & Hsp & Hb)].
      * exists [], name, sp, after. repeat split; auto.
      * exists (c :: before), name, sp, after. repeat split; auto.
        right. destruct Hb as [[-> Hc]|(b & c' & -> & Hc')].
        -- exists [], c. auto.
        -- exists (c :: b), c'. auto.
    + intros (before & name & sp & after & Hs & Hn & Hsp & Hb).
      destruct before as [|c0 before].
      * left. destruct Hb as [[_ Haw]|(b & c' & Hb & _)].
        -- split; [exact Haw|]. exists name, sp, after. auto.
        -- destruct b; discriminate.
      * right. simpl in Hs. injection Hs as <- ->.
        exists before, name, sp, after. repeat split; auto.
        destruct Hb as [[Hb _]|(b & c' & Hb & Hc')]; [discriminate|].
        destruct b as [|c1 b]; simpl in Hb.
        -- injection Hb as -> <-. left. auto.
        -- injection Hb as -> ->. right. eauto.
Qed.

(** ** Routes and the path builder *)



(** Every route of a scan is made by [route_of]. *)
Lemma scanned_route (path_join : jsstring -> jsstring -> jsstring)
    (excludePath : option (jsstring -> bool))
    (fs : filesystem) (appDir : jsstring) (routes : list ScannedRoute)
    (r : ScannedRoute) :
  scanRoutes path_join excludePath fs appDir = Ok routes -> In r routes ->
  exists entries segments name content,
    fs appDir = Some (IsDir entries) /\
    file_at entries segments name content /\
    is_route_page name content = true /\
    r = route_of (path_join (fold_left path_join segments appDir) name)
          segments.
Proof.
  unfold scanRoutes. destruct (fs appDir) as [[content|entries]|];
    [discriminate| |]; intros [= <-] Hr; [|destruct Hr].
  apply walk_found in Hr as (segments & name & content & Hat & _ & Hp & ->).
  exists entries, segments, name, content. auto.
Qed.

(** ** Exclusion *)

Lemma skipped_excludes (excludePath : option (jsstring -> bool))
    (base : list jsstring) (d : jsstring) :
  skipped excludePath base d
  = startsWith ["_"] d || excludes excludePath ("/" :: join ["/"] (base ++ [d])).
Proof. destruct excludePath; reflexivity. Qed.

Section Monotone.
Variable path_join : jsstring -> jsstring -> jsstring.
Variables exclude1 exclude2 : option (jsstring -> bool).
Hypothesis more :
  forall p, excludes exclude1 p = true -> excludes exclude2 p = true.

Lemma walk_sublist_list (entries : list dirent) :
  Forall (fun e => forall dir base,
            sublist (walk_entry path_join exclude2 dir base e)
                    (walk_entry path_join exclude1 dir base e)) entries ->
  forall dir base,
  sublist (walk path_join exclude2 dir base entries)
          (walk path_join exclude1 dir base entries).
Proof.
  induction 1 as [|e es He _ IH]; intros dir base.
  - constructor.
  - rewrite !walk_cons. apply sublist_app; [apply He | apply IH].
Qed.

Lemma walk_entry_sublist (e : dirent) :
  forall dir base,
  sublist (walk_entry path_join exclude2 dir base e)
          (walk_entry path_join exclude1 dir base e).
Proof.
  induction e as [name content|d sub IH] using dirent_induction;
    intros dir base.
  - rewrite !walk_entry_file. reflexivity.
  - rewrite !walk_entry_dir, !skipped_excludes.
    destruct (startsWith ["_"] d); [constructor|]. cbn [orb].
    destruct (excludes exclude2 _) eqn:H2; [apply sublist_nil_l|].
    destruct (excludes exclude1 _) eqn:H1.
    + apply more in H1. congruence.
    + apply walk_sublist_list, IH.
Qed.

Lemma walk_sublist (entries : list dirent) (dir : jsstring)
    (base : list jsstring) :
  sublist (walk path_join exclude2 dir base entries)
          (walk path_join exclude1 dir base entries).
Proof.
  apply walk_sublist_list, Forall_forall. intros e _. apply walk_entry_sublist.
Qed.
End Monotone.

(** ** The source of the regular expression *)

Lemma replace_by_lift (esc : ascii -> bool) (ts : list (token jsstring)) :
  replace_by (fun _ => group_source) (flat_map (lift esc) ts)
  = flat_map (render esc) ts.
Proof.
  induction ts as [|[c|k] ts IH]; [reflexivity| |].
  - cbn [flat_map lift render]. destruct (esc c); simpl; rewrite IH; reflexivity.
  - cbn [flat_map lift render app replace_by]. rewrite IH. reflexivity.
Qed.

(** The test of the scanner, as a shape of the text. *)
Lemma usesRouteCreator_calls (content : jsstring) :
  usesRouteCreator content = true <-> calls_route_creator content.
Proof.
  unfold usesRouteCreator, calls_route_creator, ends_at_boundary.
  rewrite creator_call_from_shape. split;
    intros (before & name & sp & after & Hs & Hn & Hsp & Hb);
    exists before, name, sp, after; repeat split; auto;
    destruct Hb as [Hb|Hb]; auto; destruct Hb; auto.
Qed.

End ScannerFacts.

(** * The scanner, further *)

Import Scanner ScannerFacts.

(** C6.  The routes the scanner returns are those of the files the
    traversal reaches that are named [page.tsx] or [page.ts] and whose
    content holds a call of [createRoute] or [createDynamicRoute]: one of
    the two names, at the start of the text or behind a character that is
    no word character, followed by white space, if any, and an opening
    parenthesis.  No other file gives a route.  The route pattern of such
    a file is ["/"] followed by the directory names from the root to the
    file joined by slashes, which is ["/"] for a file of the root
    itself. *)
Theorem scan_recognizes_route_pages
    (path_join : jsstring -> jsstring -> jsstring)
    (excludePath : option (jsstring -> bool))
    (fs : filesystem) (appDir : jsstring) (routes : list ScannedRoute) :
  scanRoutes path_join excludePath fs appDir = Ok routes ->
  (forall r, In r routes <->
     exists entries segments name content,
       fs appDir = Some (IsDir entries) /\
       file_at entries segments name content /\
       (forall i d, segments !! i = Some d ->
          startsWith ["_"] d = false /\
          forall exclude, excludePath = Some exclude ->
            exclude ("/" :: join ["/"] (take (S i) segments)) = false) /\
       (name = lit "page.tsx" \/ name = lit "page.ts") /\
       calls_route_creator content /\
       r = {| filePath := path_join (fold_left path_join segments appDir) name;
              routePath := "/" :: join ["/"] segments;
              params := Scanner.extractParamKeys ("/" :: join ["/"] segments);
              isStatic :=
                Nat.eqb
                  (length (Scanner.extractParamKeys ("/" :: join ["/"] segments)))
                  0 |})
  /\ "/" :: join ["/"] [] = lit "/".
Proof.
  intros Hscan. split; [|reflexivity]. intros r.
  assert (forall name content,
            is_route_page name content = true <->
            (name = lit "page.tsx" \/ name = lit "page.ts") /\
            calls_route_creator content) as Hpage.
  { intros name content. unfold is_route_page.
    rewrite andb_true_iff, orb_true_iff, !bool_decide_eq_true.
    rewrite usesRouteCreator_calls. reflexivity. }
  unfold scanRoutes in Hscan.
  destruct (fs appDir) as [[content|entries]|]; try discriminate.
  - injection Hscan as <-. rewrite (walk_found path_join excludePath).
    unfold found. split.
    + intros (segments & name & content & Hat & Hd & Hp & ->).
      exists entries, segments, name, content.
      pose proof (proj1 (descends_root excludePath segments) Hd) as Hd'.
      apply Hpage in Hp as [Hn Hu].
      repeat split; auto; eapply Hd'; eauto.
    + intros (entries' & segments & name & content & [= <-] & Hat & Hd & Hn & Hu & ->).
      exists segments, name, content.
      pose proof (proj2 (descends_root excludePath segments) Hd) as Hd'.
      repeat split; auto. apply Hpage. auto.
  - injection Hscan as <-. split; [intros []|].
    intros (entries & _ & _ & _ & H & _). discriminate.
Qed.

(** C6, an instance: a route of the application tree, with the call in
    the text of its page. *)
Lemma scan_recognizes_route_pages_witness :
  In {| filePath := lit "src/app/user/[id]/page.tsx";
        routePath := lit "/user/[id]";
        params := [lit "id"];
        isStatic := false |}
     (walk Example.path_join None (lit "src/app") [] Example.app).
Proof.
  apply (scan_recognizes_route_pages Example.path_join None Example.fs
           (lit "src/app") _ eq_refl).
  exists Example.app, [lit "user"; lit "[id]"], (lit "page.tsx"),
    (lit "export default createRoute({ component: Page });").
  split; [reflexivity|]. split.
  { eapply (file_below _ (lit "user")); [right; right; left; reflexivity|].
    eapply (file_below _ (lit "[id]")); [left; reflexivity|].
    apply file_here. left. reflexivity. }
  split.
  { intros i d H. split; [|discriminate].
    destruct i as [|[|[|i]]]; simpl in H; try discriminate;
      injection H as <-; reflexivity. }
  split; [left; reflexivity|]. split; [|reflexivity].
  exists (lit "export default "), (lit "createRoute"), [],
    (lit "{ component: Page });").
  split; [reflexivity|]. split; [left; reflexivity|].
  split; [constructor|]. right.
  exists (lit "export default"), " "%char. split; reflexivity.
Defined.

(** X12.  A file uses a route creator exactly when its text holds
    [createRoute] or [createDynamicRoute], at the start of the text or
    behind a character that is no word character, followed by white
    space, if any, and an opening parenthesis. *)
Theorem usesRouteCreator_iff_call (content : jsstring) :
  usesRouteCreator content = true <->
  exists before name spaces after,
    content = before ++ name ++ spaces ++ "(" :: after /\
    (name = lit "createRoute" \/ name = lit "createDynamicRoute") /\
    white_space spaces /\ ends_at_boundary before.
Proof.
  unfold usesRouteCreator. rewrite creator_call_from_shape.
  unfold ends_at_boundary. split;
    intros (before & name & sp & after & Hs & Hn & Hsp & Hb);
    exists before, name, sp, after; repeat split; auto;
    destruct Hb as [Hb|Hb]; auto; destruct Hb; auto.
Qed.



(** X14.  Excluding more gives fewer routes: when every path the first
    exclusion predicate rejects is rejected by the second, the routes
    scanned with the second are routes scanned with the first, in the
    same order. *)
Theorem scan_exclusion_monotone
    (path_join : jsstring -> jsstring -> jsstring)
    (exclude1 exclude2 : option (jsstring -> bool))
    (fs : filesystem) (appDir : jsstring)
    (routes1 routes2 : list ScannedRoute) :
  (forall p, excludes exclude1 p = true -> excludes exclude2 p = true) ->
  scanRoutes path_join exclude1 fs appDir = Ok routes1 ->
  scanRoutes path_join exclude2 fs appDir = Ok routes2 ->
  sublist routes2 routes1.
Proof.
  intros Hmore. unfold scanRoutes.
  destruct (fs appDir) as [[content|entries]|]; try discriminate;
    intros [= <-] [= <-].
  - apply walk_sublist, Hmore.
  - constructor.
Qed.

(** X14, an instance: the application tree without what is below
    [/user]. *)
Lemma scan_exclusion_monotone_witness :
  sublist
    (walk Example.path_join (Some (startsWith (lit "/user"))) (lit "src/app")
       [] Example.app)
    (walk Example.path_join None (lit "src/app") [] Example.app).
Proof.
  apply (scan_exclusion_monotone Example.path_join None
           (Some (startsWith (lit "/user"))) Example.fs (lit "src/app")).
  - discriminate.
  - reflexivity.
  - reflexivity.
Defined.

(** X15.  The source of the regular expression of a pattern, read from
    left to right: ["^"], then [([^/]+)] for each placeholder and each
    other character as it is, behind a backslash when it has a meaning in
    regular expressions, then ["$"].  [routePathToRegexString] writes the
    same with a backslash before each slash outside the placeholders as
    well. *)
Theorem regex_source_closed_form (pattern : jsstring) :
  routeToRegex_source pattern
  = "^" :: flat_map (render is_syntax_char) (scan placeholder_at pattern)
      ++ ["$"]
  /\ routePathToRegexString pattern
     = "^" :: flat_map (render is_syntax_or_slash) (scan placeholder_at pattern)
         ++ ["$"].
Proof.
  split.
  - unfold routeToRegex_source, escape_syntax_chars.
    change (replace_chars is_syntax_char (fun c => ["\"; c]) pattern)
      with (escape_with is_syntax_char pattern).
    rewrite (scan_escaped is_syntax_char) with (n := length pattern);
      [|auto|lia].
    rewrite replace_by_lift. reflexivity.
  - unfold routePathToRegexString. rewrite escape_then_slashes.
    rewrite (scan_escaped is_syntax_or_slash) with (n := length pattern).
    + rewrite replace_by_lift. reflexivity.
    + intros c H. unfold is_syntax_or_slash. rewrite H. reflexivity.
    + lia.
Qed.

(** * Further properties of the generator *)

Module GeneratorFacts.
Import JS Scanner Generator Notions Shapes WalkFacts ScannerFacts.

(** ** Import paths *)

Lemma endsWith_iff (suffix s : jsstring) :
  endsWith suffix s = true <-> exists p, s = p ++ suffix.
Proof.
  unfold endsWith. rewrite startsWith_app. split.
  - intros [rest H]. exists (rev rest).
    rewrite <- (rev_involutive s), H, rev_app_distr, rev_involutive.
    reflexivity.
  - intros [p ->]. exists (rev p). apply rev_app_distr.
Qed.

Lemma endsWith_same (suffix p : jsstring) : endsWith suffix (p ++ suffix) = true.
Proof. apply endsWith_iff. eauto. Qed.

(** Two texts that end in different characters are different. *)
Lemma endsWith_other (suffix ext p : jsstring) (c d : ascii)
    (s1 s2 : jsstring) :
  rev suffix = c :: s1 -> rev ext = d :: s2 -> c <> d ->
  endsWith suffix (p ++ ext) = false.
Proof.
  intros Hs He Hcd. destruct (endsWith suffix (p ++ ext)) eqn:H; [|reflexivity].
  apply endsWith_iff in H as [q H]. apply (f_equal (@rev ascii)) in H.
  rewrite !rev_app_distr, Hs, He in H. simpl in H. congruence.
Qed.

Lemma strip_suffix (p ext : jsstring) :
  firstn (length (p ++ ext) - length ext) (p ++ ext) = p.
Proof.
  rewrite length_app, Nat.add_sub. apply firstn_prefix.
Qed.

Lemma strip_extension_ext (p ext : jsstring) :
  In ext [lit ".tsx"; lit ".ts"; lit ".jsx"; lit ".js"] ->
  strip_extension (p ++ ext) = p.
Proof.
  intros [<-|[<-|[<-|[<-|[]]]]]; unfold strip_extension.
  - rewrite endsWith_same. apply strip_suffix.
  - rewrite (endsWith_other (lit ".tsx") (lit ".ts") p "x" "s" _ _ eq_refl eq_refl)
      by discriminate.
    rewrite endsWith_same. apply strip_suffix.
  - rewrite (endsWith_other (lit ".ts") (lit ".jsx") p "s" "x" _ _ eq_refl eq_refl)
      by discriminate.
    assert (endsWith (lit ".tsx") (p ++ lit ".jsx") = false) as ->.
    { destruct (endsWith (lit ".tsx") (p ++ lit ".jsx")) eqn:H; [|reflexivity].
      apply endsWith_iff in H as [q H]. apply (f_equal (@rev ascii)) in H.
      rewrite !rev_app_distr in H. discriminate. }
    rewrite endsWith_same. apply strip_suffix.
  - rewrite (endsWith_other (lit ".tsx") (lit ".js") p "x" "s" _ _ eq_refl eq_refl)
      by discriminate.
    rewrite (endsWith_other (lit ".jsx") (lit ".js") p "x" "s" _ _ eq_refl eq_refl)
      by discriminate.
    assert (endsWith (lit ".ts") (p ++ lit ".js") = false) as ->.
    { destruct (endsWith (lit ".ts") (p ++ lit ".js")) eqn:H; [|reflexivity].
      apply endsWith_iff in H as [q H]. apply (f_equal (@rev ascii)) in H.
      rewrite !rev_app_distr in H. discriminate. }
    rewrite endsWith_same. apply strip_suffix.
Qed.

Lemma toImportPath_ext (p ext : jsstring) :
  In ext [lit ".tsx"; lit ".ts"; lit ".jsx"; lit ".js"] ->
  toImportPath (p ++ ext)
  = lit "@/" ++ (if startsWith (lit "src/") p then skipn 4 p else p).
Proof.
  intros Hext. unfold toImportPath. rewrite strip_extension_ext by exact Hext.
  destruct (startsWith (lit "src/") p); reflexivity.
Qed.

(** ** Paths of the scanner *)

Lemma fold_join (path_join : jsstring -> jsstring -> jsstring)
    (segments : list jsstring) :
  (forall d n, path_join d n = d ++ "/" :: n) ->
  forall dir, fold_left path_join segments dir = dir ++ below segments.
Proof.
  intros Hjoin. induction segments as [|d segments IH]; intros dir.
  - symmetry. apply app_nil_r.
  - simpl. rewrite IH, Hjoin, <- app_assoc. reflexivity.
Qed.

Lemma below_is_route (segments : list jsstring) :
  segments <> [] -> below segments = "/" :: join ["/"] segments.
Proof.
  induction segments as [|d segments IH]; [congruence|]. intros _.
  destruct segments as [|d' segments].
  - simpl. rewrite app_nil_r. reflexivity.
  - change (below (d :: d' :: segments))
      with ("/" :: d ++ below (d' :: segments)).
    rewrite IH by discriminate. reflexivity.
Qed.

Lemma route_page_name (name content : jsstring) :
  is_route_page name content = true ->
  exists ext, name = lit "page" ++ ext /\ In ext [lit ".tsx"; lit ".ts"].
Proof.
  unfold is_route_page.
  rewrite andb_true_iff, orb_true_iff, !bool_decide_eq_true.
  intros [[->| ->] _]; eexists; (split; [reflexivity|]); simpl; auto.
Qed.

(** Two files written over a store: they are there, and the others are
    as they were. *)
Lemma two_writes_frame (t r a b : jsstring) (m : gmap jsstring jsstring) :
  is_Some (<[r := b]> (<[t := a]> m) !! t) /\
  is_Some (<[r := b]> (<[t := a]> m) !! r) /\
  forall p, p <> t -> p <> r -> <[r := b]> (<[t := a]> m) !! p = m !! p.
Proof.
  repeat split.
  - destruct (decide (r = t)) as [->|Hne]; simplify_map_eq; eauto.
  - simplify_map_eq. eauto.
  - intros p Ht Hr. by simplify_map_eq.
Qed.

End GeneratorFacts.

(** * The generator, further *)

Import Generator GeneratorFacts.

(** X16.  A run of the generator writes [types.ts] and [routes.ts] in the
    output directory and leaves every other file as it was. *)
Theorem generate_writes_two_files
    (path_join : jsstring -> jsstring -> jsstring)
    (array_sort : (ScannedRoute -> ScannedRoute -> Z) ->
                  list ScannedRoute -> list ScannedRoute)
    (typesTemplate : jsstring -> jsstring -> jsstring -> jsstring)
    (routesTemplate : jsstring -> list RouteInfo -> list RouteInfo -> jsstring)
    (config : RouteCodegenConfig) (fs : filesystem)
    (before after : gmap jsstring jsstring) :
  generate path_join array_sort typesTemplate routesTemplate config fs before
  = Ok after ->
  let dir :=
    default (lit ".generated/next-typed-codegen-route") (outputDir config) in
  is_Some (after !! path_join dir (lit "types.ts")) /\
  is_Some (after !! path_join dir (lit "routes.ts")) /\
  forall p,
    p <> path_join dir (lit "types.ts") ->
    p <> path_join dir (lit "routes.ts") ->
    after !! p = before !! p.
Proof.
  intros H dir. unfold generate in H. fold dir in H.
  destruct (scanRoutes path_join (excludePath config) fs
              (default (lit "src/app") (appDir config)))
    as [scanned|e]; [|discriminate].
  cbn [bind] in H.
  match type of H with Ok ?x = _ => assert (x = after) as <- by congruence end.
  apply two_writes_frame.
Qed.

(** X16, an instance: a file of the output directory that is none of the
    two. *)
Lemma generate_writes_two_files_witness :
  exists after,
    generate Example.path_join Example.array_sort Example.typesTemplate
      Example.routesTemplate Example.config Example.fs
      {[ lit ".generated/next-typed-codegen-route/utils.ts" := lit "kept" ]}
    = Ok after /\
    after !! lit ".generated/next-typed-codegen-route/utils.ts"
    = Some (lit "kept").
Proof.
  eexists. split; [reflexivity|].
  destruct (generate_writes_two_files Example.path_join Example.array_sort
              Example.typesTemplate Example.routesTemplate Example.config
              Example.fs
              {[ lit ".generated/next-typed-codegen-route/utils.ts" := lit "kept" ]}
              _ eq_refl) as (_ & _ & H).
  rewrite H; [reflexivity | discriminate | discriminate].
Defined.

(** X17.  When the application directory does not exist the generator
    does not fail: it writes the two files for no route at all. *)
Theorem generate_without_app_directory
    (path_join : jsstring -> jsstring -> jsstring)
    (array_sort : (ScannedRoute -> ScannedRoute -> Z) ->
                  list ScannedRoute -> list ScannedRoute)
    (typesTemplate : jsstring -> jsstring -> jsstring -> jsstring)
    (routesTemplate : jsstring -> list RouteInfo -> list RouteInfo -> jsstring)
    (config : RouteCodegenConfig) (fs : filesystem)
    (out : gmap jsstring jsstring) :
  fs (default (lit "src/app") (appDir config)) = None ->
  (forall compare, array_sort compare [] = []) ->
  let dir :=
    default (lit ".generated/next-typed-codegen-route") (outputDir config) in
  generate path_join array_sort typesTemplate routesTemplate config fs out
  = Ok (<[path_join dir (lit "routes.ts") := routesTemplate [] [] []]>
          (<[path_join dir (lit "types.ts") := typesTemplate [] [] []]> out)).
Proof.
  intros Hfs Hsort dir. unfold generate, scanRoutes. rewrite Hfs. cbn [bind].
  destruct (sortRoutes config) as [compare|]; [rewrite Hsort|]; reflexivity.
Qed.

(** X17, an instance: a configuration that names a directory the tree
    does not have. *)
Lemma generate_without_app_directory_witness :
  generate Example.path_join Example.array_sort Example.typesTemplate
    Example.routesTemplate
    {| appDir := Some (lit "app"); outputDir := Some (lit "out");
       excludePath := None; sortRoutes := None |}
    Example.fs ∅
  = Ok (<[lit "out/routes.ts" := Example.routesTemplate [] [] []]>
          (<[lit "out/types.ts" := Example.typesTemplate [] [] []]> ∅)).
Proof.
  apply (generate_without_app_directory Example.path_join Example.array_sort
           Example.typesTemplate Example.routesTemplate
           {| appDir := Some (lit "app"); outputDir := Some (lit "out");
              excludePath := None; sortRoutes := None |}
           Example.fs ∅).
  - reflexivity.
  - reflexivity.
Defined.

(** X18.  The import path of a file with one of the extensions [.tsx],
    [.ts], [.jsx], [.js] is the path without the extension, behind [@/],
    and without a leading [src/]. *)
Theorem toImportPath_strips_extension (p ext : jsstring) :
  In ext [lit ".tsx"; lit ".ts"; lit ".jsx"; lit ".js"] ->
  toImportPath (p ++ ext)
  = lit "@/" ++ (if startsWith (lit "src/") p then skipn 4 p else p).
Proof.
  intros Hext. unfold toImportPath. rewrite strip_extension_ext by exact Hext.
  destruct (startsWith (lit "src/") p); reflexivity.
Qed.

(** X18, an instance: a file outside [src]. *)
Lemma toImportPath_strips_extension_witness :
  toImportPath (lit "app/about/page.ts") = lit "@/app/about/page".
Proof.
  apply (toImportPath_strips_extension (lit "app/about/page") (lit ".ts")).
  right. left. reflexivity.
Defined.

(** X19.  With a [path.join] that puts a slash between its arguments and
    an application directory below [src], the import path the routes
    template is given for a scanned route is [@/], the application
    directory without [src/], the directories down to the page, and
    [/page]; for a page below the root the directories are the route
    pattern. *)
Theorem import_path_of_scanned_page
    (path_join : jsstring -> jsstring -> jsstring)
    (excludePath : option (jsstring -> bool))
    (fs : filesystem) (app : jsstring) (routes : list ScannedRoute)
    (r : ScannedRoute) :
  (forall d n, path_join d n = d ++ "/" :: n) ->
  scanRoutes path_join excludePath fs (lit "src/" ++ app) = Ok routes ->
  In r routes ->
  exists segments,
    routePath r = "/" :: join ["/"] segments /\
    info_importPath (route_info r)
    = lit "@/" ++ app ++ below segments ++ lit "/page" /\
    (segments <> [] -> below segments = routePath r).
Proof.
  intros Hjoin Hscan Hr.
  destruct (scanned_route _ _ _ _ _ _ Hscan Hr)
    as (entries & segments & name & content & _ & _ & Hpage & ->).
  exists segments. split; [reflexivity|]. split; [|apply below_is_route].
  apply route_page_name in Hpage as (ext & -> & Hext).
  unfold route_info, route_of. cbn [info_importPath filePath].
  assert (path_join (fold_left path_join segments (lit "src/" ++ app))
            (lit "page" ++ ext)
          = (lit "src/" ++ app ++ below segments ++ lit "/page") ++ ext)
    as ->.
  { rewrite Hjoin, fold_join by exact Hjoin.
    rewrite <- !app_assoc. reflexivity. }
  rewrite (toImportPath_ext (lit "src/" ++ app ++ below segments ++ lit "/page")
             ext); [reflexivity|].
  destruct Hext as [<-|[<-|[]]]; [left | right; left]; reflexivity.
Qed.

(** X19, an instance: the page of [/user/[id]] in the application tree. *)
Lemma import_path_of_scanned_page_witness :
  exists segments,
    lit "/user/[id]" = "/" :: join ["/"] segments /\
    lit "@/app/user/[id]/page"
    = lit "@/" ++ lit "app" ++ below segments ++ lit "/page" /\
    (segments <> [] -> below segments = lit "/user/[id]").
Proof.
  apply (import_path_of_scanned_page Example.path_join None Example.fs
           (lit "app") _
           {| filePath := lit "src/app/user/[id]/page.tsx";
              routePath := lit "/user/[id]";
              params := [lit "id"];
              isStatic := false |} (fun d n => eq_refl) eq_refl).
  right. right. left. reflexivity.
Defined.

(** * Properties of the command line *)

Module CliFacts.
Import JS Scanner Generator Cli.

Lemma includes_In (x : jsstring) (args : list jsstring) :
  includes x args = true <-> In x args.
Proof.
  unfold includes. rewrite existsb_exists. split.
  - intros (a & Hin & Ha). apply bool_decide_eq_true in Ha. congruence.
  - intros H. exists x. split; [exact H | apply bool_decide_eq_true; reflexivity].
Qed.

Lemma includes_absent (x : jsstring) (args : list jsstring) :
  ~ In x args -> includes x args = false.
Proof.
  intros H. destruct (includes x args) eqn:Hi; [|reflexivity].
  apply includes_In in Hi. contradiction.
Qed.

Lemma indexOf_first (name : jsstring) (before rest : list jsstring) :
  ~ In name before ->
  indexOf name (before ++ name :: rest) = Some (length before).
Proof.
  induction before as [|a before IH]; intros Hb; simpl.
  - rewrite bool_decide_eq_true_2; reflexivity.
  - rewrite bool_decide_eq_false_2 by (intros ->; apply Hb; simpl; auto).
    rewrite IH by (intros H; apply Hb; simpl; auto). reflexivity.
Qed.

Lemma indexOf_absent (name : jsstring) (args : list jsstring) :
  ~ In name args -> indexOf name args = None.
Proof.
  induction args as [|a args IH]; intros Ha; simpl; [reflexivity|].
  rewrite bool_decide_eq_false_2 by (intros ->; apply Ha; simpl; auto).
  rewrite IH by (intros H; apply Ha; simpl; auto). reflexivity.
Qed.

(** The value of an option is the argument behind its first occurrence. *)
Lemma option_value_given (name value : jsstring)
    (before after : list jsstring) :
  ~ In name before -> value <> [] ->
  option_value name (before ++ name :: value :: after) = Some value.
Proof.
  intros Hb Hv. unfold option_value. rewrite indexOf_first by exact Hb.
  assert ((before ++ name :: value :: after) !! (length before + 1)
          = Some value) as ->.
  { rewrite lookup_app_r by lia.
    replace (length before + 1 - length before) with 1 by lia. reflexivity. }
  destruct value; [congruence | reflexivity].
Qed.

Lemma option_value_absent (name : jsstring) (args : list jsstring) :
  ~ In name args -> option_value name args = None.
Proof.
  intros H. unfold option_value. rewrite indexOf_absent by exact H.
  reflexivity.
Qed.

Lemma option_value_behind (name command : jsstring) (rest : list jsstring) :
  command <> name ->
  option_value name (command :: rest) = option_value name rest.
Proof.
  intros H. unfold option_value. cbn [indexOf].
  rewrite bool_decide_eq_false_2 by exact H.
  destruct (indexOf name rest) as [index|]; reflexivity.
Qed.

(** ** Files written one after the other *)

Section Writes.
Variable path_of : jsstring * jsstring -> jsstring.

Lemma write_files_cons (f : jsstring * jsstring)
    (files : list (jsstring * jsstring)) (s : gmap jsstring jsstring) :
  write_files path_of (f :: files) s
  = write_files path_of files (<[path_of f := snd f]> s).
Proof. reflexivity. Qed.

Lemma writes_same (files : list (jsstring * jsstring)) :
  forall (s s' : gmap jsstring jsstring) p,
  s !! p = s' !! p ->
  write_files path_of files s !! p = write_files path_of files s' !! p.
Proof.
  induction files as [|f files IH]; intros s s' p H; [exact H|].
  rewrite !write_files_cons. apply IH.
  destruct (decide (path_of f = p)) as [<-|Hne].
  - rewrite !lookup_insert_eq. reflexivity.
  - rewrite !lookup_insert_ne by exact Hne. exact H.
Qed.

Lemma writes_written (files : list (jsstring * jsstring)) :
  forall (s s' : gmap jsstring jsstring) p,
  In p (map path_of files) ->
  write_files path_of files s !! p = write_files path_of files s' !! p.
Proof.
  induction files as [|f files IH]; intros s s' p Hin; [destruct Hin|].
  rewrite !write_files_cons.
  destruct (in_dec (fun a b : jsstring => decide (a = b)) p
              (map path_of files)) as [Hp|Hp].
  - apply IH, Hp.
  - destruct Hin as [<-|Hin]; [|contradiction].
    apply writes_same. rewrite !lookup_insert_eq. reflexivity.
Qed.

Lemma writes_other (files : list (jsstring * jsstring)) :
  forall (s : gmap jsstring jsstring) p,
  ~ In p (map path_of files) -> write_files path_of files s !! p = s !! p.
Proof.
  induction files as [|f files IH]; intros s p Hp; [reflexivity|].
  rewrite write_files_cons, IH by (intros H; apply Hp; simpl; auto).
  apply lookup_insert_ne. intros <-. apply Hp. simpl; auto.
Qed.

Lemma writes_some (files : list (jsstring * jsstring)) :
  forall (s : gmap jsstring jsstring) p,
  In p (map path_of files) -> is_Some (write_files path_of files s !! p).
Proof.
  induction files as [|f files IH]; intros s p Hin; [destruct Hin|].
  rewrite write_files_cons.
  destruct (in_dec (fun a b : jsstring => decide (a = b)) p
              (map path_of files)) as [Hp|Hp].
  - apply IH, Hp.
  - destruct Hin as [<-|Hin]; [|contradiction].
    rewrite writes_other by exact Hp. rewrite lookup_insert_eq. eauto.
Qed.

(** Writing the files again changes nothing. *)
Lemma writes_again (files : list (jsstring * jsstring))
    (s : gmap jsstring jsstring) :
  write_files path_of files (write_files path_of files s)
  = write_files path_of files s.
Proof.
  apply map_eq. intros p.
  destruct (in_dec (fun a b : jsstring => decide (a = b)) p
              (map path_of files)) as [Hp|Hp].
  - apply writes_written, Hp.
  - apply writes_other, Hp.
Qed.

(** Nor does it change a file that is none of them. *)
Lemma writes_insert (files : list (jsstring * jsstring))
    (s : gmap jsstring jsstring) (p content : jsstring) :
  ~ In p (map path_of files) ->
  write_files path_of files (<[p := content]> s)
  = <[p := content]> (write_files path_of files s).
Proof.
  intros Hp. apply map_eq. intros q.
  destruct (decide (p = q)) as [<-|Hq].
  - rewrite writes_other, !lookup_insert_eq by exact Hp. reflexivity.
  - rewrite lookup_insert_ne by exact Hq.
    apply writes_same. apply lookup_insert_ne, Hq.
Qed.
End Writes.

End CliFacts.

(** * The command line *)

Import Cli CliFacts.

(** X20.  Options are read behind a command only.  When the first
    argument is not empty and is none of [help], [init], [generate] and
    [watch], and no argument asks for the help text or the version, [main]
    reports an unknown command and exits with status 1; so it does when
    the first argument is an option. *)
Theorem main_rejects_unknown_command
    (path_join : jsstring -> jsstring -> jsstring) (cwd : jsstring)
    (existsSync : jsstring -> bool)
    (import_module : jsstring -> option config_module)
    (first : jsstring) (rest : list jsstring) :
  first <> [] ->
  ~ In first [lit "help"; lit "init"; lit "generate"; lit "watch"] ->
  (forall flag,
     In flag [lit "--help"; lit "-h"; lit "--version"; lit "-v"] ->
     ~ In flag (first :: rest)) ->
  main path_join cwd existsSync import_module (first :: rest)
  = UnknownCommand first.
Proof.
  intros Hne Hcommand Hflags. unfold main.
  destruct first as [|c first]; [congruence|].
  change (((c :: first) :: rest) !! 0) with (Some (c :: first)).
  cbn [truthy default from_option id negb orb].
  rewrite !includes_absent by (apply Hflags; simpl; auto 10).
  rewrite !bool_decide_eq_false_2
    by (intros H; apply Hcommand; rewrite H; simpl; auto 10).
  reflexivity.
Qed.

(** X20, an instance: the options without a command. *)
Lemma main_rejects_unknown_command_witness :
  main Example.path_join (lit "/work") (fun _ => false) (fun _ => None)
    [lit "--app-dir"; lit "app"; lit "--output"; lit "src/generated/routes"]
  = UnknownCommand (lit "--app-dir").
Proof.
  apply main_rejects_unknown_command.
  - discriminate.
  - simpl. intuition discriminate.
  - intros flag Hflag. simpl in Hflag. simpl.
    intuition (subst; discriminate).
Defined.

(** X21.  Behind [generate] or [watch], with no argument asking for the
    help text or the version, [main] runs the generator or the watcher
    with the configuration of the configuration file in which [appDir] is
    the argument that follows the first [--app-dir], when that argument
    is there and not empty, and [outputDir] the one that follows the
    first [--output]; without the option the setting of the file stays,
    and the other settings are those of the file. *)
Theorem main_reads_options
    (path_join : jsstring -> jsstring -> jsstring) (cwd : jsstring)
    (existsSync : jsstring -> bool)
    (import_module : jsstring -> option config_module)
    (command : jsstring) (rest : list jsstring) :
  command = lit "generate" \/ command = lit "watch" ->
  (forall flag,
     In flag [lit "--help"; lit "-h"; lit "--version"; lit "-v"] ->
     ~ In flag rest) ->
  let fileConfig := loadConfig path_join cwd existsSync import_module in
  exists config,
    main path_join cwd existsSync import_module (command :: rest)
    = (if bool_decide (command = lit "watch") then Watch config
       else Generate config) /\
    (forall before value after,
       rest = before ++ lit "--app-dir" :: value :: after ->
       ~ In (lit "--app-dir") before -> value <> [] ->
       appDir config = Some value) /\
    (~ In (lit "--app-dir") rest -> appDir config = appDir fileConfig) /\
    (forall before value after,
       rest = before ++ lit "--output" :: value :: after ->
       ~ In (lit "--output") before -> value <> [] ->
       outputDir config = Some value) /\
    (~ In (lit "--output") rest -> outputDir config = outputDir fileConfig) /\
    excludePath config = excludePath fileConfig /\
    sortRoutes config = sortRoutes fileConfig.
Proof.
  intros Hcommand Hflags fileConfig.
  exists (merge fileConfig
            (option_value (lit "--app-dir") (command :: rest))
            (option_value (lit "--output") (command :: rest))).
  assert (forall flag,
            In flag [lit "--help"; lit "-h"; lit "--version"; lit "-v"] ->
            includes flag (command :: rest) = false) as Hinc.
  { intros flag Hflag. apply includes_absent. intros [<-|Hin].
    - simpl in Hflag. destruct Hcommand as [->| ->]; intuition discriminate.
    - exact (Hflags flag Hflag Hin). }
  rewrite !option_value_behind
    by (destruct Hcommand as [->| ->]; discriminate).
  split.
  - unfold main. rewrite !Hinc by (simpl; auto 10).
    rewrite !option_value_behind
      by (destruct Hcommand as [->| ->]; discriminate).
    destruct Hcommand as [->| ->]; reflexivity.
  - cbn [merge appDir outputDir excludePath sortRoutes]. repeat split.
    + intros before value after -> Hb Hv.
      rewrite option_value_given by assumption. reflexivity.
    + intros H. rewrite option_value_absent by exact H. reflexivity.
    + intros before value after -> Hb Hv.
      rewrite option_value_given by assumption. reflexivity.
    + intros H. rewrite option_value_absent by exact H. reflexivity.
Qed.

(** X21, an instance: an output directory given on the command line,
    with no configuration file. *)
Lemma main_reads_options_witness :
  exists config,
    main Example.path_join (lit "/work") (fun _ => false) (fun _ => None)
      [lit "generate"; lit "--output"; lit "out"]
    = Generate config /\
    outputDir config = Some (lit "out") /\ appDir config = None.
Proof.
  destruct (main_reads_options Example.path_join (lit "/work")
              (fun _ => false) (fun _ => None)
              (lit "generate") [lit "--output"; lit "out"])
    as (config & Hmain & _ & Happ & Hout & _).
  - left. reflexivity.
  - intros flag Hflag. simpl in Hflag. simpl.
    intuition (subst; discriminate).
  - exists config. split; [exact Hmain|]. split.
    + apply (Hout [] (lit "out") []); [reflexivity | simpl; tauto | discriminate].
    + rewrite Happ; [reflexivity|]. simpl. intuition discriminate.
Defined.

(** X22.  [initConfig] does not write over a configuration file that is
    there: when the working directory has one, which is none of the six
    files of the output directory, its content stays. *)
Theorem initConfig_keeps_config
    (path_join : jsstring -> jsstring -> jsstring) (cwd : jsstring)
    (routeMetaTemplate createRouteTemplate typesInitTemplate : jsstring)
    (routesInitTemplate utilsStaticTemplate indexInitTemplate : jsstring)
    (store : gmap jsstring jsstring) (content : jsstring) :
  let configPath := path_join cwd (lit "route-codegen.config.ts") in
  let outputPath :=
    path_join cwd (lit ".generated/next-typed-codegen-route") in
  store !! configPath = Some content ->
  (forall name,
     In name [lit "route-meta.ts"; lit "create-route.ts"; lit "types.ts";
              lit "routes.ts"; lit "utils.ts"; lit "index.ts"] ->
     path_join outputPath name <> configPath) ->
  initConfig path_join cwd routeMetaTemplate createRouteTemplate
    typesInitTemplate routesInitTemplate utilsStaticTemplate
    indexInitTemplate store !! configPath
  = Some content.
Proof.
  intros configPath outputPath Hconfig Hnames. unfold initConfig.
  cbv zeta. fold configPath outputPath.
  set (files := [(lit "route-meta.ts", routeMetaTemplate); _; _; _; _; _]).
  set (path_of := fun file : jsstring * jsstring =>
                    path_join outputPath (fst file)).
  assert (write_files path_of files store !! configPath = Some content) as Hw.
  { rewrite writes_other; [exact Hconfig|].
    subst files path_of. cbn [map fst]. intros Hin.
    repeat (destruct Hin as [Hin|Hin];
            [revert Hin; apply Hnames; simpl; auto 10|]).
    destruct Hin. }
  rewrite bool_decide_eq_true_2 by (rewrite Hw; eauto). exact Hw.
Qed.

(** X22, an instance: a configuration file of one's own. *)
Lemma initConfig_keeps_config_witness :
  initConfig Example.path_join (lit "/work") (lit "meta") (lit "create")
    (lit "types") (lit "routes") (lit "utils") (lit "index")
    {[ lit "/work/route-codegen.config.ts" := lit "export default {};" ]}
  !! lit "/work/route-codegen.config.ts"
  = Some (lit "export default {};").
Proof.
  apply (initConfig_keeps_config Example.path_join (lit "/work")).
  - reflexivity.
  - intros name Hname. simpl in Hname.
    intuition (subst; discriminate).
Defined.

(** X23.  After [initConfig] the working directory has a configuration
    file, and a second [initConfig] changes nothing. *)
Theorem initConfig_idempotent
    (path_join : jsstring -> jsstring -> jsstring) (cwd : jsstring)
    (routeMetaTemplate createRouteTemplate typesInitTemplate : jsstring)
    (routesInitTemplate utilsStaticTemplate indexInitTemplate : jsstring)
    (store : gmap jsstring jsstring) :
  let init :=
    initConfig path_join cwd routeMetaTemplate createRouteTemplate
      typesInitTemplate routesInitTemplate utilsStaticTemplate
      indexInitTemplate in
  is_Some (init store !! path_join cwd (lit "route-codegen.config.ts")) /\
  init (init store) = init store.
Proof.
  intros init. subst init. unfold initConfig. cbv zeta.
  set (configPath := path_join cwd (lit "route-codegen.config.ts")).
  set (outputPath :=
         path_join cwd (lit ".generated/next-typed-codegen-route")).
  set (files := [(lit "route-meta.ts", routeMetaTemplate); _; _; _; _; _]).
  set (path_of := fun file : jsstring * jsstring =>
                    path_join outputPath (fst file)).
  set (config := configContent (lit ".generated/next-typed-codegen-route")).
  destruct (bool_decide
              (is_Some (write_files path_of files store !! configPath)))
    eqn:Hthere.
  - apply bool_decide_eq_true in Hthere. split; [exact Hthere|].
    rewrite writes_again. rewrite bool_decide_eq_true_2 by exact Hthere.
    reflexivity.
  - apply bool_decide_eq_false in Hthere.
    assert (~ In configPath (map path_of files)) as Hnone.
    { intros Hin. apply Hthere. apply writes_some, Hin. }
    split; [rewrite lookup_insert_eq; eauto|].
    rewrite writes_insert by exact Hnone.
    rewrite writes_again.
    rewrite bool_decide_eq_true_2 by (rewrite lookup_insert_eq; eauto).
    reflexivity.
Qed.

(** * The path builder and the matcher, further *)

Import JS PathBuilder RoutePattern Notions Shapes.
Import JSFacts PatternFacts MatchFacts BuilderFacts MatcherFacts.

(** X24.  For a pattern in which every placeholder is followed by a slash
    or ends the pattern, the path written from the pattern with texts
    that are not empty and hold neither slash nor percent sign in the
    places of the placeholders matches, and the parameter map gives each
    name other than [__proto__] the text in the place of its placeholder,
    the last one when the name comes more than once. *)
Theorem matchRoute_complete (pattern : jsstring) (groups : list jsstring) :
  placeholders_end_segments pattern = true ->
  length groups = length (PathBuilder.extractParamKeys pattern) ->
  (forall g, In g groups -> g <> [] /\ ~ In "/" g /\ ~ In "%" g) ->
  exists m,
    matchRoute (fill (scan placeholder_at pattern) groups) pattern
    = Ok (Some m) /\
    forall i key g,
      PathBuilder.extractParamKeys pattern !! i = Some key ->
      groups !! i = Some g ->
      ~ In key (drop (S i) (PathBuilder.extractParamKeys pattern)) ->
      key <> lit "__proto__" ->
      m !! key = Some g.
Proof.
  intros Hclose Hlen Hgs. rewrite PatternFacts.extractParamKeys_hits in *.
  destruct (assign_params_plain (hits (scan placeholder_at pattern)) 0
              groups ∅) as [m Hm].
  { intros g Hg. apply (Hgs g Hg). }
  exists m. split.
  - rewrite matchRoute_cases. unfold pattern_items.
    rewrite exec_filled; [| exact Hclose | exact Hlen |].
    + rewrite PatternFacts.extractParamKeys_hits, Hm. reflexivity.
    + apply List.Forall_forall. intros g Hg.
      destruct (Hgs g Hg) as (H1 & H2 & _). auto.
  - intros i key g Hi Hg Hlast Hproto.
    destruct (assign_params_values _ _ _ _ _ Hm i key g Hi Hg Hlast Hproto)
      as (v & Hv & Hmv).
    rewrite decode_plain in Hv.
    + congruence.
    + apply (Hgs g). apply list_elem_of_In.
      eapply list_elem_of_lookup_2. exact Hg.
Qed.

(** X24, an instance: two placeholders. *)
Lemma matchRoute_complete_witness :
  exists m,
    matchRoute (lit "/user/7/post/9") (lit "/user/[userId]/post/[postId]")
    = Ok (Some m) /\
    forall i key g,
      [lit "userId"; lit "postId"] !! i = Some key ->
      [lit "7"; lit "9"] !! i = Some g ->
      ~ In key (drop (S i) [lit "userId"; lit "postId"]) ->
      key <> lit "__proto__" ->
      m !! key = Some g.
Proof.
  apply (matchRoute_complete (lit "/user/[userId]/post/[postId]")
           [lit "7"; lit "9"]).
  - reflexivity.
  - reflexivity.
  - intros g [<-|[<-|[]]]; repeat split; try discriminate;
      intros [H|[]]; discriminate H.
Defined.

(** X25.  A value never adds a segment: for a route whose parameter names
    hold no slash, the path [buildPath] returns has as many segments as
    the route. *)
Theorem buildPath_keeps_segments (route path : jsstring)
    (params : gmap jsstring jsstring) :
  buildPath route (Some params) = Ok path ->
  (forall key, In key (PathBuilder.extractParamKeys route) -> ~ In "/" key) ->
  length (split_slash path) = length (split_slash route).
Proof.
  intros Hb Hkeys. apply buildPath_ok in Hb. rewrite Hb.
  rewrite <- (scan_placeholder_text (length route) route) at 2 by lia.
  rewrite (segments_count matched_text), segments_count.
  - reflexivity.
  - intros k _. apply encode_no_slash.
  - intros k Hk. rewrite <- PatternFacts.extractParamKeys_hits in Hk.
    unfold matched_text. intros [H|H]; [discriminate|].
    apply in_app_or in H as [H|[H|[]]]; [|discriminate].
    exact (Hkeys k Hk H).
Qed.

(** X25, an instance: a value with slashes of its own. *)
Lemma buildPath_keeps_segments_witness :
  length (split_slash (lit "/files/..%2F..%2Fetc"))
  = length (split_slash (lit "/files/[name]")).
Proof.
  apply (buildPath_keeps_segments (lit "/files/[name]") _
           {[ lit "name" := lit "../../etc" ]}).
  - reflexivity.
  - intros key [<-|[]] H. vm_compute in H. intuition discriminate.
Defined.

(** * Route creation *)

Import CreateRoute.

(** X26.  [createRoute] returns the component of its options, the object
    itself; afterwards the property [_routeConfig] of the component is
    the options object, whose [component] is the component still; no
    other property of an object has changed.  [createDynamicRoute] does
    the same. *)
Theorem createRoute_attaches_config (options component : loc) (h h' : heap) :
  createRoute options h = Some (component, h') ->
  get h options (lit "component") = Some (Ref component) /\
  get h' component (lit "_routeConfig") = Some (Ref options) /\
  get h' options (lit "component") = Some (Ref component) /\
  (forall o key,
     o <> component \/ key <> lit "_routeConfig" ->
     get h' o key = get h o key) /\
  createDynamicRoute options h = Some (component, h').
Proof.
  intros H.
  assert (createDynamicRoute options h = Some (component, h')) as Hd
    by exact H.
  unfold createRoute in H.
  destruct (get h options (lit "component")) as [[c|]|] eqn:Hc;
    try discriminate.
  destruct (h !! c) as [properties|] eqn:Hp; [|discriminate].
  injection H as -> <-.
  assert (forall o key,
            o <> component \/ key <> lit "_routeConfig" ->
            get (<[component :=
                     <[lit "_routeConfig" := Ref options]> properties]> h)
              o key
            = get h o key) as Hframe.
  { intros o key Hne. unfold get.
    destruct (decide (component = o)) as [<-|Ho].
    - rewrite lookup_insert_eq, Hp. apply lookup_insert_ne.
      intros <-. destruct Hne as [Hne|Hne]; congruence.
    - rewrite lookup_insert_ne by exact Ho. reflexivity. }
  repeat split.
  - unfold get. rewrite lookup_insert_eq. apply lookup_insert_eq.
  - rewrite Hframe; [exact Hc|]. right. discriminate.
  - exact Hframe.
  - exact Hd.
Qed.

(** X26, an instance: a component function and its options. *)
Lemma createRoute_attaches_config_witness :
  get (<[2%positive := {[ lit "_routeConfig" := Ref 1%positive ]}]>
         ({[ 1%positive := {[ lit "component" := Ref 2%positive ]};
             2%positive := ∅ ]} : heap))
    2%positive (lit "_routeConfig")
  = Some (Ref 1%positive).
Proof.
  apply (createRoute_attaches_config 1%positive 2%positive
           ({[ 1%positive := {[ lit "component" := Ref 2%positive ]};
               2%positive := ∅ ]} : heap)).
  reflexivity.
Defined.

(** * The error of the path builder *)



(** * The characters of a built path *)

(** X28.  A value brings no reserved character into the path: every
    character of the path [buildPath] returns is a character of the
    route, an unreserved character or a percent sign. *)
Theorem buildPath_adds_no_reserved_character (route path : jsstring)
    (params : gmap jsstring jsstring) (c : ascii) :
  buildPath route (Some params) = Ok path -> In c path ->
  In c route \/ is_unreserved c = true \/ c = "%".
Proof.
  intros Hb Hc. apply buildPath_ok in Hb. rewrite Hb in Hc.
  apply replace_by_chars in Hc as [Hc|(k & _ & Hc)].
  - left. rewrite <- (scan_placeholder_text (length route) route) by lia.
    apply literal_in_text, Hc.
  - right. exact (encode_chars _ _ Hc).
Qed.

(** X28, an instance: a value with a question mark and a number sign;
    the percent sign of the path comes from their escapes. *)
Lemma buildPath_adds_no_reserved_character_witness :
  In "%" (lit "/q/[term]") \/ is_unreserved "%" = true \/ "%" = "%".
Proof.
  apply (buildPath_adds_no_reserved_character (lit "/q/[term]")
           (lit "/q/a%3Fb%23c") {[ lit "term" := lit "a?b#c" ]} "%").
  - reflexivity.
  - simpl. auto 10.
Defined.
